(** * CalendarHeatmap: a shallow embedding of [src/CalendarHeatmap.tsx]

    The pure part of the component is embedded function by function:
    the type guard, the date utilities, the color utilities, the
    intensity scale, the month-grid builders, the legend resolution, the
    value index and the per-cell assembly done by the render loop.

    Conventions of the embedding.
    - A JavaScript [number] is a value of [number]: a rational (kept in
      lowest terms), or one of [NaN], [+Infinity], [-Infinity].  The
      arithmetic on data values and on color channels ([buildScale],
      [mixToWhite], the products of the demo data) is binary64
      arithmetic: each operation is computed on the rationals and its
      result rounded by [double], to the nearest binary64 number, a tie
      to the even one, and to an infinity on overflow.  The arithmetic on
      calendar fields is on integers far below 2^53, where binary64 is
      exact, and is written without rounding; so is the division of the
      legend's step index by 3, kept as the fraction.  The sign of zero
      is not kept.
    - [null] and [undefined] are [None].
    - A [Date] is the number of its local calendar day counted from
      1970-01-01, or [InvalidDate].  Every [Date] the component builds is
      a local midnight (or is only asked for its year and month), so the
      time of day is not kept; the local time zone offset is taken as
      zero where the representable range of [Date] is decided.
    - Strings are [string]s of bytes; the component only builds and
      inspects ASCII text in the functions embedded here. *)

From Stdlib Require Import ZArith QArith Qround Qreduction Lia Lqa Bool List.
From Stdlib Require Import Ascii String DecimalString DecimalZ.
From stdpp Require Import base option list strings gmap.

Local Open Scope Z_scope.

(** ** 1. Numbers *)

Inductive number : Type :=
| Fin (q : Q)
| NaN
| PosInf
| NegInf.

Definition ofZ (z : Z) : number := Fin (inject_Z z).

(** [typeof value === "number" && Number.isFinite(value)], for a value
    typed [number | null | undefined]. *)
Definition Number_isFinite (v : number) : bool :=
  match v with Fin _ => true | _ => false end.

Definition isFiniteNumber (value : option number) : bool :=
  match value with
  | Some v => Number_isFinite v
  | None => false
  end.

(** Sign of a rational as a comparison with zero. *)
Definition Qsign (q : Q) : comparison := (q ?= 0)%Q.

Definition inf_of_sign (c : comparison) : number :=
  match c with Gt => PosInf | Lt => NegInf | Eq => NaN end.

Definition num_opp (x : number) : number :=
  match x with
  | Fin a => Fin (Qred (- a))
  | NaN => NaN
  | PosInf => NegInf
  | NegInf => PosInf
  end.

Definition num_add (x y : number) : number :=
  match x, y with
  | NaN, _ | _, NaN => NaN
  | Fin a, Fin b => Fin (Qred (a + b))
  | PosInf, NegInf | NegInf, PosInf => NaN
  | PosInf, _ | _, PosInf => PosInf
  | NegInf, _ | _, NegInf => NegInf
  end.

Definition num_sub (x y : number) : number :=
  match x, y with
  | NaN, _ | _, NaN => NaN
  | Fin a, Fin b => Fin (Qred (a - b))
  | PosInf, PosInf | NegInf, NegInf => NaN
  | PosInf, _ | _, NegInf => PosInf
  | NegInf, _ | _, PosInf => NegInf
  end.

Definition num_mul (x y : number) : number :=
  match x, y with
  | NaN, _ | _, NaN => NaN
  | Fin a, Fin b => Fin (Qred (a * b))
  | Fin a, PosInf | PosInf, Fin a => inf_of_sign (Qsign a)
  | Fin a, NegInf | NegInf, Fin a => inf_of_sign (CompOpp (Qsign a))
  | PosInf, PosInf | NegInf, NegInf => PosInf
  | PosInf, NegInf | NegInf, PosInf => NegInf
  end.

(** Division; a finite number over zero takes the sign of the numerator
    (the divisor is read as [+0]). *)
Definition num_div (x y : number) : number :=
  match x, y with
  | NaN, _ | _, NaN => NaN
  | Fin a, Fin b =>
      if Qeq_bool b 0 then inf_of_sign (Qsign a) else Fin (Qred (a / b))
  | Fin _, _ => Fin 0
  | PosInf, Fin b =>
      match Qsign b with Lt => NegInf | _ => PosInf end
  | NegInf, Fin b =>
      match Qsign b with Lt => PosInf | _ => NegInf end
  | _, _ => NaN
  end.

(** [x === y] on numbers. *)
Definition num_eqb (x y : number) : bool :=
  match x, y with
  | Fin a, Fin b => Qeq_bool a b
  | PosInf, PosInf | NegInf, NegInf => true
  | _, _ => false
  end.

(** [x <= y] and [x < y] on numbers; false as soon as one side is NaN. *)
Definition num_leb (x y : number) : bool :=
  match x, y with
  | NaN, _ | _, NaN => false
  | NegInf, _ | _, PosInf => true
  | Fin a, Fin b => Qle_bool a b
  | _, _ => false
  end.

Definition num_ltb (x y : number) : bool :=
  match x, y with
  | NaN, _ | _, NaN => false
  | PosInf, _ | _, NegInf => false
  | Fin a, Fin b => negb (Qle_bool b a)
  | _, _ => true
  end.

(** [Math.min(x, y)] and [Math.max(x, y)]. *)
Definition Math_min2 (x y : number) : number :=
  match x, y with
  | NaN, _ | _, NaN => NaN
  | _, _ => if num_leb x y then x else y
  end.

Definition Math_max2 (x y : number) : number :=
  match x, y with
  | NaN, _ | _, NaN => NaN
  | _, _ => if num_leb x y then y else x
  end.

(** [Math.min(...xs)] and [Math.max(...xs)]: the fold starts from
    [+Infinity], respectively [-Infinity], as the language defines it. *)
Definition Math_min (xs : list number) : number :=
  fold_left Math_min2 xs PosInf.

Definition Math_max (xs : list number) : number :=
  fold_left Math_max2 xs NegInf.

(** Truthiness of a number: every number but [0] and [NaN]. *)
Definition truthy (x : number) : bool :=
  match x with
  | Fin a => negb (Qeq_bool a 0)
  | NaN => false
  | _ => true
  end.

(** [Math.round]: the nearest integer, a tie going up. *)
Definition Math_round (x : number) : number :=
  match x with
  | Fin a => ofZ (Qfloor (a + (1 # 2)))
  | _ => x
  end.

(** [ToIntegerOrInfinity] restricted to finite numbers: truncation toward
    zero; [None] for anything that is not finite. *)
Definition Qtrunc (q : Q) : Z :=
  if Qle_bool 0 q then Qfloor q else Qceiling q.

Definition toInteger (x : number) : option Z :=
  match x with
  | Fin a => Some (Qtrunc a)
  | _ => None
  end.

(** *** Binary64

    The arithmetic on data values and on color channels is binary64
    arithmetic: the exact result rounded to the nearest binary64 number,
    a tie to the even significand, and to an infinity past the largest
    one.  The sign of zero is not kept. *)

(** The nearest integer, a tie to the even one. *)
Definition rne (x : Q) : Z :=
  let f := Qfloor x in
  match (x - inject_Z f ?= 1 # 2)%Q with
  | Lt => f
  | Gt => f + 1
  | Eq => if Z.even f then f else f + 1
  end.

(** Magnitudes are counted in units of [2^-1074], the smallest positive
    binary64 number: the binary64 magnitudes are the integers
    [m * 2^e] with [m < 2^53] and [m * 2^e < 2^2098] (that is, below
    [2^1024]). *)
Definition unit64 : Z := 2 ^ 1074.

Definition over64 : Z := 2 ^ 2098.

(** The exponent of the spacing of the binary64 numbers around [s]. *)
Definition ulp_exp (s : Q) : Z := Z.max (Z.log2 (Qfloor s) - 52) 0.

(** [s >= 0] rounded to 53 significant bits. *)
Definition grid64 (s : Q) : Z :=
  let e := ulp_exp s in
  rne (s / inject_Z (2 ^ e)) * 2 ^ e.

Definition round64_pos (a : Q) : number :=
  let v := grid64 (a * inject_Z unit64) in
  if over64 <=? v then PosInf
  else Fin (Qred (inject_Z v / inject_Z unit64)).

Definition round64 (q : Q) : number :=
  match (q ?= 0)%Q with
  | Eq => Fin 0
  | Gt => round64_pos q
  | Lt => num_opp (round64_pos (- q))
  end.

(** The least magnitude that is rounded to an infinity: half a spacing
    above the largest binary64 number. *)
Definition overflow64 : Q := inject_Z (2 ^ 1024 - 2 ^ 970).

(** The binary64 number a computed number is stored as. *)
Definition double (x : number) : number :=
  match x with
  | Fin q => round64 q
  | _ => x
  end.

(** ** 2. Strings *)

Local Open Scope string_scope.
Local Open Scope Z_scope.

(** The string of a number, as a template literal prints it.  The
    functions below only print integer-valued numbers (calendar fields
    and results of [Math.round]) and the three non-finite numbers; an
    integer is printed as its decimal numeral.  The rendering of other
    finite numbers depends on their binary64 representation and is not
    modelled: their integer part is printed. *)
Definition string_of_Z (z : Z) : string :=
  NilZero.string_of_int (Z.to_int z).

Definition numToString (x : number) : string :=
  match x with
  | Fin a => string_of_Z (Qfloor a)
  | NaN => "NaN"
  | PosInf => "Infinity"
  | NegInf => "-Infinity"
  end.

(** [s.split(sep)] for a one-character separator: the pieces between the
    occurrences of [sep], in order ([""] gives one empty piece). *)
Fixpoint split_on (sep : ascii) (s : string) : list string :=
  match s with
  | EmptyString => [EmptyString]
  | String c rest =>
      if Ascii.eqb c sep then EmptyString :: split_on sep rest
      else match split_on sep rest with
           | piece :: pieces => String c piece :: pieces
           | [] => [String c EmptyString]
           end
  end.

Definition digit_value (c : ascii) : option Z :=
  let n := Z.of_N (N_of_ascii c) in
  if (48 <=? n) && (n <=? 57) then Some (n - 48) else None.

Fixpoint digits_value (acc : Z) (s : string) : option Z :=
  match s with
  | EmptyString => Some acc
  | String c rest =>
      match digit_value c with
      | Some v => digits_value (10 * acc + v) rest
      | None => None
      end
  end.

(** [Number(s)] on the strings a [YYYY-MM] month is written with: [0]
    for the empty string and the value of a run of decimal digits.  The
    language also reads a sign, a fraction, an exponent, a radix prefix,
    [Infinity] and surrounding white space; these forms are not modelled
    and are answered [NaN] here.  So a date the model reads is the date
    the code reads, while a string the model rejects may be one the code
    reads: the properties on strings that cannot be read are stated for
    strings without ["-"], whose month is [undefined] whatever the year
    is read as. *)
Definition Number_ofString (s : string) : number :=
  match digits_value 0 s with
  | Some v => ofZ v
  | None => NaN
  end.

(** ** 3. The calendar behind [Date]

    Day numbers, years, months and week days as the language standard
    defines them for time values (Day, DayFromYear, YearFromTime,
    MonthFromTime, DateFromTime, WeekDay, MakeDay), on whole days. *)

Definition InLeapYear (y : Z) : bool :=
  (y mod 4 =? 0) && (negb (y mod 100 =? 0) || (y mod 400 =? 0)).

Definition DaysInYear (y : Z) : Z := if InLeapYear y then 366 else 365.

Definition DayFromYear (y : Z) : Z :=
  365 * (y - 1970) + (y - 1969) / 4 - (y - 1901) / 100 + (y - 1601) / 400.

(** The largest year whose first day is not after [day]: an estimate from
    the mean year length, corrected by at most one. *)
Definition YearFromDay (day : Z) : Z :=
  let c := 1970 + (400 * day) / 146097 in
  if day <? DayFromYear c then c - 1
  else if DayFromYear (c + 1) <=? day then c + 1
  else c.

Definition DayWithinYear (day : Z) : Z := day - DayFromYear (YearFromDay day).

(** Number of days of the year before month [m] (0-based). *)
Definition monthStart (leap : bool) (m : Z) : Z :=
  let L := if leap then 1 else 0 in
  match m with
  | 0 => 0
  | 1 => 31
  | 2 => 59 + L
  | 3 => 90 + L
  | 4 => 120 + L
  | 5 => 151 + L
  | 6 => 181 + L
  | 7 => 212 + L
  | 8 => 243 + L
  | 9 => 273 + L
  | 10 => 304 + L
  | 11 => 334 + L
  | _ => 365 + L
  end.

Definition MonthFromDay (day : Z) : Z :=
  let w := DayWithinYear day in
  let leap := InLeapYear (YearFromDay day) in
  if w <? monthStart leap 1 then 0
  else if w <? monthStart leap 2 then 1
  else if w <? monthStart leap 3 then 2
  else if w <? monthStart leap 4 then 3
  else if w <? monthStart leap 5 then 4
  else if w <? monthStart leap 6 then 5
  else if w <? monthStart leap 7 then 6
  else if w <? monthStart leap 8 then 7
  else if w <? monthStart leap 9 then 8
  else if w <? monthStart leap 10 then 9
  else if w <? monthStart leap 11 then 10
  else 11.

Definition DateFromDay (day : Z) : Z :=
  DayWithinYear day
  - monthStart (InLeapYear (YearFromDay day)) (MonthFromDay day) + 1.

(** 1970-01-01 was a Thursday; Sunday is 0. *)
Definition WeekDay (day : Z) : Z := (day + 4) mod 7.

Definition MakeDay (year month date : Z) : Z :=
  let ym := year + month / 12 in
  let mn := month mod 12 in
  DayFromYear ym + monthStart (InLeapYear ym) mn + date - 1.

(** Number of days of month [m] (0-based) of year [y]. *)
Definition daysInMonth (y m : Z) : Z :=
  monthStart (InLeapYear y) (m + 1) - monthStart (InLeapYear y) m.

(** *** [Date] objects *)

Inductive Date : Type :=
| ValidDate (day : Z)
| InvalidDate.

(** A time value is kept only within 100,000,000 days of the epoch. *)
Definition TimeClip (day : Z) : Date :=
  if Z.abs day <=? 100000000 then ValidDate day else InvalidDate.

(** A year from 0 to 99 given to the constructor stands for 1900 + year. *)
Definition MakeFullYear (y : Z) : Z :=
  if (0 <=? y) && (y <=? 99) then 1900 + y else y.

(** [new Date(year, month, date)]: the three arguments are truncated to
    integers and the fields may overflow into the neighbouring months and
    years. *)
Definition newDate (year month date : number) : Date :=
  match toInteger year, toInteger month, toInteger date with
  | Some y, Some m, Some dt => TimeClip (MakeDay (MakeFullYear y) m dt)
  | _, _, _ => InvalidDate
  end.

Definition getFullYear (d : Date) : number :=
  match d with ValidDate day => ofZ (YearFromDay day) | InvalidDate => NaN end.

Definition getMonth (d : Date) : number :=
  match d with ValidDate day => ofZ (MonthFromDay day) | InvalidDate => NaN end.

Definition getDate (d : Date) : number :=
  match d with ValidDate day => ofZ (DateFromDay day) | InvalidDate => NaN end.

Definition getDay (d : Date) : number :=
  match d with ValidDate day => ofZ (WeekDay day) | InvalidDate => NaN end.

(** [a <= b] on two dates: the comparison of their time values. *)
Definition date_leb (a b : Date) : bool :=
  match a, b with
  | ValidDate x, ValidDate y => x <=? y
  | _, _ => false
  end.

(** ** 4. Types of the component (section 1 of the source) *)

Record DayValue : Type := mkDayValue {
  dv_date : string;
  dv_value : option number
}.

Inductive WeekStart : Type := sun | mon.

Inductive CalendarHeatmapCellSize : Type :=
| SizeNumber (n : number)
| SizeObject (width height : option number).

Record Dimensions : Type := mkDimensions {
  dim_width : number;
  dim_height : number
}.

(** ** 5. [resolveCellDimensions] *)

Definition truthyOpt (x : option number) : bool :=
  match x with Some v => truthy v | None => false end.

Definition resolveCellDimensions
    (size : option CalendarHeatmapCellSize) (fallback : number) : Dimensions :=
  match size with
  | Some (SizeNumber n) =>
      if Number_isFinite n then mkDimensions n n
      else mkDimensions fallback fallback
  | Some (SizeObject w h) =>
      let width := if isFiniteNumber w then w else None in
      let height := if isFiniteNumber h then h else None in
      match width, height with
      | Some wv, Some hv =>
          if truthy wv && truthy hv then mkDimensions wv hv
          else if truthy wv then mkDimensions wv wv
          else if truthy hv then mkDimensions hv hv
          else mkDimensions fallback fallback
      | Some wv, None =>
          if truthy wv then mkDimensions wv wv
          else mkDimensions fallback fallback
      | None, Some hv =>
          if truthy hv then mkDimensions hv hv
          else mkDimensions fallback fallback
      | None, None => mkDimensions fallback fallback
      end
  | None => mkDimensions fallback fallback
  end.

(** ** 6. Date utilities (section 5 of the source) *)

(** [x % y] on numbers: the remainder has the sign of the dividend. *)
Definition num_rem (x y : number) : number :=
  match x, y with
  | Fin a, Fin b =>
      if Qeq_bool b 0 then NaN
      else Fin (Qred (a - b * inject_Z (Qtrunc (a / b))))
  | Fin a, PosInf | Fin a, NegInf => Fin a
  | _, _ => NaN
  end.

Definition pad (n : number) : string :=
  if num_ltb n (ofZ 10) then "0" +:+ numToString n else numToString n.

(** [const [y, m] = s.split("-").map(Number)]: a missing piece is
    [undefined], which [new Date] and [m - 1] read as NaN. *)
Definition parseYM (s : string) : Date :=
  let parts := map Number_ofString (split_on "-" s) in
  let y := nth 0 parts NaN in
  let m := nth 1 parts NaN in
  newDate y (num_sub m (ofZ 1)) (ofZ 1).

Definition endOfMonth (d : Date) : Date :=
  newDate (getFullYear d) (num_add (getMonth d) (ofZ 1)) (ofZ 0).

Definition addDays (d : Date) (n : number) : Date :=
  newDate (getFullYear d) (getMonth d) (num_add (getDate d) n).

Definition toISO (d : Date) : string :=
  numToString (getFullYear d) +:+ "-" +:+ pad (num_add (getMonth d) (ofZ 1))
  +:+ "-" +:+ pad (getDate d).

Definition startOfWeek (date : Date) (weekStart : WeekStart) : Date :=
  let day := getDay date in
  let target := match weekStart with sun => ofZ 0 | mon => ofZ 1 end in
  let back := num_rem (num_add (num_sub day target) (ofZ 7)) (ofZ 7) in
  addDays date (num_opp back).

Definition endOfWeek (date : Date) (weekStart : WeekStart) : Date :=
  let day := getDay date in
  let target := match weekStart with sun => ofZ 6 | mon => ofZ 0 end in
  let forward := num_rem (num_add (num_sub target day) (ofZ 7)) (ofZ 7) in
  addDays date forward.

(** ** 7. Color utilities (section 6 of the source) *)

(** [hex.replace("#", "")]: the first ["#"] is removed. *)
Fixpoint remove_first (ch : ascii) (s : string) : string :=
  match s with
  | EmptyString => EmptyString
  | String c rest =>
      if Ascii.eqb c ch then rest else String c (remove_first ch rest)
  end.

(** [c.split("").map((ch) => ch + ch).join("")]. *)
Fixpoint double_chars (s : string) : string :=
  match s with
  | EmptyString => EmptyString
  | String c rest => String c (String c (double_chars rest))
  end.

Definition hex_value (c : ascii) : option Z :=
  let n := Z.of_N (N_of_ascii c) in
  if (48 <=? n) && (n <=? 57) then Some (n - 48)
  else if (65 <=? n) && (n <=? 70) then Some (n - 55)
  else if (97 <=? n) && (n <=? 102) then Some (n - 87)
  else None.

(** The value of the longest prefix of hexadecimal digits; [None] when the
    string starts with no digit. *)
Fixpoint hex_prefix (acc : option Z) (s : string) : option Z :=
  match s with
  | EmptyString => acc
  | String c rest =>
      match hex_value c with
      | Some v => hex_prefix (Some (16 * default 0 acc + v)) rest
      | None => acc
      end
  end.

Definition is_space (c : ascii) : bool :=
  let n := Z.of_N (N_of_ascii c) in
  ((9 <=? n) && (n <=? 13)) || (n =? 32).

Fixpoint skip_spaces (s : string) : string :=
  match s with
  | String c rest => if is_space c then skip_spaces rest else s
  | EmptyString => s
  end.

(** A leading sign: whether it is a minus, and the rest. *)
Definition strip_sign (s : string) : bool * string :=
  match s with
  | String c r =>
      if Ascii.eqb c "-" then (true, r)
      else if Ascii.eqb c "+" then (false, r)
      else (false, s)
  | EmptyString => (false, s)
  end.

(** A leading [0x] or [0X]. *)
Definition strip_0x (s : string) : string :=
  match s with
  | String c (String d r) =>
      if Ascii.eqb c "0" && (Ascii.eqb d "x" || Ascii.eqb d "X") then r else s
  | _ => s
  end.

(** [parseInt(s, 16)]: leading white space (the ASCII part of it), a
    sign and a [0x] prefix are skipped, then the longest run of
    hexadecimal digits is read; NaN when there is none. *)
Definition parseInt16 (s : string) : number :=
  let '(neg, s2) := strip_sign (skip_spaces s) in
  match hex_prefix None (strip_0x s2) with
  | Some v => ofZ (if neg then - v else v)
  | None => NaN
  end.

(** [ToInt32], applied by [>>] and [&] to their operands. *)
Definition ToInt32 (x : number) : Z :=
  match toInteger x with
  | Some z =>
      let m := z mod 2 ^ 32 in
      if 2 ^ 31 <=? m then m - 2 ^ 32 else m
  | None => 0
  end.

Definition hexToRgb (hex : string) : number * number * number :=
  let c := remove_first "#" hex in
  let bigint :=
    parseInt16 (if (String.length c =? 3)%nat then double_chars c else c) in
  let r := Z.land (Z.shiftr (ToInt32 bigint) 16) 255 in
  let g := Z.land (Z.shiftr (ToInt32 bigint) 8) 255 in
  let b := Z.land (ToInt32 bigint) 255 in
  (ofZ r, ofZ g, ofZ b).

(** [Math.round(c + (255 - c) * (1 - t))], each of the four operations
    rounded to binary64. *)
Definition mix_channel (c t : number) : number :=
  Math_round
    (double (num_add c
       (double (num_mul (double (num_sub (ofZ 255) c))
                        (double (num_sub (ofZ 1) t)))))).

Definition mixToWhite (hex : string) (t : number) : string :=
  let '(r, g, b) := hexToRgb hex in
  let rr := mix_channel r t in
  let gg := mix_channel g t in
  let bb := mix_channel b t in
  "rgb(" +:+ numToString rr +:+ ", " +:+ numToString gg +:+ ", "
  +:+ numToString bb +:+ ")".

Definition clamp01 (x : number) : number :=
  Math_max2 (ofZ 0) (Math_min2 (ofZ 1) x).

Record Scale : Type := mkScale {
  intensity : option number -> number;
  thresholds : list number
}.

Definition buildScale (values : list number) : Scale :=
  let finiteVals := List.filter Number_isFinite values in
  let fallbackValue := ofZ 0 in
  let resolvedMin :=
    if (0 <? length finiteVals)%nat then Math_min finiteVals
    else fallbackValue in
  let resolvedMax :=
    if (0 <? length finiteVals)%nat then Math_max finiteVals
    else resolvedMin in
  let range := double (num_sub resolvedMax resolvedMin) in
  let intensity := fun v : option number =>
    match v with
    | None => ofZ 0
    | Some v =>
        if num_eqb range (ofZ 0) then ofZ 1
        else clamp01 (double (num_div (double (num_sub v resolvedMin)) range))
    end in
  {| intensity := intensity; thresholds := [resolvedMin; resolvedMax] |}.

(** ** 8. Grid builders (section 8 of the source) *)

Record MonthDay : Type := mkMonthDay {
  iso : string;
  inMonth : bool
}.

Record MonthInfo : Type := mkMonthInfo {
  year : number;
  month : number;
  days : list MonthDay
}.

(** The [for] loop of [buildMonthDays]; [fuel] bounds the number of
    iterations. *)
Fixpoint monthDays_loop (fuel : nat) (d gridEnd : Date) (month : number)
    : list MonthDay :=
  match fuel with
  | O => []
  | S fuel' =>
      if date_leb d gridEnd then
        {| iso := toISO d; inMonth := num_eqb (getMonth d) month |}
        :: monthDays_loop fuel' (addDays d (ofZ 1)) gridEnd month
      else []
  end.

(** Number of days from [a] to [b], both included: every iteration moves
    [d] forward by at least one day, so the loop needs no more fuel
    (lemma [monthDays_loop_enough] below). *)
Definition days_span (a b : Date) : nat :=
  match a, b with
  | ValidDate x, ValidDate y => Z.to_nat (y - x + 1)
  | _, _ => O
  end.

Definition buildMonthDays (year month : number) (weekStart : WeekStart)
    : list MonthDay :=
  let firstOfMonth := newDate year month (ofZ 1) in
  let lastOfMonth := endOfMonth firstOfMonth in
  let gridStart := startOfWeek firstOfMonth weekStart in
  let gridEnd := endOfWeek lastOfMonth weekStart in
  monthDays_loop (days_span gridStart gridEnd) gridStart gridEnd month.

(** The condition of the [while] loop of [buildMonths]. *)
Definition months_cond (cursor : Date) (endYear endMonth : number) : bool :=
  num_ltb (getFullYear cursor) endYear
  || (num_eqb (getFullYear cursor) endYear
      && num_leb (getMonth cursor) endMonth).

Fixpoint months_loop (fuel : nat) (cursor : Date) (endYear endMonth : number)
    (weekStart : WeekStart) : list MonthInfo :=
  match fuel with
  | O => []
  | S fuel' =>
      if months_cond cursor endYear endMonth then
        let y := getFullYear cursor in
        let m := getMonth cursor in
        {| year := y; month := m; days := buildMonthDays y m weekStart |}
        :: months_loop fuel' (newDate y (num_add m (ofZ 1)) (ofZ 1))
             endYear endMonth weekStart
      else []
  end.

(** Number of months from the month of [a] to the month of [b], both
    included: every iteration moves the cursor forward by at least one
    month, so the loop needs no more fuel (lemma [months_loop_enough]
    below). *)
Definition months_span (a b : Date) : nat :=
  match a, b with
  | ValidDate x, ValidDate y =>
      Z.to_nat (12 * YearFromDay y + MonthFromDay y
                - (12 * YearFromDay x + MonthFromDay x) + 1)
  | _, _ => O
  end.

(** A string is truthy when it is not empty. *)
Definition truthy_string (s : option string) : bool :=
  match s with
  | Some (String _ _) => true
  | _ => false
  end.

(** [now] is the value of [new Date()], read when no end month is given. *)
Definition buildMonths (now : Date) (startYM : string) (endYM : option string)
    (weekStart : WeekStart) : list MonthInfo :=
  let startMonth := parseYM startYM in
  let endMonthDate :=
    if truthy_string endYM then parseYM (default "" endYM) else now in
  let endYear := getFullYear endMonthDate in
  let endMonth := getMonth endMonthDate in
  let cursor := newDate (getFullYear startMonth) (getMonth startMonth) (ofZ 1) in
  months_loop (months_span cursor endMonthDate) cursor endYear endMonth weekStart.

(** ** 9. Legend (section 9 of the source and the legend memos) *)

Definition DEFAULT_LEGEND_LABELS : list string :=
  ["Low"; "Medium"; "High"; "Very High"].

Definition LEGEND_STEP_COUNT : nat := 4.

(** [label] is what [legendLabelsResolved[idx]] reads: [None] is the
    [undefined] of an index past the end. *)
Record LegendLevel : Type := mkLegendLevel {
  label : option string;
  level_intensity : number
}.

(** [xs.slice(from, to)] for indices within the natural numbers. *)
Definition slice {A : Type} (from to : nat) (xs : list A) : list A :=
  firstn (to - from) (skipn from xs).

Definition legendLabelsResolved (legendLabels : option (list string))
    : list string :=
  let base :=
    match legendLabels with
    | Some l => if (0 <? length l)%nat then l else DEFAULT_LEGEND_LABELS
    | None => DEFAULT_LEGEND_LABELS
    end in
  if (LEGEND_STEP_COUNT <=? length base)%nat then slice 0 LEGEND_STEP_COUNT base
  else base ++ slice (length base) LEGEND_STEP_COUNT DEFAULT_LEGEND_LABELS.

Definition legendLevels (showLegend : bool) (resolved : list string)
    : list LegendLevel :=
  if negb showLegend then []
  else
    map (fun idx : nat =>
           {| label := resolved !! idx;
              level_intensity :=
                num_div (ofZ (Z.of_nat idx))
                        (ofZ (Z.of_nat LEGEND_STEP_COUNT - 1)) |})
        (seq 0 LEGEND_STEP_COUNT).

(** ** 10. The main component (section 10 of the source) *)

Record Props : Type := mkProps {
  start : string;
  data : list DayValue;
  range_end : option string;
  range_weekStart : option WeekStart;
  cell_size : option CalendarHeatmapCellSize;
  cell_baseColor : option string;
  cell_emptyColor : option string;
  legend_show : option bool;
  legend_labels : option (list string);
  (** whether an [onDayClick] handler is passed *)
  onDayClick : bool
}.

(** The value index: a [Map] filled in input order. *)
Definition dateValueMap (data : list DayValue) : gmap string (option number) :=
  fold_left
    (fun m dv =>
       <[dv_date dv := if isFiniteNumber (dv_value dv) then dv_value dv
                       else None]> m)
    data ∅.

Definition scaleValues (data : list DayValue) : list number :=
  List.filter Number_isFinite (map (fun d => default NaN (dv_value d)) data).

Definition safeMonths (months : list MonthInfo) (start : string)
    (weekStart : WeekStart) : list MonthInfo :=
  if (0 <? length months)%nat then months
  else
    let s := parseYM start in
    [ {| year := getFullYear s;
         month := getMonth s;
         days := buildMonthDays (getFullYear s) (getMonth s) weekStart |} ].

(** What the render loop decides for one day of the displayed grid.  The
    texts of the cell (day number, formatted value, aria label) depend on
    the locale and are left out. *)
Record Cell : Type := mkCell {
  cell_key : string;
  cell_inMonth : bool;
  valueForCell : option number;
  cell_intensity : number;
  hasValue : bool;
  (** [background] of the cell style *)
  fill : string;
  (** the [interactive] constant *)
  interactive : bool;
  (** whether the rendered element carries an [onClick] handler *)
  has_onClick : bool;
  (** the [cursor] of the rendered element, when it sets one *)
  cursor : option string
}.

Definition renderCell (values : gmap string (option number))
    (intensityScale : Scale) (baseColor emptyColor : string)
    (onDayClick : bool) (day : MonthDay) : Cell :=
  let dataValue := default None (values !! iso day) in
  let valueForCell :=
    if inMonth day && isFiniteNumber dataValue then dataValue else None in
  let intens :=
    match valueForCell with
    | None => ofZ 0
    | Some _ => intensity intensityScale valueForCell
    end in
  let hasValue := inMonth day && bool_decide (valueForCell <> None) in
  let fill :=
    if hasValue then mixToWhite baseColor intens else emptyColor in
  let interactive := onDayClick && inMonth day in
  {| cell_key := iso day;
     cell_inMonth := inMonth day;
     valueForCell := valueForCell;
     cell_intensity := intens;
     hasValue := hasValue;
     fill := fill;
     interactive := interactive;
     has_onClick := inMonth day && interactive;
     cursor :=
       if inMonth day
       then Some (if interactive then "pointer" else "default")
       else None |}.

(** The cells of the displayed month; [activeMonthIndex] is the state the
    month selector sets. *)
Definition CalendarHeatmap_cells (now : Date) (activeMonthIndex : nat)
    (p : Props) : list Cell :=
  let weekStart := default sun (range_weekStart p) in
  let baseColor := default "#3b82f6" (cell_baseColor p) in
  let emptyColor := default "#FFECEC" (cell_emptyColor p) in
  let values := dateValueMap (data p) in
  let intensityScale := buildScale (scaleValues (data p)) in
  let months := buildMonths now (start p) (range_end p) weekStart in
  let safe := safeMonths months (start p) weekStart in
  let days :=
    match safe !! activeMonthIndex with
    | Some activeMonth => days activeMonth
    | None => []
    end in
  map (renderCell values intensityScale baseColor emptyColor (onDayClick p)) days.

(** The legend levels handed to the [Legend] subcomponent. *)
Definition CalendarHeatmap_legend (p : Props) : list LegendLevel :=
  legendLevels (default true (legend_show p))
    (legendLabelsResolved (legend_labels p)).

(** The width and the height of a cell. *)
Definition CalendarHeatmap_dimensions (p : Props) : Dimensions :=
  resolveCellDimensions (cell_size p) (ofZ 44).

(** ** 10a. Weekday labels (sections 3 and 4 of the source) *)

Inductive WeekdayLanguage : Type := ko | en.

Definition WEEKDAY_LABELS (language : WeekdayLanguage) : list string :=
  match language with
  | en => ["Sun"; "Mon"; "Tue"; "Wed"; "Thu"; "Fri"; "Sat"]
  | ko => ["일"; "월"; "화"; "수"; "목"; "금"; "토"]
  end.

(** [[...labels.slice(1), labels[0]]]; the two tables are not empty, so
    [labels[0]] is the first label. *)
Definition getOrderedWeekdayLabels (language : WeekdayLanguage)
    (weekStart : WeekStart) : list string :=
  let labels := WEEKDAY_LABELS language in
  match weekStart with
  | sun => labels
  | mon => (skipn 1 labels ++ firstn 1 labels)%list
  end.

(** ** 10b. The [Legend] subcomponent (section 9 of the source) *)

(** One entry of the rendered legend: its key, the [background] of its
    swatch and its text. *)
Record LegendItem : Type := mkLegendItem {
  item_key : string;
  item_background : string;
  item_label : option string
}.

(** [None] is the [null] the subcomponent returns for no level. *)
Definition Legend (baseColor : string) (levels : list LegendLevel)
    : option (list LegendItem) :=
  if (length levels =? 0)%nat then None
  else
    Some (imap (fun idx level =>
                  {| item_key :=
                       default "undefined" (label level) +:+ "-"
                       +:+ numToString (ofZ (Z.of_nat idx));
                     item_background :=
                       mixToWhite baseColor (level_intensity level);
                     item_label := label level |})
               levels).

(** The legend the component renders, above or below the grid: none when
    [legend.show] is false. *)
Definition CalendarHeatmap_legendView (p : Props) : option (list LegendItem) :=
  let showLegend := default true (legend_show p) in
  let baseColor := default "#3b82f6" (cell_baseColor p) in
  if showLegend then Legend baseColor (CalendarHeatmap_legend p) else None.

(** ** 10c. The displayed month (the state and its two effects) *)

(** The update of the second effect, run when the number of months
    changes: [prev > maxIndex ? maxIndex : prev]. *)
Definition clampActiveMonthIndex (safeLength : nat) (prev : Z) : Z :=
  let maxIndex := Z.of_nat safeLength - 1 in
  if maxIndex <? prev then maxIndex else prev.

(** [safeMonths[activeMonthIndex]] for an integer index. *)
Definition activeMonth (safe : list MonthInfo) (activeMonthIndex : Z)
    : option MonthInfo :=
  if activeMonthIndex <? 0 then None else safe !! Z.to_nat activeMonthIndex.

(** ** 10d. The demo data ([generateDemoData] of the demo application) *)

(** [d.setDate(n)]: the day of the month is replaced, the year and the
    month are kept as they are (no two-digit reading here), and the day
    may overflow into the neighbouring months. *)
Definition setDate (d : Date) (n : number) : Date :=
  match d, toInteger n with
  | ValidDate day, Some k =>
      TimeClip (MakeDay (YearFromDay day) (MonthFromDay day) k)
  | _, _ => InvalidDate
  end.

(** The [for] loop of [generateDemoData]; [random i] is the result of the
    call of [Math.random()] in iteration [i]. *)
Fixpoint demo_loop (fuel : nat) (random : nat -> number) (i : nat)
    (d endDate : Date) : list DayValue :=
  match fuel with
  | O => []
  | S fuel' =>
      if date_leb d endDate then
        {| dv_date := toISO d;
           dv_value :=
             Some (Math_round (double (num_mul (random i) (ofZ 5000)))) |}
        :: demo_loop fuel' random (S i)
             (setDate d (num_add (getDate d) (ofZ 1))) endDate
      else []
  end.

(** [toLocalISO] and [pad] of the demo are the [toISO] and [pad] of the
    component, letter for letter.  The fuel is the number of days from
    [startDate] to [endDate]; the loop stops on its condition before the
    fuel runs out (lemma [demo_loop_run]). *)
Definition generateDemoData (random : nat -> number) (startYM endYM : string)
    : list DayValue :=
  let startParts := map Number_ofString (split_on "-" startYM) in
  let endParts := map Number_ofString (split_on "-" endYM) in
  let startYear := nth 0 startParts NaN in
  let startMonth := nth 1 startParts NaN in
  let endYear := nth 0 endParts NaN in
  let endMonth := nth 1 endParts NaN in
  let startDate := newDate startYear (num_sub startMonth (ofZ 1)) (ofZ 1) in
  let endDate := newDate endYear endMonth (ofZ 0) in
  demo_loop (days_span startDate endDate) random 0 startDate endDate.

(** ** 10e. The month selector *)






(** ** 11. Vocabulary of the specification

    Definitions used to state the properties below; none of them is part
    of the component. *)

(** The day numbers a [Date] can hold. *)
Definition in_range (d : Z) : Prop := Z.abs d <= 100000000.

(** The week day (Sunday is 0) on which a week starts, and the one on
    which it ends. *)
Definition week_first (ws : WeekStart) : Z :=
  match ws with sun => 0 | mon => 1 end.

Definition week_last (ws : WeekStart) : Z :=
  match ws with sun => 6 | mon => 0 end.

(** The [len] consecutive integers from [from] on. *)
Definition day_range (from : Z) (len : nat) : list Z :=
  map (fun i => from + Z.of_nat i) (seq 0 len).

(** The entry of day number [d] in a grid of month [m]: its ISO string,
    tagged by whether its calendar month is [m]. *)
Definition day_entry (m d : Z) : MonthDay :=
  {| iso := toISO (ValidDate d); inMonth := MonthFromDay d =? m |}.

(** Day numbers of the first and of the last day of a month, and of the
    first and of the last day of the weeks that cover it. *)
Definition monthFirst (y m : Z) : Z := MakeDay y m 1.

Definition monthLast (y m : Z) : Z := MakeDay y m 1 + daysInMonth y m - 1.

Definition gridFirst (y m : Z) (ws : WeekStart) : Z :=
  monthFirst y m - (WeekDay (monthFirst y m) - week_first ws + 7) mod 7.

Definition gridLast (y m : Z) (ws : WeekStart) : Z :=
  monthLast y m + (week_last ws - WeekDay (monthLast y m) + 7) mod 7.

(** The string [toISO] prints for day [k] of month [m] (0-based) of year
    [y]: the year as the number it is, the month and the day through
    [pad]. *)
Definition isoDate (y m k : Z) : string :=
  string_of_Z y +:+ "-" +:+ pad (ofZ (m + 1)) +:+ "-" +:+ pad (ofZ k).

(** The date [YYYY-MM-DD] of the specification for day [k] of month [m]
    (0-based) of year [y]: the year in four decimal digits, the month
    (1-based) and the day in two, whatever the code prints. *)
Definition digit_char (n : Z) : ascii :=
  ascii_of_nat (48 + Z.to_nat (n mod 10)).

Definition two_digits (n : Z) : string :=
  String (digit_char (n / 10)) (String (digit_char n) "").

Definition four_digits (n : Z) : string :=
  String (digit_char (n / 1000)) (String (digit_char (n / 100)) (two_digits n)).

Definition iso8601 (y m k : Z) : string :=
  four_digits y +:+ "-" +:+ two_digits (m + 1) +:+ "-" +:+ two_digits k.

(** What a month grid must be, for the month [m] (0-based) of year [y]
    and a week starting on [ws]: whole weeks of consecutive days, from a
    day that falls on the first day of the week to one that falls on the
    day before it, with every day of the month tagged [inMonth] and the
    other days, all of a neighbouring month, not tagged. *)
Definition MonthGrid_invariant (y m : Z) (ws : WeekStart)
    (grid : list MonthDay) : Prop :=
  exists first : Z,
    grid = map (day_entry m) (day_range first (length grid))
    /\ (length grid mod 7 = 0)%nat
    /\ WeekDay first = week_first ws
    /\ WeekDay (first + Z.of_nat (length grid) - 1) = (week_first ws + 6) mod 7
    /\ (forall k, 1 <= k <= daysInMonth y m ->
          In {| iso := iso8601 y m k; inMonth := true |} grid)
    /\ (forall e, In e grid -> inMonth e = true ->
          exists k, 1 <= k <= daysInMonth y m /\ iso e = iso8601 y m k)
    /\ (forall e, In e grid -> inMonth e = false ->
          exists y' m' k,
            (12 * y' + m' = 12 * y + m - 1 \/ 12 * y' + m' = 12 * y + m + 1)
            /\ 0 <= m' <= 11 /\ 1 <= k <= daysInMonth y' m'
            /\ iso e = iso8601 y' m' k).

(** Months are counted by [12 * year + month]. *)
Definition monthIndex (d : Z) : Z := 12 * YearFromDay d + MonthFromDay d.

(** The grid of the month of index [i]. *)
Definition month_info (ws : WeekStart) (i : Z) : MonthInfo :=
  {| year := ofZ (i / 12);
     month := ofZ (i mod 12);
     days := buildMonthDays (ofZ (i / 12)) (ofZ (i mod 12)) ws |}.

(** The end month [buildMonths] uses: the one given, or the month of the
    clock when none is given. *)
Definition resolved_end (now : Date) (endYM : option string) : Date :=
  if truthy_string endYM then parseYM (default "" endYM) else now.

(** Whether the character [c] occurs in the string [s]. *)
Fixpoint occurs (c : ascii) (s : string) : bool :=
  match s with
  | EmptyString => false
  | String x rest => Ascii.eqb x c || occurs c rest
  end.

(** The finite binary64 numbers are the rationals that their rounding
    keeps.  Every finite number a program holds is one of them. *)
Definition binary64 (q : Q) : Prop := round64 q = Fin (Qred q).

(** The scale a list of numbers gives: the intensity function written
    with the two bounds [a <= b] it closes over. *)
Definition scale_of_bounds (a b : Q) (v : option number) : number :=
  match v with
  | None => ofZ 0
  | Some v =>
      let range := round64 (Qred (b - a)) in
      if num_eqb range (ofZ 0) then ofZ 1
      else clamp01 (double (num_div (double (num_sub v (Fin a))) range))
  end.

(** The finite values of a list are close enough for their differences
    to be binary64 numbers: none overflows. *)
Definition range_fits (values : list number) : Prop :=
  forall p q, In (Fin p) values -> In (Fin q) values ->
              (q - p < overflow64)%Q.

(** The values of the characters of [s] when all are hexadecimal
    digits. *)
Fixpoint hex_digits (s : string) : option (list Z) :=
  match s with
  | EmptyString => Some []
  | String c rest =>
      match hex_value c, hex_digits rest with
      | Some v, Some vs => Some (v :: vs)
      | _, _ => None
      end
  end.

(** The three channels written by three digits, each one doubled, or by
    six digits. *)
Definition hex_channels (digits : list Z) : option (Z * Z * Z) :=
  match digits with
  | [a; b; c] => Some (16 * a + a, 16 * b + b, 16 * c + c)
  | [a; b; c; d; e; f] => Some (16 * a + b, 16 * c + d, 16 * e + f)
  | _ => None
  end.

(** A base color as the specification describes it: an optional ["#"],
    then three or six hexadecimal digits; [None] for any other string. *)
Definition color_channels (hex : string) : option (Z * Z * Z) :=
  let body :=
    match hex with
    | String c rest => if Ascii.eqb c "#" then rest else hex
    | EmptyString => hex
    end in
  match hex_digits body with
  | Some digits => hex_channels digits
  | None => None
  end.

(** The text [rgb(r, g, b)]. *)
Definition rgb_string (r g b : Z) : string :=
  "rgb(" +:+ string_of_Z r +:+ ", " +:+ string_of_Z g +:+ ", "
  +:+ string_of_Z b +:+ ")".

(** [n] is the integer nearest to [x], the upper one in a tie. *)
Definition nearest_integer (n : Z) (x : Q) : Prop :=
  (inject_Z n - (1 # 2) <= x < inject_Z n + (1 # 2))%Q.

(** One channel of the mix of the base channel [c] with white at
    intensity [t], as the specification writes it, in exact arithmetic. *)
Definition mix_exact (c : Z) (t : Q) : Q :=
  (inject_Z c + (255 - inject_Z c) * (1 - t))%Q.

(** What the three roundings of the binary64 evaluation of that formula
    can add up to, for an intensity from 0 to 1: 2^-44. *)
Definition mix_fuzz : Q := 1 # 17592186044416.

(** [n] is a channel the mixer may print for the base channel [c] at
    intensity [t]: an integer from [c] to 255, within [1/2 + mix_fuzz] of
    the exact value, and the nearest integer to it whenever the exact
    value is farther than [mix_fuzz] from every half-integer. *)
Definition mixed_channel (c : Z) (t : Q) (n : Z) : Prop :=
  c <= n <= 255
  /\ (inject_Z n - mix_exact c t <= (1 # 2) + mix_fuzz)%Q
  /\ (mix_exact c t - inject_Z n <= (1 # 2) + mix_fuzz)%Q
  /\ ((forall k : Z,
         (mix_exact c t + mix_fuzz < inject_Z k + (1 # 2))%Q
         \/ (inject_Z k + (1 # 2) + mix_fuzz < mix_exact c t)%Q) ->
      nearest_integer n (mix_exact c t)).

(** The value of an entry of the input as the specification normalizes
    it: a finite number is kept; no value, NaN and the infinities are
    absent. *)
Definition normalized (v : option number) : option number :=
  match v with
  | Some (Fin q) => Some (Fin q)
  | _ => None
  end.

(** The number a decimal numeral [u] stands for when it continues the
    digits already read as [acc]. *)
Definition uint_value (u : Decimal.uint) (acc : Z) : Z :=
  match acc with
  | Z.pos p => Z.pos (Pos.of_uint_acc u p)
  | _ => Z.of_N (Pos.of_uint u)
  end.

(** The string [YYYY-MM] of the month [m] (0-based) of the year [y]. *)
Definition monthString (y m : Z) : string :=
  string_of_Z y +:+ "-" +:+ pad (ofZ (m + 1)).

(** * Properties *)

Ltac divmod := Z.div_mod_to_equations; lia.

Ltac month_cases m :=
  assert (m = 0 \/ m = 1 \/ m = 2 \/ m = 3 \/ m = 4 \/ m = 5 \/ m = 6
          \/ m = 7 \/ m = 8 \/ m = 9 \/ m = 10 \/ m = 11) as Hcases by lia;
  repeat (destruct Hcases as [Hcases | Hcases]); subst m.

(** Evaluates the month table at closed arguments, in the goal and in the
    hypotheses. *)
Ltac table :=
  repeat match goal with
    | |- context [monthStart ?l ?m] =>
        let v := eval vm_compute in (monthStart l m) in
        match v with Z0 => idtac | Zpos _ => idtac end;
        change (monthStart l m) with v
    | H : context [monthStart ?l ?m] |- _ =>
        let v := eval vm_compute in (monthStart l m) in
        match v with Z0 => idtac | Zpos _ => idtac end;
        change (monthStart l m) with v in H
    end.

Ltac split_ltb :=
  repeat match goal with
    | |- context [if ?a <? ?b then _ else _] => destruct (Z.ltb_spec a b)
    end.

(** ** The calendar *)

Lemma InLeapYear_true_iff y :
  InLeapYear y = true <-> y mod 4 = 0 /\ (y mod 100 <> 0 \/ y mod 400 = 0).
Proof.
  unfold InLeapYear.
  rewrite andb_true_iff, orb_true_iff, negb_true_iff, !Z.eqb_eq, Z.eqb_neq.
  tauto.
Qed.

Lemma DayFromYear_succ y : DayFromYear (y + 1) = DayFromYear y + DaysInYear y.
Proof.
  unfold DaysInYear.
  destruct (InLeapYear y) eqn:L.
  - apply InLeapYear_true_iff in L. unfold DayFromYear. divmod.
  - assert (H : ~ (y mod 4 = 0 /\ (y mod 100 <> 0 \/ y mod 400 = 0))).
    { rewrite <- InLeapYear_true_iff, L. discriminate. }
    unfold DayFromYear. divmod.
Qed.

Lemma DaysInYear_pos y : 365 <= DaysInYear y <= 366.
Proof. unfold DaysInYear. destruct (InLeapYear y); lia. Qed.

Lemma DayFromYear_lt y1 y2 : y1 < y2 -> DayFromYear y1 < DayFromYear y2.
Proof. unfold DayFromYear. intros. divmod. Qed.

Lemma DayFromYear_le y1 y2 : y1 <= y2 -> DayFromYear y1 <= DayFromYear y2.
Proof. unfold DayFromYear. intros. divmod. Qed.

Lemma YearFromDay_spec d :
  DayFromYear (YearFromDay d) <= d < DayFromYear (YearFromDay d + 1).
Proof.
  unfold YearFromDay.
  set (c := 1970 + 400 * d / 146097).
  assert (Hlo : DayFromYear (c - 1) <= d).
  { subst c. unfold DayFromYear. divmod. }
  assert (Hhi : d < DayFromYear (c + 2)).
  { subst c. unfold DayFromYear. divmod. }
  destruct (Z.ltb_spec d (DayFromYear c)).
  - replace (c - 1 + 1) with c by lia. lia.
  - destruct (Z.leb_spec (DayFromYear (c + 1)) d).
    + replace (c + 1 + 1) with (c + 2) by lia. lia.
    + lia.
Qed.

Lemma YearFromDay_unique y d :
  DayFromYear y <= d < DayFromYear (y + 1) -> YearFromDay d = y.
Proof.
  intros H. pose proof (YearFromDay_spec d) as S.
  destruct (Z.lt_trichotomy (YearFromDay d) y) as [L | [E | G]]; [| exact E |].
  - pose proof (DayFromYear_le (YearFromDay d + 1) y ltac:(lia)). lia.
  - pose proof (DayFromYear_le (y + 1) (YearFromDay d) ltac:(lia)). lia.
Qed.

Lemma DayWithinYear_bounds d :
  0 <= DayWithinYear d < DaysInYear (YearFromDay d).
Proof.
  unfold DayWithinYear. pose proof (YearFromDay_spec d) as S.
  rewrite DayFromYear_succ in S. lia.
Qed.

Lemma MonthFromDay_range d : 0 <= MonthFromDay d <= 11.
Proof.
  unfold MonthFromDay.
  repeat match goal with |- context [if ?b then _ else _] => destruct b end; lia.
Qed.

Lemma MonthFromDay_bounds d :
  let leap := InLeapYear (YearFromDay d) in
  monthStart leap (MonthFromDay d) <= DayWithinYear d
  < monthStart leap (MonthFromDay d + 1).
Proof.
  pose proof (DayWithinYear_bounds d) as B. unfold DaysInYear in B.
  unfold MonthFromDay. cbv zeta.
  generalize dependent (DayWithinYear d). intros w B.
  destruct (InLeapYear (YearFromDay d)); table; split_ltb; table; lia.
Qed.

Lemma DateFromDay_range d :
  1 <= DateFromDay d <= daysInMonth (YearFromDay d) (MonthFromDay d).
Proof.
  pose proof (MonthFromDay_bounds d) as B. cbv zeta in B.
  unfold DateFromDay, daysInMonth. lia.
Qed.

Lemma daysInMonth_range y m : 0 <= m <= 11 -> 28 <= daysInMonth y m <= 31.
Proof.
  intros H. unfold daysInMonth. month_cases m; destruct (InLeapYear y); table; lia.
Qed.

(** Day number to calendar fields and back. *)
Lemma MakeDay_fields d n :
  MakeDay (YearFromDay d) (MonthFromDay d) (DateFromDay d + n) = d + n.
Proof.
  pose proof (MonthFromDay_range d) as R.
  unfold MakeDay.
  rewrite Z.div_small, Z.mod_small, Z.add_0_r by lia.
  unfold DateFromDay, DayWithinYear. lia.
Qed.

Lemma MakeDay_in_year y m k :
  0 <= m <= 11 -> 1 <= k <= daysInMonth y m ->
  MakeDay y m k = DayFromYear y + monthStart (InLeapYear y) m + k - 1
  /\ DayFromYear y <= MakeDay y m k < DayFromYear (y + 1).
Proof.
  intros Hm Hk. unfold MakeDay.
  rewrite Z.div_small, Z.mod_small, Z.add_0_r by lia.
  split; [reflexivity |].
  rewrite DayFromYear_succ. unfold DaysInYear, daysInMonth in *.
  month_cases m; destruct (InLeapYear y); table; lia.
Qed.

(** Calendar fields to day number and back. *)
Lemma fields_MakeDay y m k :
  0 <= m <= 11 -> 1 <= k <= daysInMonth y m ->
  YearFromDay (MakeDay y m k) = y
  /\ MonthFromDay (MakeDay y m k) = m
  /\ DateFromDay (MakeDay y m k) = k.
Proof.
  intros Hm Hk.
  destruct (MakeDay_in_year y m k Hm Hk) as [E B].
  assert (HY : YearFromDay (MakeDay y m k) = y) by (apply YearFromDay_unique; exact B).
  assert (HW : DayWithinYear (MakeDay y m k) = monthStart (InLeapYear y) m + k - 1).
  { unfold DayWithinYear. rewrite HY. lia. }
  assert (HM : MonthFromDay (MakeDay y m k) = m).
  { unfold MonthFromDay. rewrite HW, HY. unfold daysInMonth in Hk.
    month_cases m; destruct (InLeapYear y); table; split_ltb; lia. }
  split; [exact HY |]. split; [exact HM |].
  unfold DateFromDay. rewrite HW, HY, HM. lia.
Qed.

Lemma MakeDay_next_month y m :
  0 <= m <= 11 -> MakeDay y (m + 1) 1 = MakeDay y m 1 + daysInMonth y m.
Proof.
  intros Hm. unfold MakeDay, daysInMonth.
  destruct (Z.eq_dec m 11) as [-> | Hne].
  - change ((11 + 1) / 12) with 1. change ((11 + 1) mod 12) with 0.
    change (11 / 12) with 0. change (11 mod 12) with 11.
    rewrite !Z.add_0_r, DayFromYear_succ. unfold DaysInYear.
    destruct (InLeapYear y), (InLeapYear (y + 1)); table; lia.
  - rewrite !Z.div_small, !Z.mod_small, !Z.add_0_r by lia. lia.
Qed.

Lemma MakeDay_date y m k n : MakeDay y m (k + n) = MakeDay y m k + n.
Proof. unfold MakeDay. lia. Qed.

Lemma WeekDay_range d : 0 <= WeekDay d <= 6.
Proof. unfold WeekDay. divmod. Qed.

(** ** Integers as numbers *)

Lemma Qred_inject_Z z : Qred (inject_Z z) = inject_Z z.
Proof.
  unfold Qred, inject_Z.
  pose proof (Z.ggcd_gcd z 1) as G.
  pose proof (Z.ggcd_correct_divisors z 1) as D.
  destruct (Z.ggcd z 1) as [g [a b]]. cbn [fst snd] in *.
  rewrite Z.gcd_1_r in G. subst g. destruct D as [Da Db].
  rewrite Z.mul_1_l in Da, Db. subst a b. reflexivity.
Qed.

Lemma Qtrunc_inject_Z z : Qtrunc (inject_Z z) = z.
Proof.
  unfold Qtrunc. destruct (Qle_bool 0 (inject_Z z)).
  - apply Qfloor_Z.
  - apply Qceiling_Z.
Qed.

Lemma toInteger_ofZ z : toInteger (ofZ z) = Some z.
Proof. unfold toInteger, ofZ. now rewrite Qtrunc_inject_Z. Qed.

Lemma num_add_ofZ a b : num_add (ofZ a) (ofZ b) = ofZ (a + b).
Proof.
  unfold num_add, ofZ. f_equal.
  rewrite <- (Qred_inject_Z (a + b)). apply Qred_complete.
  now rewrite inject_Z_plus.
Qed.

Lemma num_sub_ofZ a b : num_sub (ofZ a) (ofZ b) = ofZ (a - b).
Proof.
  unfold num_sub, ofZ. f_equal.
  rewrite <- (Qred_inject_Z (a - b)). apply Qred_complete.
  unfold Z.sub, Qminus. now rewrite inject_Z_plus, inject_Z_opp.
Qed.

Lemma num_opp_ofZ a : num_opp (ofZ a) = ofZ (- a).
Proof.
  unfold num_opp, ofZ. f_equal.
  rewrite <- (Qred_inject_Z (- a)). apply Qred_complete.
  now rewrite inject_Z_opp.
Qed.

Lemma Qle_bool_inject_Z a b : Qle_bool (inject_Z a) (inject_Z b) = (a <=? b).
Proof.
  apply eq_true_iff_eq. rewrite Qle_bool_iff, Z.leb_le, <- Zle_Qle. reflexivity.
Qed.

Lemma Qeq_bool_inject_Z a b : Qeq_bool (inject_Z a) (inject_Z b) = (a =? b).
Proof.
  apply eq_true_iff_eq.
  rewrite Qeq_bool_iff, Z.eqb_eq. apply inject_Z_injective.
Qed.

Lemma num_eqb_ofZ a b : num_eqb (ofZ a) (ofZ b) = (a =? b).
Proof. apply Qeq_bool_inject_Z. Qed.

Lemma num_leb_ofZ a b : num_leb (ofZ a) (ofZ b) = (a <=? b).
Proof. apply Qle_bool_inject_Z. Qed.

Lemma num_ltb_ofZ a b : num_ltb (ofZ a) (ofZ b) = (a <? b).
Proof.
  unfold num_ltb, ofZ. rewrite Qle_bool_inject_Z.
  rewrite Z.ltb_antisym. reflexivity.
Qed.

Lemma num_rem_ofZ a b :
  0 <= a -> 0 < b -> num_rem (ofZ a) (ofZ b) = ofZ (a mod b).
Proof.
  intros Ha Hb. unfold num_rem, ofZ.
  change 0%Q with (inject_Z 0). rewrite Qeq_bool_inject_Z.
  destruct (Z.eqb_spec b 0) as [E | _]; [lia |].
  f_equal.
  assert (T : Qtrunc (inject_Z a / inject_Z b) = a / b).
  { unfold Qtrunc.
    assert (P : (0 <= inject_Z a / inject_Z b)%Q).
    { apply Qle_shift_div_l.
      - change 0%Q with (inject_Z 0). rewrite <- Zlt_Qlt. exact Hb.
      - rewrite Qmult_0_l. change 0%Q with (inject_Z 0).
        rewrite <- Zle_Qle. exact Ha. }
    apply Qle_bool_iff in P. rewrite P. symmetry. apply Zdiv_Qdiv. }
  rewrite T, <- (Qred_inject_Z (a mod b)). apply Qred_complete.
  rewrite Z.mod_eq by lia.
  unfold Z.sub, Qminus.
  now rewrite inject_Z_plus, inject_Z_opp, inject_Z_mult.
Qed.

Lemma numToString_ofZ z : numToString (ofZ z) = string_of_Z z.
Proof. unfold numToString, ofZ. now rewrite Qfloor_Z. Qed.

(** ** Dates *)

Lemma TimeClip_in_range d : in_range d -> TimeClip d = ValidDate d.
Proof.
  unfold in_range, TimeClip. intros H.
  destruct (Z.leb_spec (Z.abs d) 100000000); [reflexivity | lia].
Qed.

Lemma newDate_ofZ y m k :
  newDate (ofZ y) (ofZ m) (ofZ k) = TimeClip (MakeDay (MakeFullYear y) m k).
Proof. unfold newDate. now rewrite !toInteger_ofZ. Qed.

Lemma MakeFullYear_id y : ~ 0 <= y <= 99 -> MakeFullYear y = y.
Proof.
  unfold MakeFullYear. intros H.
  destruct (Z.leb_spec 0 y), (Z.leb_spec y 99); cbn; lia.
Qed.

Lemma MakeFullYear_ge y : y <= MakeFullYear y.
Proof.
  unfold MakeFullYear. destruct ((0 <=? y) && (y <=? 99)); lia.
Qed.

Lemma addDays_valid d n :
  ~ 0 <= YearFromDay d <= 99 ->
  addDays (ValidDate d) (ofZ n) = TimeClip (d + n).
Proof.
  intros H. unfold addDays, getFullYear, getMonth, getDate.
  rewrite num_add_ofZ, newDate_ofZ, MakeFullYear_id by exact H.
  now rewrite MakeDay_fields.
Qed.

Lemma startOfWeek_valid d ws :
  ~ 0 <= YearFromDay d <= 99 ->
  startOfWeek (ValidDate d) ws
  = TimeClip (d - (WeekDay d - week_first ws + 7) mod 7).
Proof.
  intros H. unfold startOfWeek. cbn [getDay].
  pose proof (WeekDay_range d) as R.
  replace (match ws with sun => ofZ 0 | mon => ofZ 1 end)
    with (ofZ (week_first ws)) by now destruct ws.
  rewrite num_sub_ofZ, num_add_ofZ, num_rem_ofZ, num_opp_ofZ
    by (destruct ws; cbn; lia).
  rewrite addDays_valid by exact H. reflexivity.
Qed.

Lemma endOfWeek_valid d ws :
  ~ 0 <= YearFromDay d <= 99 ->
  endOfWeek (ValidDate d) ws
  = TimeClip (d + (week_last ws - WeekDay d + 7) mod 7).
Proof.
  intros H. unfold endOfWeek. cbn [getDay].
  pose proof (WeekDay_range d) as R.
  replace (match ws with sun => ofZ 6 | mon => ofZ 0 end)
    with (ofZ (week_last ws)) by now destruct ws.
  rewrite num_sub_ofZ, num_add_ofZ, num_rem_ofZ
    by (destruct ws; cbn; lia).
  now rewrite addDays_valid by exact H.
Qed.

Lemma endOfMonth_valid y m :
  ~ 0 <= y <= 99 -> 0 <= m <= 11 ->
  endOfMonth (ValidDate (MakeDay y m 1))
  = TimeClip (MakeDay y m 1 + daysInMonth y m - 1).
Proof.
  intros Hy Hm. unfold endOfMonth, getFullYear, getMonth.
  pose proof (daysInMonth_range y m Hm) as R.
  destruct (fields_MakeDay y m 1 Hm ltac:(lia)) as (-> & -> & _).
  rewrite num_add_ofZ, newDate_ofZ, MakeFullYear_id by exact Hy.
  f_equal.
  replace 0 with (1 + -1) at 1 by lia.
  rewrite MakeDay_date, MakeDay_next_month by exact Hm. lia.
Qed.

(** ** The month grid *)

Lemma day_range_S from len :
  day_range from (S len) = from :: day_range (from + 1) len.
Proof.
  unfold day_range. cbn [seq map]. f_equal.
  - lia.
  - rewrite <- seq_shift, map_map. apply map_ext. intros i. lia.
Qed.

Lemma length_day_range from len : length (day_range from len) = len.
Proof. unfold day_range. now rewrite length_map, length_seq. Qed.

Lemma in_day_range from len d :
  In d (day_range from len) <-> from <= d < from + Z.of_nat len.
Proof.
  unfold day_range. rewrite in_map_iff. split.
  - intros (i & <- & Hi). apply in_seq in Hi. lia.
  - intros H. exists (Z.to_nat (d - from)). split; [lia |].
    apply in_seq. lia.
Qed.

Lemma YearFromDay_ge y d : DayFromYear y <= d -> y <= YearFromDay d.
Proof.
  intros H. pose proof (YearFromDay_spec d) as S.
  destruct (Z.le_gt_cases y (YearFromDay d)) as [L | G]; [exact L |].
  pose proof (DayFromYear_le (YearFromDay d + 1) y ltac:(lia)). lia.
Qed.

Lemma YearFromDay_lt y d : d < DayFromYear y -> YearFromDay d < y.
Proof.
  intros H. pose proof (YearFromDay_spec d) as S.
  destruct (Z.lt_ge_cases (YearFromDay d) y) as [L | G]; [exact L |].
  pose proof (DayFromYear_le y (YearFromDay d) ltac:(lia)). lia.
Qed.

Lemma DayFromYear_100 : DayFromYear 100 = -683003.
Proof. vm_compute. reflexivity. Qed.

Lemma DayFromYear_101 : DayFromYear 101 = -682638.
Proof. vm_compute. reflexivity. Qed.

Lemma DayFromYear_275760 : DayFromYear 275760 = 99999744.
Proof. vm_compute. reflexivity. Qed.

(** The loop lists the days from [d] to [gridEnd]; fuel beyond the number
    of these days is not used. *)
Lemma monthDays_loop_run k : forall d ge m extra,
  DayFromYear 100 <= d -> ge < 100000000 ->
  ge - d + 1 = Z.of_nat k ->
  monthDays_loop (k + extra) (ValidDate d) (ValidDate ge) (ofZ m)
  = map (day_entry m) (day_range d k).
Proof.
  induction k as [| k IH]; intros d ge m extra Hd Hge Hk.
  - cbn [Nat.add day_range seq map]. destruct extra as [| extra]; [reflexivity |].
    cbn [monthDays_loop date_leb].
    destruct (Z.leb_spec d ge); [lia | reflexivity].
  - cbn [Nat.add monthDays_loop date_leb].
    destruct (Z.leb_spec d ge); [| lia].
    rewrite day_range_S. cbn [map]. f_equal.
    + unfold day_entry. cbn [getMonth]. now rewrite num_eqb_ofZ.
    + rewrite addDays_valid.
      * rewrite TimeClip_in_range.
        -- apply IH; lia.
        -- rewrite DayFromYear_100 in Hd. unfold in_range. lia.
      * pose proof (YearFromDay_ge 100 d Hd). lia.
Qed.

Lemma month_days_bounds y m :
  100 < y < 275760 -> 0 <= m <= 11 ->
  -682638 <= monthFirst y m /\ monthLast y m < 99999744
  /\ DayFromYear y <= monthFirst y m /\ monthLast y m < DayFromYear (y + 1)
  /\ monthLast y m = MakeDay y m (daysInMonth y m).
Proof.
  intros Hy Hm. unfold monthFirst, monthLast.
  pose proof (daysInMonth_range y m Hm) as R.
  destruct (MakeDay_in_year y m 1 Hm ltac:(lia)) as [_ B1].
  destruct (MakeDay_in_year y m (daysInMonth y m) Hm ltac:(lia)) as [_ B2].
  assert (E : MakeDay y m (daysInMonth y m) = MakeDay y m 1 + daysInMonth y m - 1).
  { replace (daysInMonth y m) with (1 + (daysInMonth y m - 1)) at 1 by lia.
    rewrite MakeDay_date. lia. }
  pose proof (DayFromYear_le 101 y ltac:(lia)) as L1.
  pose proof (DayFromYear_le (y + 1) 275760 ltac:(lia)) as L2.
  rewrite DayFromYear_101 in L1. rewrite DayFromYear_275760 in L2.
  lia.
Qed.

Lemma year_of_month_days y m d :
  100 < y < 275760 -> 0 <= m <= 11 ->
  monthFirst y m <= d <= monthLast y m -> YearFromDay d = y.
Proof.
  intros Hy Hm Hd.
  destruct (month_days_bounds y m Hy Hm) as (_ & _ & B1 & B2 & _).
  apply YearFromDay_unique. lia.
Qed.

Lemma buildMonthDays_run y m ws :
  100 < y < 275760 -> 0 <= m <= 11 ->
  buildMonthDays (ofZ y) (ofZ m) ws
  = map (day_entry m)
        (day_range (gridFirst y m ws)
           (Z.to_nat (gridLast y m ws - gridFirst y m ws + 1))).
Proof.
  intros Hy Hm.
  destruct (month_days_bounds y m Hy Hm) as (B1 & B2 & B3 & B4 & E).
  pose proof (daysInMonth_range y m Hm) as R.
  assert (Fl : monthLast y m = monthFirst y m + daysInMonth y m - 1)
    by reflexivity.
  assert (Yf : YearFromDay (monthFirst y m) = y)
    by (apply (year_of_month_days y m); lia).
  assert (Yl : YearFromDay (monthLast y m) = y)
    by (apply (year_of_month_days y m); lia).
  assert (Gf : monthFirst y m - 6 <= gridFirst y m ws <= monthFirst y m)
    by (unfold gridFirst; divmod).
  assert (Gl : monthLast y m <= gridLast y m ws <= monthLast y m + 6)
    by (unfold gridLast; divmod).
  assert (N : newDate (ofZ y) (ofZ m) (ofZ 1) = ValidDate (monthFirst y m)).
  { rewrite newDate_ofZ, MakeFullYear_id by lia.
    apply TimeClip_in_range. unfold in_range. fold (monthFirst y m). lia. }
  assert (EM : endOfMonth (ValidDate (monthFirst y m)) = ValidDate (monthLast y m)).
  { unfold monthFirst. rewrite endOfMonth_valid by lia.
    apply TimeClip_in_range. unfold in_range. fold (monthLast y m). lia. }
  assert (SW : startOfWeek (ValidDate (monthFirst y m)) ws
               = ValidDate (gridFirst y m ws)).
  { rewrite startOfWeek_valid by lia.
    apply TimeClip_in_range. unfold in_range. fold (gridFirst y m ws). lia. }
  assert (EW : endOfWeek (ValidDate (monthLast y m)) ws
               = ValidDate (gridLast y m ws)).
  { rewrite endOfWeek_valid by lia.
    apply TimeClip_in_range. unfold in_range. fold (gridLast y m ws). lia. }
  unfold buildMonthDays. cbv zeta. rewrite N, EM, SW, EW.
  cbn [days_span].
  rewrite <- (Nat.add_0_r (Z.to_nat (gridLast y m ws - gridFirst y m ws + 1))) at 1.
  apply monthDays_loop_run.
  - rewrite DayFromYear_100. lia.
  - lia.
  - lia.
Qed.

Lemma toISO_valid d :
  toISO (ValidDate d) = isoDate (YearFromDay d) (MonthFromDay d) (DateFromDay d).
Proof.
  unfold toISO, isoDate, getFullYear, getMonth, getDate.
  now rewrite numToString_ofZ, num_add_ofZ.
Qed.

Lemma toISO_MakeDay y m k :
  0 <= m <= 11 -> 1 <= k <= daysInMonth y m ->
  toISO (ValidDate (MakeDay y m k)) = isoDate y m k.
Proof.
  intros Hm Hk. rewrite toISO_valid.
  now destruct (fields_MakeDay y m k Hm Hk) as (-> & -> & ->).
Qed.

Lemma MakeDay_month_12 y k : MakeDay y 12 k = MakeDay (y + 1) 0 k.
Proof.
  unfold MakeDay.
  change (12 / 12) with 1. change (12 mod 12) with 0.
  change (0 / 12) with 0. change (0 mod 12) with 0.
  replace (y + 1 + 0) with (y + 1) by lia. reflexivity.
Qed.

(** The days within six days of a month belong to it or to one of its two
    neighbours. *)
Lemma near_month_days y m d :
  0 <= m <= 11 ->
  monthFirst y m - 6 <= d <= monthLast y m + 6 ->
  (monthFirst y m <= d <= monthLast y m
   /\ YearFromDay d = y /\ MonthFromDay d = m
   /\ DateFromDay d = d - monthFirst y m + 1)
  \/ (d < monthFirst y m
      /\ 12 * YearFromDay d + MonthFromDay d = 12 * y + m - 1)
  \/ (monthLast y m < d
      /\ 12 * YearFromDay d + MonthFromDay d = 12 * y + m + 1).
Proof.
  intros Hm Hd. unfold monthFirst, monthLast in *.
  pose proof (daysInMonth_range y m Hm) as R.
  destruct (Z.lt_ge_cases d (MakeDay y m 1)) as [Lo | Ge];
    [right; left | destruct (Z.lt_ge_cases (MakeDay y m 1 + daysInMonth y m - 1) d)
                     as [Hi | Le]; [right; right | left]].
  - split; [exact Lo |].
    set (py := if m =? 0 then y - 1 else y).
    set (pm := if m =? 0 then 11 else m - 1).
    assert (Hpm : 0 <= pm <= 11) by (subst pm; destruct (Z.eqb_spec m 0); lia).
    assert (E : MakeDay py pm 1 + daysInMonth py pm = MakeDay y m 1).
    { rewrite <- MakeDay_next_month by exact Hpm. subst py pm.
      destruct (Z.eqb_spec m 0) as [-> | N].
      - change (11 + 1) with 12. rewrite MakeDay_month_12. f_equal. lia.
      - f_equal. lia. }
    pose proof (daysInMonth_range py pm Hpm) as Rp.
    assert (D : d = MakeDay py pm (1 + (d - MakeDay py pm 1)))
      by (rewrite MakeDay_date; lia).
    destruct (fields_MakeDay py pm (1 + (d - MakeDay py pm 1)) Hpm ltac:(lia))
      as (HY & HM & _).
    rewrite <- D in HY, HM. rewrite HY, HM. subst py pm.
    destruct (Z.eqb_spec m 0); lia.
  - split; [exact Hi |].
    set (ny := if m =? 11 then y + 1 else y).
    set (nm := if m =? 11 then 0 else m + 1).
    assert (Hnm : 0 <= nm <= 11) by (subst nm; destruct (Z.eqb_spec m 11); lia).
    assert (E : MakeDay ny nm 1 = MakeDay y m 1 + daysInMonth y m).
    { rewrite <- MakeDay_next_month by exact Hm. subst ny nm.
      destruct (Z.eqb_spec m 11) as [-> | N].
      - change (11 + 1) with 12. now rewrite MakeDay_month_12.
      - reflexivity. }
    pose proof (daysInMonth_range ny nm Hnm) as Rn.
    assert (D : d = MakeDay ny nm (1 + (d - MakeDay ny nm 1)))
      by (rewrite MakeDay_date; lia).
    destruct (fields_MakeDay ny nm (1 + (d - MakeDay ny nm 1)) Hnm ltac:(lia))
      as (HY & HM & _).
    rewrite <- D in HY, HM. rewrite HY, HM. subst ny nm.
    destruct (Z.eqb_spec m 11); lia.
  - split; [lia |].
    assert (D : d = MakeDay y m (1 + (d - MakeDay y m 1)))
      by (rewrite MakeDay_date; lia).
    destruct (fields_MakeDay y m (1 + (d - MakeDay y m 1)) Hm ltac:(lia))
      as (HY & HM & HD).
    rewrite <- D in HY, HM, HD. repeat split; [exact HY | exact HM | lia].
Qed.

Lemma grid_bounds y m ws :
  monthFirst y m - 6 <= gridFirst y m ws <= monthFirst y m
  /\ monthLast y m <= gridLast y m ws <= monthLast y m + 6.
Proof. unfold gridFirst, gridLast. split; divmod. Qed.

(** The entries of a grid are those of the days from [gridFirst] to
    [gridLast]. *)
Lemma in_buildMonthDays y m ws e :
  100 < y < 275760 -> 0 <= m <= 11 ->
  In e (buildMonthDays (ofZ y) (ofZ m) ws)
  <-> exists d, e = day_entry m d /\ gridFirst y m ws <= d <= gridLast y m ws.
Proof.
  intros Hy Hm. rewrite buildMonthDays_run by assumption.
  destruct (grid_bounds y m ws) as [Gf Gl].
  pose proof (daysInMonth_range y m Hm) as R.
  assert (Fl : monthLast y m = monthFirst y m + daysInMonth y m - 1)
    by reflexivity.
  rewrite in_map_iff. split.
  - intros (d & <- & Hd). apply in_day_range in Hd.
    exists d. split; [reflexivity | lia].
  - intros (d & -> & Hd). exists d. split; [reflexivity |].
    apply in_day_range. lia.
Qed.

Lemma month_day_in_grid y m ws k :
  100 < y < 275760 -> 0 <= m <= 11 -> 1 <= k <= daysInMonth y m ->
  In {| iso := isoDate y m k; inMonth := true |}
     (buildMonthDays (ofZ y) (ofZ m) ws).
Proof.
  intros Hy Hm Hk. apply (proj2 (in_buildMonthDays y m ws _ Hy Hm)).
  destruct (grid_bounds y m ws) as [Gf Gl].
  exists (MakeDay y m k). split.
  - unfold day_entry. rewrite toISO_MakeDay by assumption.
    destruct (fields_MakeDay y m k Hm Hk) as (_ & -> & _).
    now rewrite Z.eqb_refl.
  - assert (MakeDay y m k = monthFirst y m + (k - 1)).
    { unfold monthFirst. rewrite <- MakeDay_date. f_equal. lia. }
    unfold monthLast, monthFirst in *. lia.
Qed.

Lemma tagged_entry_in_month y m ws e :
  100 < y < 275760 -> 0 <= m <= 11 ->
  In e (buildMonthDays (ofZ y) (ofZ m) ws) -> inMonth e = true ->
  exists k, 1 <= k <= daysInMonth y m /\ iso e = isoDate y m k.
Proof.
  intros Hy Hm He Ht.
  destruct (proj1 (in_buildMonthDays y m ws e Hy Hm) He) as (d & -> & Hd).
  destruct (grid_bounds y m ws) as [Gf Gl].
  cbn [inMonth day_entry] in Ht. apply Z.eqb_eq in Ht.
  pose proof (MonthFromDay_range d) as RM.
  destruct (near_month_days y m d Hm ltac:(lia))
    as [(I & HY & HM & HD) | [(_ & X) | (_ & X)]]; [| lia | lia].
  exists (d - monthFirst y m + 1). split.
  - unfold monthLast, monthFirst in *. lia.
  - cbn [iso day_entry]. rewrite toISO_valid. now rewrite HY, HM, HD.
Qed.

(** For a year of four digits, [toISO] prints the [YYYY-MM-DD] of the
    specification. *)
Lemma four_digit_years :
  forallb (fun i => String.eqb (string_of_Z (1000 + Z.of_nat i))
                               (four_digits (1000 + Z.of_nat i)))
          (seq 0 (Z.to_nat 9000)) = true.
Proof. vm_compute. reflexivity. Qed.

Lemma two_digit_fields :
  forallb (fun i => String.eqb (pad (ofZ (Z.of_nat i))) (two_digits (Z.of_nat i)))
          (seq 0 32) = true.
Proof. vm_compute. reflexivity. Qed.

Lemma string_of_Z_four_digits y :
  1000 <= y <= 9999 -> string_of_Z y = four_digits y.
Proof.
  intros H. pose proof four_digit_years as F.
  rewrite List.forallb_forall in F.
  specialize (F (Z.to_nat (y - 1000))
                ltac:(apply in_seq; lia)).
  apply String.eqb_eq in F.
  now replace (1000 + Z.of_nat (Z.to_nat (y - 1000))) with y in F by lia.
Qed.

Lemma pad_two_digits_string n : 0 <= n <= 31 -> pad (ofZ n) = two_digits n.
Proof.
  intros H. pose proof two_digit_fields as F.
  rewrite List.forallb_forall in F.
  specialize (F (Z.to_nat n) ltac:(apply in_seq; lia)).
  apply String.eqb_eq in F.
  now replace (Z.of_nat (Z.to_nat n)) with n in F by lia.
Qed.

Lemma isoDate_iso8601 y m k :
  1000 <= y <= 9999 -> 0 <= m <= 11 -> 1 <= k <= 31 ->
  isoDate y m k = iso8601 y m k.
Proof.
  intros Hy Hm Hk. unfold isoDate, iso8601.
  rewrite string_of_Z_four_digits by exact Hy.
  now rewrite !pad_two_digits_string by lia.
Qed.

(** C6.  The claim holds in the amended form: for a month after January
    1000 and before December 9999 (so that every day of the grid has a
    year of four digits, the years the [YYYY-MM-DD] of the specification
    can write) and either week start, the grid built by [buildMonthDays]
    is made of whole weeks: its length is a multiple of 7, it lists
    consecutive days starting on the week-start day and ending on the day
    before it, it contains every day of the month, written [YYYY-MM-DD]
    and tagged [inMonth = true], and its other days belong to the
    previous or the next month and are tagged [inMonth = false]. *)
Theorem buildMonthDays_full_weeks (y m : Z) (ws : WeekStart) :
  0 <= m <= 11 -> 12 * 1000 + 0 < 12 * y + m < 12 * 9999 + 11 ->
  MonthGrid_invariant y m ws (buildMonthDays (ofZ y) (ofZ m) ws).
Proof.
  intros Hm Hi.
  assert (Hy : 100 < y < 275760) by lia.
  assert (Hy4 : 1000 <= y <= 9999) by lia.
  destruct (grid_bounds y m ws) as [Gf Gl].
  pose proof (daysInMonth_range y m Hm) as R.
  assert (Fl : monthLast y m = monthFirst y m + daysInMonth y m - 1)
    by reflexivity.
  assert (Wf : WeekDay (gridFirst y m ws) = week_first ws)
    by (unfold gridFirst, WeekDay; destruct ws; cbn [week_first]; divmod).
  assert (Wl : WeekDay (gridLast y m ws) = (week_first ws + 6) mod 7)
    by (unfold gridLast, WeekDay; destruct ws; cbn [week_first week_last];
        divmod).
  set (n := Z.to_nat (gridLast y m ws - gridFirst y m ws + 1)).
  assert (Hn : Z.of_nat n = gridLast y m ws - gridFirst y m ws + 1) by lia.
  assert (Hlen : length (buildMonthDays (ofZ y) (ofZ m) ws) = n).
  { rewrite buildMonthDays_run by assumption.
    now rewrite length_map, length_day_range. }
  exists (gridFirst y m ws). rewrite Hlen.
  split; [now apply buildMonthDays_run |]. split.
  { unfold WeekDay in Wf, Wl.
    assert (Z.of_nat n mod 7 = 0)
      by (rewrite Hn; destruct ws; cbn [week_first] in *; divmod).
    apply Nat2Z.inj. now rewrite Nat2Z.inj_mod. }
  split; [exact Wf |]. split.
  { replace (gridFirst y m ws + Z.of_nat n - 1) with (gridLast y m ws) by lia.
    exact Wl. }
  split; [| split].
  - intros k Hk. rewrite <- isoDate_iso8601 by lia.
    exact (month_day_in_grid y m ws k Hy Hm Hk).
  - intros e He Ht.
    destruct (tagged_entry_in_month y m ws e Hy Hm He Ht) as (k & Hk & E).
    exists k. split; [exact Hk |].
    now rewrite <- isoDate_iso8601 by lia.
  - intros e He Hf.
    destruct (proj1 (in_buildMonthDays y m ws e Hy Hm) He) as (d & -> & Hd).
    cbn [inMonth day_entry] in Hf. apply Z.eqb_neq in Hf.
    exists (YearFromDay d), (MonthFromDay d), (DateFromDay d).
    pose proof (MonthFromDay_range d) as RM.
    pose proof (DateFromDay_range d) as RD.
    pose proof (daysInMonth_range (YearFromDay d) _ RM) as RN.
    assert (N : 12 * YearFromDay d + MonthFromDay d = 12 * y + m - 1
                \/ 12 * YearFromDay d + MonthFromDay d = 12 * y + m + 1).
    { destruct (near_month_days y m d Hm ltac:(lia))
        as [(I & HY & HM & HD) | [(_ & X) | (_ & X)]];
        [contradiction | lia | lia]. }
    split; [exact N |]. split; [exact RM |]. split; [exact RD |].
    cbn [iso day_entry]. rewrite toISO_valid.
    apply isoDate_iso8601; lia.
Qed.

(** A run: February 2025 with weeks starting on Monday. *)
Lemma buildMonthDays_full_weeks_witness :
  MonthGrid_invariant 2025 1 mon (buildMonthDays (ofZ 2025) (ofZ 1) mon).
Proof. apply (buildMonthDays_full_weeks 2025 1 mon); lia. Defined.

(** The claim as stated, for every year, fails.  The grid of January 100
    is a single cell: its second day is built from the year 99, which the
    [Date] constructor reads as 1999.  The grid of January 500 lists the
    first of the month as [500-01-01], not [0500-01-01].  The grids of
    January 1000 and of December 9999 have padding days of the years 999
    and 10000. *)
Lemma buildMonthDays_year_limits :
  buildMonthDays (ofZ 100) (ofZ 0) sun
  = [{| iso := "99-12-27"; inMonth := false |}]
  /\ (length (buildMonthDays (ofZ 100) (ofZ 0) sun) mod 7 = 1)%nat
  /\ iso8601 500 0 1 = "0500-01-01"
  /\ existsb (fun e => String.eqb (iso e) "0500-01-01")
       (buildMonthDays (ofZ 500) (ofZ 0) sun) = false
  /\ existsb (fun e => String.eqb (iso e) "500-01-01" && inMonth e)
       (buildMonthDays (ofZ 500) (ofZ 0) sun) = true
  /\ hd_error (buildMonthDays (ofZ 1000) (ofZ 0) sun)
     = Some {| iso := "999-12-29"; inMonth := false |}
  /\ last (buildMonthDays (ofZ 9999) (ofZ 11) sun)
     = Some {| iso := "10000-01-01"; inMonth := false |}.
Proof. vm_compute. repeat split. Qed.

(** ** ISO strings determine the day *)

Lemma append_nil (t : string) : "" +:+ t = t.
Proof. reflexivity. Qed.

Lemma append_cons (c : ascii) (s t : string) :
  String c s +:+ t = String c (s +:+ t).
Proof. reflexivity. Qed.

Lemma length_append (s t : string) :
  String.length (s +:+ t) = (String.length s + String.length t)%nat.
Proof.
  induction s as [| c s IH]; [reflexivity |].
  rewrite append_cons. cbn [String.length]. now rewrite IH.
Qed.

Lemma append_inj_suffix (s1 s2 t1 t2 : string) :
  String.length t1 = String.length t2 ->
  s1 +:+ t1 = s2 +:+ t2 -> s1 = s2 /\ t1 = t2.
Proof.
  revert s2. induction s1 as [| c s1 IH]; intros [| c' s2] L E;
    rewrite ?append_nil, ?append_cons in E.
  - now split.
  - apply (f_equal String.length) in E. cbn [String.length] in E.
    rewrite length_append in E. lia.
  - apply (f_equal String.length) in E. cbn [String.length] in E.
    rewrite length_append in E. lia.
  - injection E as -> E. destruct (IH s2 L E) as [-> ->]. now split.
Qed.

Lemma string_of_Z_inj a b : string_of_Z a = string_of_Z b -> a = b.
Proof.
  unfold string_of_Z. intros E.
  assert (N : forall z, Z.to_int z <> Decimal.Pos Decimal.Nil
                        /\ Z.to_int z <> Decimal.Neg Decimal.Nil).
  { intros [| p | p]; cbn; split; try discriminate;
      intros [= H]; now apply (DecimalPos.Unsigned.to_uint_nonnil p). }
  apply (f_equal NilZero.int_of_string) in E.
  rewrite !NilZero.isi in E by apply N.
  injection E as E. now apply DecimalZ.to_int_inj.
Qed.

Lemma pad_two_digits n :
  0 <= n <= 31 ->
  String.length (pad (ofZ n)) = 2%nat /\ digits_value 0 (pad (ofZ n)) = Some n.
Proof.
  intros H.
  assert (C : In n (map Z.of_nat (seq 0 32))).
  { apply in_map_iff. exists (Z.to_nat n). split; [lia |]. apply in_seq. lia. }
  assert (A : Forall (fun n => String.length (pad (ofZ n)) = 2%nat
                              /\ digits_value 0 (pad (ofZ n)) = Some n)
                     (map Z.of_nat (seq 0 32)))
    by (cbn [seq map]; repeat (constructor; [vm_compute; now split |]);
        constructor).
  rewrite List.Forall_forall in A. apply A, C.
Qed.

Lemma isoDate_inj y m k y' m' k' :
  0 <= m <= 11 -> 1 <= k <= 31 -> 0 <= m' <= 11 -> 1 <= k' <= 31 ->
  isoDate y m k = isoDate y' m' k' -> y = y' /\ m = m' /\ k = k'.
Proof.
  intros Hm Hk Hm' Hk' E. unfold isoDate in E.
  destruct (pad_two_digits (m + 1) ltac:(lia)) as [L1 V1].
  destruct (pad_two_digits k ltac:(lia)) as [L2 V2].
  destruct (pad_two_digits (m' + 1) ltac:(lia)) as [L1' V1'].
  destruct (pad_two_digits k' ltac:(lia)) as [L2' V2'].
  apply append_inj_suffix in E;
    [| rewrite !append_cons, !append_nil; cbn [String.length];
       rewrite !length_append; cbn [String.length]; lia].
  destruct E as [EY E]. apply string_of_Z_inj in EY.
  rewrite !append_cons, !append_nil in E. injection E as E.
  apply append_inj_suffix in E; [| cbn [String.length]; lia].
  destruct E as [E1 E2]. injection E2 as E2.
  rewrite E1 in V1. rewrite E2 in V2.
  split; [exact EY |]. split; [| congruence].
  assert (m + 1 = m' + 1) by congruence. lia.
Qed.

Lemma toISO_inj d d' : toISO (ValidDate d) = toISO (ValidDate d') -> d = d'.
Proof.
  rewrite !toISO_valid. intros E.
  pose proof (MonthFromDay_range d) as M1.
  pose proof (MonthFromDay_range d') as M2.
  pose proof (DateFromDay_range d) as D1.
  pose proof (DateFromDay_range d') as D2.
  pose proof (daysInMonth_range (YearFromDay d) _ M1).
  pose proof (daysInMonth_range (YearFromDay d') _ M2).
  apply isoDate_inj in E; [| lia ..].
  destruct E as (EY & EM & ED).
  pose proof (MakeDay_fields d 0) as F1.
  pose proof (MakeDay_fields d' 0) as F2.
  rewrite EY, EM, ED in F1. lia.
Qed.

(** ** The month sequence *)

Lemma months_cond_valid c ey em :
  months_cond (ValidDate c) (ofZ ey) (ofZ em)
  = (YearFromDay c <? ey) || ((YearFromDay c =? ey) && (MonthFromDay c <=? em)).
Proof.
  unfold months_cond, getFullYear, getMonth.
  now rewrite num_ltb_ofZ, num_eqb_ofZ, num_leb_ofZ.
Qed.

Lemma months_cond_index c ey em :
  0 <= em <= 11 ->
  months_cond (ValidDate c) (ofZ ey) (ofZ em) = (monthIndex c <=? 12 * ey + em).
Proof.
  intros Hem. rewrite months_cond_valid. unfold monthIndex.
  pose proof (MonthFromDay_range c).
  destruct (Z.ltb_spec (YearFromDay c) ey), (Z.eqb_spec (YearFromDay c) ey),
    (Z.leb_spec (MonthFromDay c) em),
    (Z.leb_spec (12 * YearFromDay c + MonthFromDay c) (12 * ey + em));
    cbn; lia.
Qed.

Lemma monthFirst_fields y m :
  0 <= m <= 11 ->
  YearFromDay (monthFirst y m) = y /\ MonthFromDay (monthFirst y m) = m.
Proof.
  intros Hm. pose proof (daysInMonth_range y m Hm).
  destruct (fields_MakeDay y m 1 Hm ltac:(lia)) as (HY & HM & _).
  now split.
Qed.

Lemma monthFirst_next y m :
  0 <= m <= 11 ->
  MakeDay y (m + 1) 1
  = monthFirst ((12 * y + m + 1) / 12) ((12 * y + m + 1) mod 12).
Proof.
  intros Hm. unfold monthFirst.
  destruct (Z.eq_dec m 11) as [-> | N].
  - change (11 + 1) with 12. rewrite MakeDay_month_12.
    f_equal; divmod.
  - f_equal; divmod.
Qed.

(** The loop lists the months from the cursor to the end month; fuel
    beyond the number of these months is not used. *)
Lemma months_loop_run ws k : forall i ey em extra,
  100 < i / 12 -> ey < 275760 -> 0 <= em <= 11 ->
  12 * ey + em - i + 1 = Z.of_nat k ->
  months_loop (k + extra) (ValidDate (monthFirst (i / 12) (i mod 12)))
    (ofZ ey) (ofZ em) ws
  = map (month_info ws) (day_range i k).
Proof.
  induction k as [| k IH]; intros i ey em extra Hi Hey Hem Hk.
  - cbn [Nat.add day_range seq map]. destruct extra as [| extra]; [reflexivity |].
    cbn [months_loop]. rewrite months_cond_index by exact Hem.
    unfold monthIndex.
    destruct (monthFirst_fields (i / 12) (i mod 12) ltac:(divmod)) as [-> ->].
    destruct (Z.leb_spec (12 * (i / 12) + i mod 12) (12 * ey + em));
      [divmod | reflexivity].
  - cbn [Nat.add months_loop]. rewrite months_cond_index by exact Hem.
    unfold monthIndex.
    destruct (monthFirst_fields (i / 12) (i mod 12) ltac:(divmod)) as [EY EM].
    cbn [getFullYear getMonth]. rewrite EY, EM.
    destruct (Z.leb_spec (12 * (i / 12) + i mod 12) (12 * ey + em));
      [| divmod].
    rewrite day_range_S. cbn [map]. f_equal.
    rewrite num_add_ofZ, newDate_ofZ, MakeFullYear_id by lia.
    rewrite monthFirst_next by divmod.
    replace (12 * (i / 12) + i mod 12 + 1) with (i + 1) by divmod.
    rewrite TimeClip_in_range.
    + apply IH; [divmod | lia | lia | lia].
    + destruct (Z.eq_dec (i + 1) (12 * 275760)) as [-> | N].
      * vm_compute. discriminate.
      * assert (Hy : 100 < (i + 1) / 12 < 275760) by divmod.
        assert (Hm : 0 <= (i + 1) mod 12 <= 11) by divmod.
        destruct (month_days_bounds _ _ Hy Hm) as (B1 & B2 & _).
        pose proof (daysInMonth_range ((i + 1) / 12) _ Hm).
        unfold in_range, monthLast, monthFirst in *. lia.
Qed.

Lemma parseYM_empty : parseYM "" = InvalidDate.
Proof. reflexivity. Qed.

Lemma buildMonths_run now startYM endYM ws s e :
  parseYM startYM = ValidDate s -> resolved_end now endYM = ValidDate e ->
  100 < YearFromDay s -> YearFromDay e < 275760 ->
  buildMonths now startYM endYM ws
  = map (month_info ws)
      (day_range (monthIndex s) (Z.to_nat (monthIndex e - monthIndex s + 1))).
Proof.
  intros Hs He Ys Ye. unfold buildMonths.
  change (if truthy_string endYM then parseYM (default "" endYM) else now)
    with (resolved_end now endYM).
  rewrite Hs, He. cbn [getFullYear getMonth].
  pose proof (MonthFromDay_range s) as Ms.
  pose proof (MonthFromDay_range e) as Me.
  rewrite newDate_ofZ, MakeFullYear_id by lia.
  assert (Yq : monthIndex s / 12 = YearFromDay s) by (unfold monthIndex; divmod).
  assert (Mq : monthIndex s mod 12 = MonthFromDay s) by (unfold monthIndex; divmod).
  fold (monthFirst (YearFromDay s) (MonthFromDay s)).
  destruct (monthFirst_fields (YearFromDay s) (MonthFromDay s) Ms) as [FY FM].
  destruct (Z.le_gt_cases (monthIndex s) (monthIndex e)) as [Le | Gt].
  - assert (Hy : 100 < YearFromDay s < 275760) by (unfold monthIndex in *; lia).
    destruct (month_days_bounds _ _ Hy Ms) as (B1 & B2 & _).
    pose proof (daysInMonth_range (YearFromDay s) _ Ms).
    rewrite TimeClip_in_range by (unfold in_range, monthLast, monthFirst in *; lia).
    cbn [months_span]. rewrite FY, FM. fold (monthIndex s). fold (monthIndex e).
    rewrite <- Yq at 1. rewrite <- Mq at 1.
    rewrite <- (Nat.add_0_r (Z.to_nat _)) at 1.
    apply months_loop_run; [lia | lia | lia |].
    unfold monthIndex in *. lia.
  - replace (Z.to_nat (monthIndex e - monthIndex s + 1)) with 0%nat by lia.
    cbn [day_range seq map].
    destruct (TimeClip (monthFirst (YearFromDay s) (MonthFromDay s))) as [c |] eqn:C;
      [| reflexivity].
    unfold TimeClip in C.
    destruct (Z.abs (monthFirst (YearFromDay s) (MonthFromDay s)) <=? 100000000);
      [| discriminate].
    injection C as <-. cbn [months_span]. rewrite FY, FM.
    fold (monthIndex s). fold (monthIndex e).
    replace (Z.to_nat (monthIndex e - monthIndex s + 1)) with 0%nat by lia.
    reflexivity.
Qed.

(** ** The fuel of the two loops is enough *)

Lemma monthStart_leap_diff l1 l2 m :
  0 <= m <= 11 -> -1 <= monthStart l1 m - monthStart l2 m <= 1.
Proof. intros H. month_cases m; destruct l1, l2; table; lia. Qed.

Lemma DayFromYear_1900 y : 0 <= y <= 99 -> DayFromYear y + 600000 < DayFromYear (1900 + y).
Proof. intros H. unfold DayFromYear. divmod. Qed.

(** [addDays d 1] is a later day, when it is a valid date at all. *)
Lemma addDays_forward d :
  match addDays (ValidDate d) (ofZ 1) with
  | ValidDate d' => d < d'
  | InvalidDate => True
  end.
Proof.
  unfold addDays, getFullYear, getMonth, getDate.
  rewrite num_add_ofZ, newDate_ofZ. unfold TimeClip.
  destruct (Z.abs _ <=? 100000000); [| exact I].
  pose proof (MakeDay_fields d 0) as F. rewrite !Z.add_0_r in F.
  pose proof (MonthFromDay_range d) as RM.
  unfold MakeFullYear.
  destruct ((0 <=? YearFromDay d) && (YearFromDay d <=? 99)) eqn:C.
  - apply andb_true_iff in C. destruct C as [C1 C2].
    apply Z.leb_le in C1, C2.
    pose proof (DayFromYear_1900 (YearFromDay d) ltac:(lia)) as B.
    pose proof (monthStart_leap_diff (InLeapYear (1900 + YearFromDay d))
                  (InLeapYear (YearFromDay d)) _ RM) as L.
    unfold MakeDay in *.
    rewrite !Z.div_small, !Z.mod_small, !Z.add_0_r in * by lia. lia.
  - rewrite MakeDay_date. lia.
Qed.

Lemma monthDays_loop_invalid fuel ge month :
  monthDays_loop fuel InvalidDate ge month = [].
Proof. destruct fuel; reflexivity. Qed.

(** Whatever the dates, the fuel [days_span d gridEnd] is enough for the
    loop of [buildMonthDays]: more fuel gives the same list. *)
Lemma monthDays_loop_enough month ge : forall n fuel d,
  days_span d ge = n -> (n <= fuel)%nat ->
  monthDays_loop fuel d ge month = monthDays_loop n d ge month.
Proof.
  induction n as [n IH] using lt_wf_ind. intros fuel d Hn Hf.
  destruct d as [d |]; [| now rewrite !monthDays_loop_invalid].
  destruct ge as [ge |].
  2:{ destruct fuel, n; reflexivity. }
  cbn [days_span] in Hn.
  destruct n as [| n].
  - destruct fuel as [| fuel]; [reflexivity |].
    cbn [monthDays_loop date_leb].
    destruct (Z.leb_spec d ge); [lia | reflexivity].
  - destruct fuel as [| fuel]; [lia |].
    cbn [monthDays_loop date_leb].
    destruct (Z.leb_spec d ge); [| reflexivity].
    f_equal.
    pose proof (addDays_forward d) as A.
    destruct (addDays (ValidDate d) (ofZ 1)) as [d' |];
      [| now rewrite !monthDays_loop_invalid].
    rewrite (IH (days_span (ValidDate d') (ValidDate ge))
               ltac:(cbn [days_span]; lia) fuel (ValidDate d') eq_refl
               ltac:(cbn [days_span]; lia)).
    rewrite (IH (days_span (ValidDate d') (ValidDate ge))
               ltac:(cbn [days_span]; lia) n (ValidDate d') eq_refl
               ltac:(cbn [days_span]; lia)).
    reflexivity.
Qed.

Lemma months_loop_invalid fuel ey em ws :
  months_loop fuel InvalidDate ey em ws = [].
Proof. destruct fuel; reflexivity. Qed.

(** The cursor moves to a later month, when it stays a valid date. *)
Lemma next_month_forward c :
  match newDate (getFullYear (ValidDate c))
          (num_add (getMonth (ValidDate c)) (ofZ 1)) (ofZ 1) with
  | ValidDate c' => monthIndex c < monthIndex c'
  | InvalidDate => True
  end.
Proof.
  cbn [getFullYear getMonth]. rewrite num_add_ofZ, newDate_ofZ.
  unfold TimeClip. destruct (Z.abs _ <=? 100000000); [| exact I].
  pose proof (MonthFromDay_range c) as RM.
  pose proof (MakeFullYear_ge (YearFromDay c)) as G.
  rewrite monthFirst_next by exact RM.
  set (i := 12 * MakeFullYear (YearFromDay c) + MonthFromDay c + 1).
  destruct (monthFirst_fields (i / 12) (i mod 12) ltac:(divmod)) as [FY FM].
  unfold monthIndex. rewrite FY, FM. subst i. divmod.
Qed.

(** Whatever the dates, the fuel [months_span cursor endMonthDate] is
    enough for the loop of [buildMonths]. *)
Lemma months_loop_enough ws e : forall n fuel cursor,
  months_span cursor e = n -> (n <= fuel)%nat ->
  months_loop fuel cursor (getFullYear e) (getMonth e) ws
  = months_loop n cursor (getFullYear e) (getMonth e) ws.
Proof.
  induction n as [n IH] using lt_wf_ind. intros fuel c Hn Hf.
  destruct c as [c |]; [| now rewrite !months_loop_invalid].
  destruct e as [e |].
  2:{ destruct fuel, n; reflexivity. }
  cbn [months_span] in Hn. fold (monthIndex e) in Hn. fold (monthIndex c) in Hn.
  cbn [getFullYear getMonth].
  pose proof (MonthFromDay_range e) as Re.
  destruct n as [| n].
  - destruct fuel as [| fuel]; [reflexivity |].
    cbn [months_loop]. rewrite months_cond_index by exact Re.
    fold (monthIndex e).
    destruct (Z.leb_spec (monthIndex c) (monthIndex e)); [lia | reflexivity].
  - destruct fuel as [| fuel]; [lia |].
    cbn [months_loop]. rewrite months_cond_index by exact Re.
    fold (monthIndex e).
    destruct (Z.leb_spec (monthIndex c) (monthIndex e)); [| reflexivity].
    f_equal.
    pose proof (next_month_forward c) as A.
    destruct (newDate _ _ _) as [c' |]; [| now rewrite !months_loop_invalid].
    assert (S : (months_span (ValidDate c') (ValidDate e) <= n)%nat).
    { cbn [months_span]. fold (monthIndex e). fold (monthIndex c'). lia. }
    change (ofZ (YearFromDay e)) with (getFullYear (ValidDate e)).
    change (ofZ (MonthFromDay e)) with (getMonth (ValidDate e)).
    rewrite (IH (months_span (ValidDate c') (ValidDate e)) ltac:(lia)
               fuel (ValidDate c') eq_refl ltac:(lia)).
    rewrite (IH (months_span (ValidDate c') (ValidDate e)) ltac:(lia)
               n (ValidDate c') eq_refl S).
    reflexivity.
Qed.

Lemma day_range_app from a b :
  day_range from (a + b)
  = (day_range from a ++ day_range (from + Z.of_nat a) b)%list.
Proof.
  revert from. induction a as [| a IH]; intros from.
  - cbn [Nat.add]. unfold day_range at 2. cbn [seq map app].
    f_equal. lia.
  - cbn [Nat.add]. rewrite !day_range_S, IH. cbn [app]. do 3 f_equal. lia.
Qed.

Lemma day_range_split from len i :
  from <= i < from + Z.of_nat len ->
  day_range from len
  = (day_range from (Z.to_nat (i - from))
     ++ i :: day_range (i + 1) (Z.to_nat (from + Z.of_nat len - i - 1)))%list.
Proof.
  intros H.
  replace len with (Z.to_nat (i - from)
                    + S (Z.to_nat (from + Z.of_nat len - i - 1)))%nat at 1 by lia.
  rewrite day_range_app, day_range_S. do 2 f_equal; [lia |]. f_equal. lia.
Qed.

Lemma days_month_info ws i :
  days (month_info ws i) = buildMonthDays (ofZ (i / 12)) (ofZ (i mod 12)) ws.
Proof. reflexivity. Qed.

Lemma other_month_grid y m k ws i :
  100 < i / 12 < 275760 -> i <> 12 * y + m ->
  0 <= m <= 11 -> 1 <= k <= daysInMonth y m ->
  ~ In {| iso := isoDate y m k; inMonth := true |}
       (buildMonthDays (ofZ (i / 12)) (ofZ (i mod 12)) ws).
Proof.
  intros Hi Hne Hm Hk Hin.
  assert (Hm' : 0 <= i mod 12 <= 11) by divmod.
  destruct (tagged_entry_in_month (i / 12) (i mod 12) ws _ Hi Hm' Hin eq_refl)
    as (k' & Hk' & E).
  cbn [iso] in E.
  pose proof (daysInMonth_range y m Hm).
  pose proof (daysInMonth_range (i / 12) _ Hm').
  apply isoDate_inj in E; [| lia ..].
  destruct E as (EY & EM & _). apply Hne. clear - EY EM. divmod.
Qed.

(** C7.  The claim holds in the amended form: when the start month and
    the end month (the one given, or the month of the clock when none is
    given) are valid months of years from 1000 to 9999, every day
    [YYYY-MM-DD] of a month from the start month to the end month is
    found, tagged [inMonth = true], in exactly one grid of the sequence
    built by [buildMonths]: the grid of its year and month; no other grid
    of the sequence has it with that tag. *)
Theorem buildMonths_one_grid_per_day (now : Date) (startYM : string)
    (endYM : option string) (ws : WeekStart) (s e y m k : Z) :
  parseYM startYM = ValidDate s -> resolved_end now endYM = ValidDate e ->
  1000 <= YearFromDay s -> YearFromDay e <= 9999 ->
  0 <= m <= 11 -> 1 <= k <= daysInMonth y m ->
  monthIndex s <= 12 * y + m <= monthIndex e ->
  exists before g after,
    buildMonths now startYM endYM ws = (before ++ g :: after)%list
    /\ year g = ofZ y /\ month g = ofZ m
    /\ In {| iso := iso8601 y m k; inMonth := true |} (days g)
    /\ (forall g', In g' (before ++ after)%list ->
          ~ In {| iso := iso8601 y m k; inMonth := true |} (days g')).
Proof.
  intros Hs He Ys Ye Hm Hk Hi.
  rewrite (buildMonths_run now startYM endYM ws s e Hs He ltac:(lia) ltac:(lia)).
  pose proof (MonthFromDay_range s) as Ms.
  pose proof (MonthFromDay_range e) as Me.
  pose proof (daysInMonth_range y m Hm) as Rk.
  set (t := 12 * y + m) in *.
  assert (Ty : t / 12 = y) by (subst t; divmod).
  assert (Tm : t mod 12 = m) by (subst t; divmod).
  assert (Hy4 : 1000 <= y <= 9999) by (unfold monthIndex in Hi; subst t; lia).
  assert (Hy : 100 < y < 275760) by lia.
  rewrite <- (isoDate_iso8601 y m k) by lia.
  rewrite (day_range_split _ _ t) by lia.
  rewrite map_app. cbn [map].
  eexists _, (month_info ws t), _. split; [reflexivity |].
  rewrite days_month_info. cbn [year month month_info]. rewrite Ty, Tm.
  split; [reflexivity |]. split; [reflexivity |]. split.
  - exact (month_day_in_grid y m ws k Hy Hm Hk).
  - intros g' Hg'. apply in_app_or in Hg'.
    assert (R : exists i, g' = month_info ws i /\ i <> t
                          /\ monthIndex s <= i <= monthIndex e).
    { destruct Hg' as [Hg' | Hg']; apply in_map_iff in Hg';
        destruct Hg' as (i & <- & Hin); apply in_day_range in Hin;
        exists i; (split; [reflexivity | lia]). }
    destruct R as (i & -> & Hne & Hr). rewrite days_month_info.
    apply other_month_grid; [| exact Hne | exact Hm | exact Hk].
    unfold monthIndex in Hr. divmod.
Qed.

(** A run: 2025-02-10 in the months from 2025-01 to 2025-12. *)
Lemma buildMonths_one_grid_per_day_witness :
  exists before g after,
    buildMonths InvalidDate "2025-01" (Some "2025-12") sun
    = (before ++ g :: after)%list
    /\ year g = ofZ 2025 /\ month g = ofZ 1
    /\ In {| iso := iso8601 2025 1 10; inMonth := true |} (days g)
    /\ (forall g', In g' (before ++ after)%list ->
          ~ In {| iso := iso8601 2025 1 10; inMonth := true |} (days g')).
Proof.
  apply (buildMonths_one_grid_per_day InvalidDate "2025-01" (Some "2025-12") sun
           20089 20423 2025 1 10).
  - reflexivity.
  - reflexivity.
  - vm_compute. discriminate.
  - vm_compute. discriminate.
  - lia.
  - vm_compute. split; discriminate.
  - vm_compute. split; discriminate.
Defined.

(** The claim as stated, for every start month, fails.  From the start
    [0100-01] to the end [0100-01] the sequence has one grid, of a single
    padding cell, and no grid lists the day [0100-01-01]; from [0500-01]
    to [0500-01] the grid lists the days of January 500 with a year of
    three digits, and none as [0500-01-01]. *)
Lemma buildMonths_year_limits :
  parseYM "0100-01" = ValidDate (MakeDay 100 0 1)
  /\ buildMonths InvalidDate "0100-01" (Some "0100-01") sun
     = [{| year := ofZ 100; month := ofZ 0;
           days := [{| iso := "99-12-27"; inMonth := false |}] |}]
  /\ iso8601 100 0 1 = "0100-01-01"
  /\ parseYM "0500-01" = ValidDate (MakeDay 500 0 1)
  /\ existsb (fun g => existsb (fun e => String.eqb (iso e) (iso8601 500 0 1))
                               (days g))
       (buildMonths InvalidDate "0500-01" (Some "0500-01") sun) = false
  /\ existsb (fun g => existsb (fun e => String.eqb (iso e) "500-01-01"
                                         && inMonth e)
                               (days g))
       (buildMonths InvalidDate "0500-01" (Some "0500-01") sun) = true.
Proof. vm_compute. repeat split. Qed.

(** When the loop condition fails at the cursor, no month is listed,
    whatever the fuel. *)
Lemma months_loop_stop fuel cursor ey em ws :
  months_cond cursor ey em = false ->
  months_loop fuel cursor ey em ws = [].
Proof. intros H. destruct fuel; cbn [months_loop]; [| rewrite H]; reflexivity. Qed.


Lemma safeMonths_nonempty months start ws : safeMonths months start ws <> [].
Proof.
  unfold safeMonths. destruct months as [| g months]; cbn; discriminate.
Qed.



(** ** Binary64 rounding *)

Lemma rne_bounds x :
  (inject_Z (rne x) - (1 # 2) <= x <= inject_Z (rne x) + (1 # 2))%Q.
Proof.
  unfold rne. cbv zeta.
  pose proof (Qfloor_le x) as Lo. pose proof (Qlt_floor x) as Hi.
  rewrite inject_Z_plus in Hi. change (inject_Z 1) with 1%Q in Hi.
  destruct (Qcompare_spec (x - inject_Z (Qfloor x)) (1 # 2)) as [E | L | G].
  - destruct (Z.even (Qfloor x)); rewrite ?inject_Z_plus;
      change (inject_Z 1) with 1%Q; split; lra.
  - split; lra.
  - rewrite inject_Z_plus. change (inject_Z 1) with 1%Q. split; lra.
Qed.

Lemma rne_inject_Z z : rne (inject_Z z) = z.
Proof.
  unfold rne. cbv zeta. rewrite Qfloor_Z.
  destruct (Qcompare_spec (inject_Z z - inject_Z z) (1 # 2)) as [E | L | G];
    [lra | reflexivity | lra].
Qed.

Lemma rne_compat x y : (x == y)%Q -> rne x = rne y.
Proof.
  intros E. unfold rne. cbv zeta.
  rewrite (Qfloor_comp x y E).
  assert (C : (x - inject_Z (Qfloor y) ?= 1 # 2)%Q
              = (y - inject_Z (Qfloor y) ?= 1 # 2)%Q)
    by (apply Qcompare_comp; [now rewrite E | reflexivity]).
  now rewrite C.
Qed.

Lemma rne_mono x y : (x <= y)%Q -> rne x <= rne y.
Proof.
  intros H.
  pose proof (Qfloor_resp_le x y H) as F.
  pose proof (Qfloor_le x) as Lx. pose proof (Qlt_floor x) as Hx.
  pose proof (Qfloor_le y) as Ly. pose proof (Qlt_floor y) as Hy.
  rewrite inject_Z_plus in Hx, Hy. change (inject_Z 1) with 1%Q in Hx, Hy.
  unfold rne. cbv zeta.
  destruct (Z.eq_dec (Qfloor x) (Qfloor y)) as [E | N].
  - rewrite E in *.
    destruct (Qcompare_spec (x - inject_Z (Qfloor y)) (1 # 2)),
             (Qcompare_spec (y - inject_Z (Qfloor y)) (1 # 2));
      try lra; try lia; destruct (Z.even (Qfloor y)); lia.
  - assert (Qfloor x + 1 <= Qfloor y) by lia.
    destruct (Qcompare_spec (x - inject_Z (Qfloor x)) (1 # 2)),
             (Qcompare_spec (y - inject_Z (Qfloor y)) (1 # 2));
      try destruct (Z.even (Qfloor x)); try destruct (Z.even (Qfloor y)); lia.
Qed.

Lemma rne_int_le x z : (x <= inject_Z z)%Q -> rne x <= z.
Proof. intros H. rewrite <- (rne_inject_Z z). now apply rne_mono. Qed.

Lemma rne_int_ge x z : (inject_Z z <= x)%Q -> z <= rne x.
Proof. intros H. rewrite <- (rne_inject_Z z). now apply rne_mono. Qed.

(** Powers of two as rationals. *)

Lemma pow2_pos e : 0 < 2 ^ e \/ (e < 0 /\ 2 ^ e = 0).
Proof.
  destruct (Z.lt_ge_cases e 0) as [N | P].
  - right. split; [exact N | now apply Z.pow_neg_r].
  - left. now apply Z.pow_pos_nonneg.
Qed.

Lemma Qpow2_pos e : 0 <= e -> (0 < inject_Z (2 ^ e))%Q.
Proof.
  intros H. change 0%Q with (inject_Z 0). rewrite <- Zlt_Qlt.
  now apply Z.pow_pos_nonneg.
Qed.

Lemma Qdiv_le_l x y p : (0 < p)%Q -> (x / p <= y)%Q <-> (x <= y * p)%Q.
Proof.
  intros Hp. split; intros H.
  - apply Qle_shift_div_r in H || idtac.
    assert (E : (x == x / p * p)%Q) by (field; lra).
    rewrite E. now apply Qmult_le_compat_r; [| lra].
  - now apply Qle_shift_div_r.
Qed.

Lemma Qdiv_ge_l x y p : (0 < p)%Q -> (y <= x / p)%Q <-> (y * p <= x)%Q.
Proof.
  intros Hp. split; intros H.
  - assert (E : (x == x / p * p)%Q) by (field; lra).
    rewrite E. now apply Qmult_le_compat_r; [| lra].
  - now apply Qle_shift_div_l.
Qed.

Lemma Qdiv_lt_l x y p : (0 < p)%Q -> (x / p < y)%Q <-> (x < y * p)%Q.
Proof.
  intros Hp. split; intros H.
  - assert (E : (x == x / p * p)%Q) by (field; lra).
    rewrite E. now apply Qmult_lt_compat_r.
  - now apply Qlt_shift_div_r.
Qed.

(** The spacing exponent. *)

Lemma ulp_exp_nonneg s : 0 <= ulp_exp s.
Proof. unfold ulp_exp. lia. Qed.

Lemma ulp_exp_mono s t : (s <= t)%Q -> ulp_exp s <= ulp_exp t.
Proof.
  intros H. unfold ulp_exp.
  pose proof (Z.log2_le_mono _ _ (Qfloor_resp_le s t H)). lia.
Qed.

Lemma ulp_exp_upper s :
  (0 <= s)%Q -> (s < inject_Z (2 ^ (ulp_exp s + 53)))%Q.
Proof.
  intros Hs. pose proof (Qlt_floor s) as Hi.
  assert (F0 : 0 <= Qfloor s).
  { change 0 with (Qfloor 0). now apply Qfloor_resp_le. }
  assert (B : Qfloor s + 1 <= 2 ^ (ulp_exp s + 53)).
  { unfold ulp_exp. destruct (Z.eq_dec (Qfloor s) 0) as [E | N].
    - rewrite E. change (Z.log2 0) with 0.
      replace (Z.max (0 - 52) 0 + 53) with 53 by lia.
      change (2 ^ 53) with 9007199254740992. lia.
    - pose proof (Z.log2_spec (Qfloor s) ltac:(lia)) as [_ U].
      pose proof (Z.log2_nonneg (Qfloor s)) as L0.
      assert (P : 2 ^ Z.succ (Z.log2 (Qfloor s))
                  <= 2 ^ (Z.max (Z.log2 (Qfloor s) - 52) 0 + 53))
        by (apply Z.pow_le_mono_r; lia).
      lia. }
  rewrite Zle_Qle in B. lra.
Qed.

Lemma ulp_exp_lower s :
  0 < ulp_exp s -> (inject_Z (2 ^ (ulp_exp s + 52)) <= s)%Q.
Proof.
  intros He. pose proof (Qfloor_le s) as Lo.
  unfold ulp_exp in *.
  assert (P : 0 < Qfloor s).
  { destruct (Z.lt_ge_cases 0 (Qfloor s)) as [H | H]; [exact H |].
    rewrite Z.log2_nonpos in He by exact H. lia. }
  pose proof (Z.log2_spec (Qfloor s) P) as [L _].
  replace (Z.max (Z.log2 (Qfloor s) - 52) 0 + 52) with (Z.log2 (Qfloor s))
    by lia.
  rewrite Zle_Qle in L. lra.
Qed.

(** Rounding to 53 significant bits. *)

Lemma pow2_split e k : 0 <= e -> 0 <= k -> 2 ^ (e + k) = 2 ^ e * 2 ^ k.
Proof. intros. now apply Z.pow_add_r. Qed.

Lemma grid64_sig s :
  (0 <= s)%Q ->
  let e := ulp_exp s in
  let m := rne (s / inject_Z (2 ^ e)) in
  0 <= m <= 2 ^ 53 /\ (0 < e -> 2 ^ 52 <= m).
Proof.
  intros Hs e m. subst m.
  pose proof (ulp_exp_nonneg s) as He. fold e in He.
  pose proof (Qpow2_pos e He) as P.
  split; [split |].
  - apply rne_int_ge. apply Qdiv_ge_l; [exact P |].
    change (inject_Z 0) with 0%Q. lra.
  - apply rne_int_le. apply Qdiv_le_l; [exact P |].
    rewrite <- inject_Z_mult, Z.mul_comm, <- pow2_split by lia.
    apply Qlt_le_weak. now apply ulp_exp_upper.
  - intros Pe. apply rne_int_ge. apply Qdiv_ge_l; [exact P |].
    rewrite <- inject_Z_mult, Z.mul_comm, <- pow2_split by lia.
    now apply ulp_exp_lower.
Qed.

Lemma grid64_nonneg s : (0 <= s)%Q -> 0 <= grid64 s.
Proof.
  intros Hs. destruct (grid64_sig s Hs) as [[M0 _] _]. unfold grid64.
  pose proof (ulp_exp_nonneg s) as He.
  pose proof (Z.pow_pos_nonneg 2 (ulp_exp s) ltac:(lia) He). cbv zeta. nia.
Qed.

Lemma grid64_compat s t : (s == t)%Q -> grid64 s = grid64 t.
Proof.
  intros E. unfold grid64, ulp_exp. cbv zeta.
  rewrite (Qfloor_comp s t E). f_equal. apply rne_compat. now rewrite E.
Qed.

Lemma grid64_mono s t : (0 <= s)%Q -> (s <= t)%Q -> grid64 s <= grid64 t.
Proof.
  intros Hs Hst.
  assert (Ht : (0 <= t)%Q) by lra.
  pose proof (ulp_exp_mono s t Hst) as Em.
  destruct (grid64_sig s Hs) as [[_ Ms] _].
  destruct (grid64_sig t Ht) as [[Mt0 _] Mt].
  pose proof (ulp_exp_nonneg s) as Es. pose proof (ulp_exp_nonneg t) as Et.
  unfold grid64. cbv zeta in *.
  set (es := ulp_exp s) in *. set (et := ulp_exp t) in *.
  destruct (Z.eq_dec es et) as [E | N].
  - rewrite <- E.
    apply Z.mul_le_mono_nonneg_r; [apply Z.pow_nonneg; lia |].
    apply rne_mono. rewrite E.
    apply Qmult_le_compat_r; [exact Hst |].
    apply Qlt_le_weak, Qinv_lt_0_compat, Qpow2_pos. exact Et.
  - assert (Lt : es + 1 <= et) by lia.
    specialize (Mt ltac:(lia)).
    pose proof (Z.pow_pos_nonneg 2 es ltac:(lia) Es) as Ps.
    pose proof (Z.pow_pos_nonneg 2 et ltac:(lia) Et) as Pt.
    assert (A : rne (s / inject_Z (2 ^ es)) * 2 ^ es <= 2 ^ 53 * 2 ^ es) by nia.
    assert (B : 2 ^ 52 * 2 ^ et <= rne (t / inject_Z (2 ^ et)) * 2 ^ et) by nia.
    assert (C : 2 ^ 53 * 2 ^ es <= 2 ^ 52 * 2 ^ et).
    { rewrite <- !pow2_split by lia. apply Z.pow_le_mono_r; lia. }
    lia.
Qed.

Lemma grid64_exact M E :
  0 <= M < 2 ^ 53 -> 0 <= E -> grid64 (inject_Z (M * 2 ^ E)) = M * 2 ^ E.
Proof.
  intros HM HE.
  set (s := inject_Z (M * 2 ^ E)).
  pose proof (Z.pow_pos_nonneg 2 E ltac:(lia) HE) as PE.
  assert (Hs : (0 <= s)%Q).
  { subst s. change 0%Q with (inject_Z 0). rewrite <- Zle_Qle. nia. }
  pose proof (ulp_exp_nonneg s) as He.
  assert (LE : ulp_exp s <= E).
  { destruct (Z.eq_dec (ulp_exp s) 0) as [Z0 | NZ]; [lia |].
    pose proof (ulp_exp_lower s ltac:(lia)) as L. subst s.
    rewrite <- Zle_Qle in L.
    assert (U : 2 ^ (ulp_exp (inject_Z (M * 2 ^ E)) + 52) < 2 ^ (E + 53)).
    { rewrite (Z.add_comm E), (pow2_split 53 E) by lia. nia. }
    apply Z.pow_lt_mono_r_iff in U; lia. }
  unfold grid64. cbv zeta. fold s.
  set (e := ulp_exp s) in *.
  pose proof (Z.pow_pos_nonneg 2 e ltac:(lia) He) as Pe.
  assert (D : 2 ^ E = 2 ^ (E - e) * 2 ^ e).
  { rewrite <- pow2_split by lia. f_equal. lia. }
  assert (Q : (s / inject_Z (2 ^ e) == inject_Z (M * 2 ^ (E - e)))%Q).
  { subst s. rewrite D, Z.mul_assoc, inject_Z_mult.
    field. intros Z0. pose proof (Qpow2_pos e He). lra. }
  rewrite (rne_compat _ _ Q), rne_inject_Z. rewrite D. ring.
Qed.

Lemma grid64_err s :
  (0 <= s)%Q ->
  (inject_Z (grid64 s) - inject_Z (2 ^ ulp_exp s) / 2 <= s
   <= inject_Z (grid64 s) + inject_Z (2 ^ ulp_exp s) / 2)%Q.
Proof.
  intros Hs. unfold grid64. cbv zeta.
  pose proof (ulp_exp_nonneg s) as He.
  pose proof (Qpow2_pos _ He) as P.
  set (p := inject_Z (2 ^ ulp_exp s)) in *.
  pose proof (rne_bounds (s / p)) as [Lo Hi].
  set (m := inject_Z (rne (s / p))) in *.
  rewrite inject_Z_mult. fold m p.
  assert (E : (s == s / p * p)%Q) by (field; lra).
  split.
  - assert (X : ((m - (1 # 2)) * p <= s / p * p)%Q)
      by (apply Qmult_le_compat_r; lra).
    rewrite <- E in X.
    assert (Y : ((m - (1 # 2)) * p == m * p - p / 2)%Q) by field.
    rewrite Y in X. exact X.
  - assert (X : (s / p * p <= (m + (1 # 2)) * p)%Q)
      by (apply Qmult_le_compat_r; lra).
    rewrite <- E in X.
    assert (Y : ((m + (1 # 2)) * p == m * p + p / 2)%Q) by field.
    rewrite Y in X. exact X.
Qed.

(** The rounding of a rational to binary64. *)

Lemma unit64_pos : 0 < unit64.
Proof. reflexivity. Qed.

Lemma Qunit64_pos : (0 < inject_Z unit64)%Q.
Proof. reflexivity. Qed.

Lemma over64_unit : over64 = 2 ^ 1024 * unit64.
Proof. reflexivity. Qed.

Lemma to_units a : (a == a * inject_Z unit64 / inject_Z unit64)%Q.
Proof. field. pose proof Qunit64_pos. lra. Qed.

Lemma round64_pos_cases a :
  (0 <= a)%Q ->
  round64_pos a = PosInf
  \/ exists v, 0 <= v < over64
               /\ grid64 (a * inject_Z unit64) = v
               /\ round64_pos a = Fin (Qred (inject_Z v / inject_Z unit64)).
Proof.
  intros Ha. unfold round64_pos. cbv zeta.
  pose proof Qunit64_pos as P.
  assert (S : (0 <= a * inject_Z unit64)%Q) by nra.
  pose proof (grid64_nonneg _ S) as G.
  destruct (Z.leb_spec over64 (grid64 (a * inject_Z unit64))) as [O | O];
    [now left | right].
  eexists. split; [| split; reflexivity]. lia.
Qed.

Lemma num_leb_Fin_units v w :
  v <= w ->
  num_leb (Fin (Qred (inject_Z v / inject_Z unit64)))
          (Fin (Qred (inject_Z w / inject_Z unit64))) = true.
Proof.
  intros H. cbn [num_leb]. apply Qle_bool_iff. rewrite !Qred_correct.
  apply Qmult_le_compat_r; [now rewrite <- Zle_Qle |].
  apply Qlt_le_weak, Qinv_lt_0_compat, Qunit64_pos.
Qed.

Lemma round64_pos_mono a b :
  (0 <= a)%Q -> (a <= b)%Q ->
  num_leb (round64_pos a) (round64_pos b) = true.
Proof.
  intros Ha Hab. pose proof Qunit64_pos as P.
  assert (M : grid64 (a * inject_Z unit64) <= grid64 (b * inject_Z unit64))
    by (apply grid64_mono; nra).
  unfold round64_pos. cbv zeta.
  destruct (Z.leb_spec over64 (grid64 (a * inject_Z unit64))),
           (Z.leb_spec over64 (grid64 (b * inject_Z unit64)));
    try reflexivity; [lia |].
  now apply num_leb_Fin_units.
Qed.

Lemma round64_pos_exact a M E :
  0 <= M < 2 ^ 53 -> 0 <= E -> M * 2 ^ E < over64 ->
  (a * inject_Z unit64 == inject_Z (M * 2 ^ E))%Q ->
  round64_pos a = Fin (Qred a).
Proof.
  intros HM HE Ho Ea. unfold round64_pos. cbv zeta.
  rewrite (grid64_compat _ _ Ea), grid64_exact by assumption.
  destruct (Z.leb_spec over64 (M * 2 ^ E)); [lia |].
  f_equal. apply Qred_complete. rewrite <- Ea. symmetry. apply to_units.
Qed.

Lemma round64_pos_ofZ z :
  0 <= z < 2 ^ 53 -> round64_pos (inject_Z z) = ofZ z.
Proof.
  intros Hz. rewrite (round64_pos_exact (inject_Z z) z 1074); try lia.
  - unfold ofZ. now rewrite Qred_inject_Z.
  - change (2 ^ 1074) with unit64. rewrite over64_unit.
    pose proof unit64_pos. nia.
  - now rewrite inject_Z_mult.
Qed.

Lemma round64_compat p q : (p == q)%Q -> round64 p = round64 q.
Proof.
  intros E. unfold round64.
  rewrite (Qcompare_comp p q E 0%Q 0%Q (Qeq_refl 0%Q)).
  assert (X : forall a b, (a == b)%Q -> round64_pos a = round64_pos b).
  { intros a b Eab. unfold round64_pos. cbv zeta.
    assert (Es : (a * inject_Z unit64 == b * inject_Z unit64)%Q)
      by now rewrite Eab.
    now rewrite (grid64_compat _ _ Es). }
  destruct (q ?= 0)%Q; [reflexivity | |].
  - f_equal. apply X. now rewrite E.
  - now apply X.
Qed.

Lemma round64_0 : round64 0 = Fin 0.
Proof. reflexivity. Qed.

Lemma round64_ofZ z : Z.abs z < 2 ^ 53 -> round64 (inject_Z z) = ofZ z.
Proof.
  intros Hz. unfold round64.
  destruct (Qcompare_spec (inject_Z z) 0) as [E | L | G].
  - assert (Z0 : z = 0) by (unfold Qeq in E; cbn in E; lia).
    now rewrite Z0.
  - change 0%Q with (inject_Z 0) in L. rewrite <- Zlt_Qlt in L.
    rewrite <- inject_Z_opp, round64_pos_ofZ by lia.
    rewrite num_opp_ofZ. f_equal. lia.
  - change 0%Q with (inject_Z 0) in G. rewrite <- Zlt_Qlt in G.
    apply round64_pos_ofZ. lia.
Qed.

Lemma round64_pos_nonneg a :
  (0 <= a)%Q -> num_leb (Fin 0) (round64_pos a) = true.
Proof.
  intros Ha.
  destruct (round64_pos_cases a Ha) as [-> | (v & Hv & _ & ->)];
    [reflexivity |].
  apply (num_leb_Fin_units 0 v). lia.
Qed.

Lemma round64_not_NaN q : round64 q <> NaN.
Proof.
  unfold round64. destruct (Qcompare_spec q 0) as [E | L | G];
    [discriminate | |].
  - destruct (round64_pos_cases (- q) ltac:(lra)) as [-> | (v & _ & _ & ->)];
      discriminate.
  - destruct (round64_pos_cases q ltac:(lra)) as [-> | (v & _ & _ & ->)];
      discriminate.
Qed.

Lemma num_leb_opp x y :
  num_leb x y = true -> num_leb (num_opp y) (num_opp x) = true.
Proof.
  destruct x as [a | | |], y as [b | | |]; cbn; try reflexivity;
    try discriminate.
  intros H. apply Qle_bool_iff in H. apply Qle_bool_iff.
  rewrite !Qred_correct. lra.
Qed.

Lemma num_leb_trans x y z :
  num_leb x y = true -> num_leb y z = true -> num_leb x z = true.
Proof.
  destruct x as [a | | |], y as [b | | |], z as [c | | |]; cbn;
    try reflexivity; try discriminate.
  intros H1 H2. apply Qle_bool_iff in H1, H2. apply Qle_bool_iff. lra.
Qed.

Lemma num_leb_refl x : x <> NaN -> num_leb x x = true.
Proof.
  destruct x as [a | | |]; cbn; try reflexivity; [| contradiction].
  intros _. apply Qle_bool_iff. lra.
Qed.

Lemma round64_mono p q :
  (p <= q)%Q -> num_leb (round64 p) (round64 q) = true.
Proof.
  intros H. unfold round64.
  assert (Z0 : num_opp (Fin 0) = Fin 0) by reflexivity.
  destruct (Qcompare_spec p 0) as [Ep | Lp | Gp],
           (Qcompare_spec q 0) as [Eq | Lq | Gq]; try lra.
  - reflexivity.
  - apply round64_pos_nonneg. lra.
  - rewrite <- Z0. apply num_leb_opp, round64_pos_nonneg. lra.
  - apply num_leb_opp, round64_pos_mono; lra.
  - apply num_leb_trans with (y := Fin 0).
    + rewrite <- Z0. apply num_leb_opp, round64_pos_nonneg. lra.
    + apply round64_pos_nonneg. lra.
  - apply round64_pos_mono; lra.
Qed.

Lemma double_not_NaN x : x <> NaN -> double x <> NaN.
Proof.
  destruct x as [a | | |]; cbn [double]; intros H; try assumption.
  apply round64_not_NaN.
Qed.

Lemma double_mono x y :
  num_leb x y = true -> num_leb (double x) (double y) = true.
Proof.
  destruct x as [a | | |], y as [b | | |]; cbn [double]; try discriminate;
    try reflexivity; intros H.
  - apply round64_mono. now apply Qle_bool_iff.
  - pose proof (round64_not_NaN a). now destruct (round64 a).
  - pose proof (round64_not_NaN b). now destruct (round64 b).
Qed.

Lemma double_ofZ z : Z.abs z < 2 ^ 53 -> double (ofZ z) = ofZ z.
Proof. intros H. now apply round64_ofZ. Qed.

(** The error of a rounding below a power of two. *)
Lemma round64_near a K :
  0 <= K <= 1000 -> (0 <= a <= inject_Z (2 ^ K))%Q ->
  exists r,
    round64 a = Fin r
    /\ (0 <= r <= inject_Z (2 ^ K))%Q
    /\ (r - a <= inject_Z (2 ^ K) / inject_Z (2 ^ 54))%Q
    /\ (a - r <= inject_Z (2 ^ K) / inject_Z (2 ^ 54))%Q.
Proof.
  intros HK [Ha0 HaK].
  pose proof (Qpow2_pos K ltac:(lia)) as PK.
  pose proof Qunit64_pos as PU.
  assert (P54 : (0 < inject_Z (2 ^ 54))%Q) by reflexivity.
  assert (D0 : (0 <= inject_Z (2 ^ K) / inject_Z (2 ^ 54))%Q).
  { apply Qle_shift_div_l; [exact P54 | lra]. }
  destruct (Qeq_dec a 0) as [E0 | N0].
  { exists 0%Q. rewrite (round64_compat a 0 E0), round64_0.
    split; [reflexivity |]. split; [lra |]. rewrite E0. split; lra. }
  assert (Ha : (0 < a)%Q) by lra.
  unfold round64. destruct (Qcompare_spec a 0) as [E | L | G]; try lra.
  set (s := (a * inject_Z unit64)%Q).
  assert (Hs : (0 <= s)%Q) by (subst s; nra).
  assert (TopE : 2 ^ (K + 1074) = 2 ^ K * unit64)
    by (unfold unit64; apply pow2_split; lia).
  assert (Top : (s <= inject_Z (2 ^ (K + 1074)))%Q).
  { subst s. rewrite TopE, inject_Z_mult. nra. }
  assert (Gtop : grid64 (inject_Z (2 ^ (K + 1074))) = 2 ^ (K + 1074)).
  { pose proof (grid64_exact 1 (K + 1074) ltac:(lia) ltac:(lia)) as X.
    now rewrite !Z.mul_1_l in X. }
  pose proof (grid64_mono s _ Hs Top) as Vle. rewrite Gtop in Vle.
  pose proof (grid64_nonneg s Hs) as V0.
  assert (Ov : 2 ^ (K + 1074) < over64).
  { unfold over64. apply Z.pow_lt_mono_r; lia. }
  unfold round64_pos. cbv zeta. fold s.
  destruct (Z.leb_spec over64 (grid64 s)); [lia |].
  eexists. split; [reflexivity |].
  rewrite Qred_correct.
  assert (Ea : (a == s / inject_Z unit64)%Q) by (subst s; apply to_units).
  set (v := grid64 s) in *.
  assert (Err : (inject_Z v - s <= inject_Z (2 ^ (K + 1020))
                 /\ s - inject_Z v <= inject_Z (2 ^ (K + 1020)))%Q).
  { destruct (Qlt_le_dec s (inject_Z (2 ^ (K + 1074)))) as [Lt | Ge].
    - pose proof (grid64_err s Hs) as [Lo Hi]. fold v in Lo, Hi.
      assert (Ee : (inject_Z (2 ^ ulp_exp s) / 2 <= inject_Z (2 ^ (K + 1020)))%Q).
      { assert (B : 2 ^ ulp_exp s <= 2 * 2 ^ (K + 1020)).
        { change 2 with (2 ^ 1) at 2. rewrite <- pow2_split by lia.
          apply Z.pow_le_mono_r; [lia |]. unfold ulp_exp.
          destruct (Z.eq_dec (Qfloor s) 0) as [F0 | FN].
          - rewrite F0. change (Z.log2 0) with 0. lia.
          - assert (FP : 0 < Qfloor s).
            { assert (0 <= Qfloor s)
                by (change 0 with (Qfloor 0); now apply Qfloor_resp_le).
              lia. }
            assert (FL : Qfloor s < 2 ^ (K + 1074)).
            { pose proof (Qfloor_le s) as FL.
              rewrite Zlt_Qlt. lra. }
            apply Z.log2_lt_pow2 in FL; lia. }
        rewrite Zle_Qle, inject_Z_mult in B.
        change (inject_Z 2) with 2%Q in B.
        apply Qle_shift_div_r; [reflexivity | lra]. }
      split; lra.
    - assert (Es : (s == inject_Z (2 ^ (K + 1074)))%Q) by lra.
      assert (Ev : v = 2 ^ (K + 1074))
        by (subst v; now rewrite (grid64_compat _ _ Es)).
      pose proof (Qpow2_pos (K + 1020) ltac:(lia)).
      rewrite Ev, Es. split; lra. }
  assert (Sc : (inject_Z (2 ^ (K + 1020)) / inject_Z unit64
                == inject_Z (2 ^ K) / inject_Z (2 ^ 54))%Q).
  { assert (X : 2 ^ (K + 1020) * 2 ^ 54 = 2 ^ K * unit64).
    { unfold unit64. rewrite <- !pow2_split by lia. f_equal. lia. }
    apply (f_equal inject_Z) in X. rewrite !inject_Z_mult in X.
    field_simplify_eq; [| split; lra]. rewrite X. ring. }
  destruct Err as [E1 E2].
  assert (Iu : (0 < / inject_Z unit64)%Q) by now apply Qinv_lt_0_compat.
  split; [split | split].
  - apply Qle_shift_div_l; [exact PU |]. rewrite Qmult_0_l.
    change 0%Q with (inject_Z 0). now rewrite <- Zle_Qle.
  - apply Qle_shift_div_r; [exact PU |].
    rewrite <- inject_Z_mult, <- TopE. now rewrite <- Zle_Qle.
  - rewrite <- Sc, Ea. unfold Qdiv in *.
    assert (X : ((inject_Z v - s) * / inject_Z unit64
                 <= inject_Z (2 ^ (K + 1020)) * / inject_Z unit64)%Q)
      by (apply Qmult_le_compat_r; lra).
    lra.
  - rewrite <- Sc, Ea. unfold Qdiv in *.
    assert (X : ((s - inject_Z v) * / inject_Z unit64
                 <= inject_Z (2 ^ (K + 1020)) * / inject_Z unit64)%Q)
      by (apply Qmult_le_compat_r; lra).
    lra.
Qed.

(** Overflow. *)

Lemma ulp_exp_cap s :
  (0 <= s)%Q -> (s < inject_Z over64)%Q -> ulp_exp s <= 2045.
Proof.
  intros Hs Ho. unfold ulp_exp.
  destruct (Z.eq_dec (Qfloor s) 0) as [F0 | FN].
  - rewrite F0. change (Z.log2 0) with 0. lia.
  - assert (FP : 0 < Qfloor s).
    { assert (0 <= Qfloor s)
        by (change 0 with (Qfloor 0); now apply Qfloor_resp_le).
      lia. }
    assert (FL : Qfloor s < 2 ^ 2098).
    { pose proof (Qfloor_le s). rewrite Zlt_Qlt. unfold over64 in Ho. lra. }
    apply Z.log2_lt_pow2 in FL; lia.
Qed.

Lemma round64_pos_finite a :
  (0 <= a)%Q -> (a < overflow64)%Q -> exists r, round64_pos a = Fin r.
Proof.
  intros Ha Ho.
  destruct (round64_pos_cases a Ha) as [Inf | (v & _ & _ & ->)];
    [| now eexists].
  exfalso. unfold round64_pos in Inf. cbv zeta in Inf.
  set (s := (a * inject_Z unit64)%Q) in *.
  destruct (Z.leb_spec over64 (grid64 s)) as [O | O]; [| discriminate].
  pose proof Qunit64_pos as PU.
  assert (Hs : (0 <= s)%Q) by (subst s; nra).
  assert (T : (s < inject_Z ((2 ^ 54 - 1) * 2 ^ 2044))%Q).
  { assert (X : (2 ^ 54 - 1) * 2 ^ 2044 = (2 ^ 1024 - 2 ^ 970) * unit64)
      by reflexivity.
    rewrite X, inject_Z_mult. subst s. unfold overflow64 in Ho.
    now apply Qmult_lt_compat_r. }
  assert (So : (s < inject_Z over64)%Q).
  { assert (X : (2 ^ 54 - 1) * 2 ^ 2044 < over64) by reflexivity.
    rewrite Zlt_Qlt in X. lra. }
  pose proof (ulp_exp_cap s Hs So) as Cap.
  pose proof (ulp_exp_nonneg s) as E0.
  destruct (grid64_sig s Hs) as [[M0 M1] _]. cbv zeta in M0, M1.
  unfold grid64 in O. cbv zeta in O.
  set (e := ulp_exp s) in *. set (m := rne (s / inject_Z (2 ^ e))) in *.
  destruct (Z.eq_dec e 2045) as [E | N].
  - assert (Mlt : m < 2 ^ 53).
    { pose proof (rne_bounds (s / inject_Z (2 ^ e))) as [Lo _]. fold m in Lo.
      assert (X : (s / inject_Z (2 ^ e) < inject_Z (2 ^ 53) - (1 # 2))%Q).
      { apply Qdiv_lt_l; [apply Qpow2_pos; lia |]. rewrite E.
        assert (Y : ((inject_Z (2 ^ 53) - (1 # 2)) * inject_Z (2 ^ 2045)
                     == inject_Z ((2 ^ 54 - 1) * 2 ^ 2044))%Q) by reflexivity.
        now rewrite Y. }
      rewrite Zlt_Qlt. lra. }
    rewrite E in O.
    assert (X : (2 ^ 53 - 1) * 2 ^ 2045 < over64) by reflexivity.
    assert (P : 0 < 2 ^ 2045) by reflexivity.
    nia.
  - assert (P : 2 ^ e <= 2 ^ 2044) by (apply Z.pow_le_mono_r; lia).
    assert (Pe : 0 < 2 ^ e) by (apply Z.pow_pos_nonneg; lia).
    assert (X : 2 ^ 53 * 2 ^ 2044 < over64) by reflexivity.
    nia.
Qed.

Lemma round64_pos_overflow a :
  (overflow64 <= a)%Q -> round64_pos a = PosInf.
Proof.
  intros Ho. unfold round64_pos. cbv zeta.
  set (s := (a * inject_Z unit64)%Q).
  pose proof Qunit64_pos as PU.
  assert (T : (inject_Z ((2 ^ 54 - 1) * 2 ^ 2044) <= s)%Q).
  { assert (X : (2 ^ 54 - 1) * 2 ^ 2044 = (2 ^ 1024 - 2 ^ 970) * unit64)
      by reflexivity.
    rewrite X, inject_Z_mult. subst s. unfold overflow64 in Ho.
    apply Qmult_le_compat_r; lra. }
  assert (T0 : (0 <= inject_Z ((2 ^ 54 - 1) * 2 ^ 2044))%Q) by discriminate.
  pose proof (grid64_mono _ _ T0 T) as M.
  assert (G : grid64 (inject_Z ((2 ^ 54 - 1) * 2 ^ 2044)) = over64)
    by (vm_compute; reflexivity).
  rewrite G in M.
  destruct (Z.leb_spec over64 (grid64 s)); [reflexivity | lia].
Qed.

(** Binary64 numbers. *)

Lemma binary64_ofZ z : Z.abs z < 2 ^ 53 -> binary64 (inject_Z z).
Proof.
  intros H. unfold binary64. rewrite round64_ofZ by exact H.
  unfold ofZ. now rewrite Qred_inject_Z.
Qed.

Lemma binary64_units q :
  binary64 q -> exists k : Z, (q * inject_Z unit64 == inject_Z k)%Q.
Proof.
  unfold binary64, round64. intros B.
  pose proof Qunit64_pos as PU.
  assert (U : forall a v,
             Qred (inject_Z v / inject_Z unit64) = Qred a ->
             (a * inject_Z unit64 == inject_Z v)%Q).
  { intros a v E.
    assert (X : (inject_Z v / inject_Z unit64 == a)%Q).
    { rewrite <- (Qred_correct a), <- E. now rewrite Qred_correct. }
    rewrite <- X. field. lra. }
  destruct (Qcompare_spec q 0) as [E | L | G].
  - exists 0. rewrite E. reflexivity.
  - destruct (round64_pos_cases (- q) ltac:(lra)) as [I | (v & _ & _ & R)];
      rewrite ?I, ?R in B; [discriminate |].
    cbn [num_opp] in B. injection B as B.
    exists (- v). rewrite inject_Z_opp.
    assert (X : (- (inject_Z v / inject_Z unit64) == q)%Q).
    { rewrite <- (Qred_correct q), <- B. now rewrite !Qred_correct. }
    rewrite <- X. field. lra.
  - destruct (round64_pos_cases q ltac:(lra)) as [I | (v & _ & _ & R)];
      rewrite ?I, ?R in B; [discriminate |].
    injection B as B. exists v. now apply U.
Qed.

Lemma round64_sub_pos a b :
  binary64 a -> binary64 b -> (a < b)%Q ->
  round64 (b - a) = PosInf
  \/ exists r, round64 (b - a) = Fin r /\ (0 < r)%Q.
Proof.
  intros Ba Bb Lt.
  destruct (binary64_units a Ba) as (ka & Ea).
  destruct (binary64_units b Bb) as (kb & Eb).
  pose proof Qunit64_pos as PU.
  assert (S : ((b - a) * inject_Z unit64 == inject_Z (kb - ka))%Q).
  { unfold Zminus. rewrite inject_Z_plus, inject_Z_opp, <- Ea, <- Eb. ring. }
  assert (K : 1 <= kb - ka).
  { assert (X : (0 < inject_Z (kb - ka))%Q) by (rewrite <- S; nra).
    change 0%Q with (inject_Z 0) in X. rewrite <- Zlt_Qlt in X. lia. }
  unfold round64. destruct (Qcompare_spec (b - a) 0) as [E | L | G]; try lra.
  destruct (round64_pos_cases (b - a) ltac:(lra)) as [I | (v & Hv & Gv & R)];
    [now left | right].
  eexists. split; [exact R |]. rewrite Qred_correct.
  assert (V : 1 <= v).
  { rewrite <- Gv.
    pose proof (grid64_exact 1 0 ltac:(lia) ltac:(lia)) as G1.
    change (1 * 2 ^ 0) with 1 in G1. rewrite <- G1.
    apply grid64_mono; [discriminate |]. rewrite S.
    now rewrite <- Zle_Qle. }
  apply Qlt_shift_div_l; [exact PU |]. rewrite Qmult_0_l.
  change 0%Q with (inject_Z 0). rewrite <- Zlt_Qlt. lia.
Qed.

Lemma round64_nonneg_cases a :
  (0 <= a)%Q ->
  round64 a = PosInf \/ exists r, round64 a = Fin r /\ (0 <= r)%Q.
Proof.
  intros Ha. unfold round64.
  destruct (Qcompare_spec a 0) as [E | L | G]; [| lra |].
  - right. exists 0%Q. split; [reflexivity | lra].
  - destruct (round64_pos_cases a Ha) as [-> | (v & Hv & _ & ->)];
      [now left | right].
    eexists. split; [reflexivity |]. rewrite Qred_correct.
    apply Qle_shift_div_l; [apply Qunit64_pos |]. rewrite Qmult_0_l.
    change 0%Q with (inject_Z 0). rewrite <- Zle_Qle. lia.
Qed.

Lemma round64_finite a :
  (0 <= a)%Q -> (a < overflow64)%Q ->
  exists r, round64 a = Fin r /\ (0 <= r)%Q.
Proof.
  intros Ha Ho.
  destruct (round64_nonneg_cases a Ha) as [I | R]; [| exact R].
  exfalso. unfold round64 in I.
  destruct (Qcompare_spec a 0) as [E | L | G]; [discriminate | lra |].
  destruct (round64_pos_finite a Ha Ho) as (r & R). congruence.
Qed.

Lemma round64_overflow a : (overflow64 <= a)%Q -> round64 a = PosInf.
Proof.
  intros Ho. unfold round64.
  assert (P : (0 < overflow64)%Q) by reflexivity.
  destruct (Qcompare_spec a 0) as [E | L | G]; try lra.
  now apply round64_pos_overflow.
Qed.

(** ** The intensity scale *)

Lemma Math_min2_fin a b :
  Math_min2 (Fin a) (Fin b) = if Qle_bool a b then Fin a else Fin b.
Proof. reflexivity. Qed.

Lemma Math_max2_fin a b :
  Math_max2 (Fin a) (Fin b) = if Qle_bool a b then Fin b else Fin a.
Proof. reflexivity. Qed.

Lemma fold_min_fin l : forall c,
  Forall (fun v => Number_isFinite v = true) l ->
  exists a, fold_left Math_min2 l (Fin c) = Fin a
            /\ (a = c \/ In (Fin a) l)
            /\ (a <= c)%Q
            /\ (forall q, In (Fin q) l -> (a <= q)%Q).
Proof.
  induction l as [| v l IH]; intros c F.
  - exists c. cbn. repeat split; [now left | apply Qle_refl | intros q []].
  - inversion F as [| ? ? Fv Fl]; subst. destruct v as [b | | |]; try discriminate.
    cbn [fold_left]. rewrite Math_min2_fin.
    destruct (Qle_bool c b) eqn:Le.
    + apply Qle_bool_iff in Le.
      destruct (IH c Fl) as (a & E & I & Lc & Lall). exists a.
      repeat split; [exact E | | exact Lc |].
      * destruct I as [-> | I]; [now left | right; now right].
      * intros q [[= <-] | Hq]; [lra | now apply Lall].
    + assert (Lt : (b < c)%Q).
      { apply Qnot_le_lt. intros X. apply Qle_bool_iff in X. congruence. }
      destruct (IH b Fl) as (a & E & I & Lb & Lall). exists a.
      repeat split; [exact E | | lra |].
      * right. destruct I as [-> | I]; [now left | now right].
      * intros q [[= <-] | Hq]; [lra | now apply Lall].
Qed.

Lemma fold_max_fin l : forall c,
  Forall (fun v => Number_isFinite v = true) l ->
  exists a, fold_left Math_max2 l (Fin c) = Fin a
            /\ (a = c \/ In (Fin a) l)
            /\ (c <= a)%Q
            /\ (forall q, In (Fin q) l -> (q <= a)%Q).
Proof.
  induction l as [| v l IH]; intros c F.
  - exists c. cbn. repeat split; [now left | apply Qle_refl | intros q []].
  - inversion F as [| ? ? Fv Fl]; subst. destruct v as [b | | |]; try discriminate.
    cbn [fold_left]. rewrite Math_max2_fin.
    destruct (Qle_bool c b) eqn:Le.
    + apply Qle_bool_iff in Le.
      destruct (IH b Fl) as (a & E & I & Lb & Lall). exists a.
      repeat split; [exact E | | lra |].
      * right. destruct I as [-> | I]; [now left | now right].
      * intros q [[= <-] | Hq]; [lra | now apply Lall].
    + assert (Lt : (b < c)%Q).
      { apply Qnot_le_lt. intros X. apply Qle_bool_iff in X. congruence. }
      destruct (IH c Fl) as (a & E & I & Lc & Lall). exists a.
      repeat split; [exact E | | exact Lc |].
      * destruct I as [-> | I]; [now left | right; now right].
      * intros q [[= <-] | Hq]; [lra | now apply Lall].
Qed.

Lemma finite_filter values :
  Forall (fun v => Number_isFinite v = true) (List.filter Number_isFinite values).
Proof.
  apply List.Forall_forall. intros v Hv. now apply filter_In in Hv.
Qed.

Lemma buildScale_bounds values :
  exists a b : Q,
    (a <= b)%Q
    /\ thresholds (buildScale values) = [Fin a; Fin b]
    /\ (forall v, intensity (buildScale values) v = scale_of_bounds a b v)
    /\ ((forall q, ~ In (Fin q) values) -> a = 0%Q /\ b = 0%Q)
    /\ ((exists q, In (Fin q) values) ->
        In (Fin a) values /\ In (Fin b) values
        /\ forall q, In (Fin q) values -> (a <= q <= b)%Q).
Proof.
  unfold buildScale. cbv zeta.
  pose proof (finite_filter values) as F.
  assert (M : forall q, In (Fin q) (List.filter Number_isFinite values)
                        <-> In (Fin q) values).
  { intros q. rewrite filter_In. cbn. tauto. }
  destruct (List.filter Number_isFinite values) as [| v l] eqn:E.
  - cbn [length Nat.ltb Nat.leb]. exists 0%Q, 0%Q.
    split; [apply Qle_refl |]. split; [reflexivity |].
    split; [intros [v |]; reflexivity |].
    split; [now intros _ |].
    intros [q Hq]. apply M in Hq. destruct Hq.
  - cbn [length Nat.ltb Nat.leb].
    inversion F as [| ? ? Fv Fl]; subst. destruct v as [c | | |]; try discriminate.
    unfold Math_min, Math_max. cbn [fold_left].
    change (Math_min2 PosInf (Fin c)) with (Fin c).
    change (Math_max2 NegInf (Fin c)) with (Fin c).
    destruct (fold_min_fin l c Fl) as (a & Ea & Ia & La & Alla).
    destruct (fold_max_fin l c Fl) as (b & Eb & Ib & Lb & Allb).
    rewrite Ea, Eb. exists a, b.
    split; [lra |]. split; [reflexivity |].
    split; [intros [v |]; reflexivity |].
    split.
    + intros N. exfalso. apply (N c), M. now left.
    + intros _. split; [| split].
      * apply M. destruct Ia as [-> | Ia]; [now left | now right].
      * apply M. destruct Ib as [-> | Ib]; [now left | now right].
      * intros q Hq. apply M in Hq. destruct Hq as [[= <-] | Hq].
        -- split; assumption.
        -- split; [now apply Alla | now apply Allb].
Qed.

Lemma clamp01_fin x :
  clamp01 (Fin x)
  = if Qle_bool 1 x then ofZ 1 else if Qle_bool 0 x then Fin x else ofZ 0.
Proof.
  unfold clamp01, ofZ. rewrite Math_min2_fin.
  change (inject_Z 1) with 1%Q. change (inject_Z 0) with 0%Q.
  destruct (Qle_bool 1 x) eqn:L1; rewrite Math_max2_fin.
  - reflexivity.
  - reflexivity.
Qed.

Lemma Qle_bool_false a b : Qle_bool a b = false -> (b < a)%Q.
Proof.
  intros H. apply Qnot_le_lt. intros X. apply Qle_bool_iff in X. congruence.
Qed.

Lemma clamp01_monotone u v :
  num_leb u v = true -> num_leb (clamp01 u) (clamp01 v) = true.
Proof.
  destruct u as [x | | |], v as [y | | |]; try discriminate; try reflexivity.
  - cbn [num_leb]. intros L. apply Qle_bool_iff in L.
    rewrite !clamp01_fin.
    destruct (Qle_bool 1 x) eqn:X1, (Qle_bool 1 y) eqn:Y1,
      (Qle_bool 0 x) eqn:X0, (Qle_bool 0 y) eqn:Y0;
      repeat match goal with
        | H : Qle_bool _ _ = true |- _ => apply Qle_bool_iff in H
        | H : Qle_bool _ _ = false |- _ => apply Qle_bool_false in H
        end;
      cbn [num_leb ofZ]; apply Qle_bool_iff;
      change (inject_Z 1) with 1%Q; change (inject_Z 0) with 0%Q; lra.
  - intros _. rewrite clamp01_fin.
    change (clamp01 PosInf) with (ofZ 1).
    destruct (Qle_bool 1 x) eqn:X1, (Qle_bool 0 x) eqn:X0;
      repeat match goal with
        | H : Qle_bool _ _ = true |- _ => apply Qle_bool_iff in H
        | H : Qle_bool _ _ = false |- _ => apply Qle_bool_false in H
        end;
      cbn [num_leb ofZ]; apply Qle_bool_iff;
      change (inject_Z 1) with 1%Q; change (inject_Z 0) with 0%Q; lra.
  - intros _. rewrite clamp01_fin.
    change (clamp01 NegInf) with (ofZ 0).
    destruct (Qle_bool 1 y) eqn:Y1, (Qle_bool 0 y) eqn:Y0;
      repeat match goal with
        | H : Qle_bool _ _ = true |- _ => apply Qle_bool_iff in H
        | H : Qle_bool _ _ = false |- _ => apply Qle_bool_false in H
        end;
      cbn [num_leb ofZ]; apply Qle_bool_iff;
      change (inject_Z 1) with 1%Q; change (inject_Z 0) with 0%Q; lra.
Qed.

Lemma Qsign_pos r : (0 < r)%Q -> Qsign r = Gt.
Proof. intros H. unfold Qsign. now apply Qgt_alt. Qed.

Lemma Qeq_bool_pos r : (0 < r)%Q -> Qeq_bool r 0 = false.
Proof.
  intros H. destruct (Qeq_bool r 0) eqn:E; [| reflexivity].
  apply Qeq_bool_iff in E. lra.
Qed.

Lemma num_sub_mono a u v :
  num_leb u v = true ->
  num_leb (num_sub u (Fin a)) (num_sub v (Fin a)) = true.
Proof.
  destruct u as [x | | |], v as [y | | |]; try discriminate;
    cbn [num_sub num_leb]; try reflexivity.
  intros L. apply Qle_bool_iff in L. apply Qle_bool_iff.
  rewrite !Qred_correct. lra.
Qed.

Lemma num_div_mono r u v :
  (0 < r)%Q -> num_leb u v = true ->
  num_leb (num_div u (Fin r)) (num_div v (Fin r)) = true.
Proof.
  intros Hr.
  destruct u as [x | | |], v as [y | | |]; try discriminate;
    cbn [num_div num_leb]; rewrite ?Qeq_bool_pos, ?Qsign_pos by exact Hr;
    try reflexivity.
  intros L. apply Qle_bool_iff in L. apply Qle_bool_iff.
  rewrite !Qred_correct. unfold Qdiv. apply Qmult_le_compat_r.
  - lra.
  - apply Qlt_le_weak, Qinv_lt_0_compat, Hr.
Qed.

(** Shifting by a finite number and dividing by a positive one, each
    followed by its rounding, keeps the order of numbers. *)
Lemma shift_scale_monotone a r u v :
  (0 < r)%Q -> num_leb u v = true ->
  num_leb (double (num_div (double (num_sub u (Fin a))) (Fin r)))
          (double (num_div (double (num_sub v (Fin a))) (Fin r))) = true.
Proof.
  intros Hr L.
  now apply double_mono, num_div_mono, double_mono, num_sub_mono.
Qed.

Lemma num_eqb_zero r : num_eqb (Fin r) (ofZ 0) = Qeq_bool r 0.
Proof. reflexivity. Qed.

(** The scale with a range that does not overflow. *)

Lemma scale_of_bounds_monotone a b u v :
  (a <= b)%Q -> (b - a < overflow64)%Q -> num_leb u v = true ->
  num_leb (scale_of_bounds a b (Some u)) (scale_of_bounds a b (Some v)) = true.
Proof.
  intros Hab Ho L. unfold scale_of_bounds. cbv zeta.
  destruct (round64_finite (Qred (b - a))) as (r & -> & Hr);
    [rewrite Qred_correct; lra | rewrite Qred_correct; exact Ho |].
  rewrite num_eqb_zero.
  destruct (Qeq_bool r 0) eqn:E; [reflexivity |].
  apply clamp01_monotone, shift_scale_monotone; [| exact L].
  apply Qeq_bool_neq in E. lra.
Qed.

Lemma scale_of_bounds_low a b x :
  binary64 a -> binary64 b -> (a < b)%Q -> (x == a)%Q ->
  scale_of_bounds a b (Some (Fin x)) = ofZ 0.
Proof.
  intros Ba Bb Hab Hx. unfold scale_of_bounds. cbv zeta.
  rewrite (round64_compat _ _ (Qred_correct (b - a))).
  assert (Z0 : double (num_sub (Fin x) (Fin a)) = Fin 0).
  { cbn [num_sub double].
    rewrite (round64_compat _ 0); [reflexivity |]. rewrite Qred_correct. lra. }
  rewrite Z0.
  destruct (round64_sub_pos a b Ba Bb Hab) as [-> | (r & -> & Hr)].
  - reflexivity.
  - rewrite num_eqb_zero, (Qeq_bool_pos _ Hr). cbn [num_div].
    rewrite (Qeq_bool_pos _ Hr). cbn [double].
    rewrite (round64_compat _ 0); [reflexivity |].
    rewrite Qred_correct. field. lra.
Qed.

Lemma scale_of_bounds_high a b x :
  binary64 a -> binary64 b -> (a < b)%Q -> (b - a < overflow64)%Q ->
  (x == b)%Q -> scale_of_bounds a b (Some (Fin x)) = ofZ 1.
Proof.
  intros Ba Bb Hab Ho Hx. unfold scale_of_bounds. cbv zeta.
  assert (R : double (num_sub (Fin x) (Fin a)) = round64 (Qred (b - a))).
  { cbn [num_sub double]. apply round64_compat.
    rewrite !Qred_correct. lra. }
  rewrite R, (round64_compat _ _ (Qred_correct (b - a))).
  destruct (round64_sub_pos a b Ba Bb Hab) as [I | (r & -> & Hr)].
  - exfalso. destruct (round64_finite (b - a)) as (r & F & _);
      [lra | exact Ho | congruence].
  - rewrite num_eqb_zero, (Qeq_bool_pos _ Hr). cbn [num_div].
    rewrite (Qeq_bool_pos _ Hr). cbn [double].
    rewrite (round64_compat _ 1); [reflexivity |].
    rewrite Qred_correct. field. lra.
Qed.

Lemma scale_of_bounds_flat a b v :
  (a == b)%Q -> scale_of_bounds a b (Some v) = ofZ 1.
Proof.
  intros Hab. unfold scale_of_bounds. cbv zeta.
  rewrite (round64_compat _ 0); [reflexivity |]. rewrite Qred_correct. lra.
Qed.

(** The scale with a range that overflows: the largest value has no
    intensity. *)
Lemma scale_of_bounds_overflow a b x :
  (overflow64 <= b - a)%Q -> (x == b)%Q ->
  scale_of_bounds a b (Some (Fin x)) = NaN.
Proof.
  intros Ho Hx. unfold scale_of_bounds. cbv zeta.
  assert (R : double (num_sub (Fin x) (Fin a)) = PosInf).
  { cbn [num_sub double]. apply round64_overflow.
    rewrite Qred_correct. lra. }
  rewrite R, round64_overflow by (rewrite Qred_correct; exact Ho).
  reflexivity.
Qed.

Lemma finite_value_dec (values : list number) :
  (exists q, In (Fin q) values) \/ (forall q, ~ In (Fin q) values).
Proof.
  induction values as [| v l [(q & I) | N]].
  - right. intros q [].
  - left. exists q. now right.
  - destruct v as [q | | |]; [left; exists q; now left | right ..];
      intros q [E | I]; try discriminate; now apply (N q).
Qed.

Lemma range_fits_bounds values a b :
  range_fits values -> (a <= b)%Q ->
  ((forall q, ~ In (Fin q) values) -> a = 0%Q /\ b = 0%Q) ->
  ((exists q, In (Fin q) values) -> In (Fin a) values /\ In (Fin b) values) ->
  (b - a < overflow64)%Q.
Proof.
  intros F Hab Hn Hs.
  destruct (finite_value_dec values) as [E | N].
  - destruct (Hs E) as [Ia Ib]. exact (F a b Ia Ib).
  - destruct (Hn N) as [-> ->]. reflexivity.
Qed.

Lemma binary64_compat p q : (p == q)%Q -> binary64 p -> binary64 q.
Proof.
  unfold binary64. intros E B.
  rewrite <- (round64_compat p q E), B. f_equal. now apply Qred_complete.
Qed.

(** C4.  The claim fails on the code when the range of the values
    overflows.  For the two finite values -1e308 and 1e308 (the binary64
    numbers these literals denote), [max - min] is [+Infinity], the
    intensity of the minimum is 0 and the intensity of the maximum is
    [Infinity / Infinity], that is NaN: not 1, and not above the
    intensity of the minimum, as NaN is not ordered. *)
Theorem buildScale_range_overflow :
  let lo := double (ofZ (- 10 ^ 308)) in
  let hi := double (ofZ (10 ^ 308)) in
  let scale := intensity (buildScale [lo; hi]) in
  Number_isFinite lo = true /\ Number_isFinite hi = true
  /\ num_ltb lo hi = true
  /\ thresholds (buildScale [lo; hi]) = [lo; hi]
  /\ scale (Some lo) = ofZ 0
  /\ scale (Some hi) = NaN
  /\ num_leb (scale (Some lo)) (scale (Some hi)) = false.
Proof. vm_compute. repeat split. Qed.

(** The scale where the range does not overflow, and where it does.  For
    a list of numbers whose finite values are binary64 numbers with
    minimum [mn] and maximum [mx], the bounds of the scale are [mn] and
    [mx]; when [mx - mn] is below the overflow threshold, the intensity
    is non-decreasing on numbers (NaN is not ordered) and maps [mn] to 0
    and [mx] to 1 when [mn < mx]; it maps every value to 1 when
    [mn = mx]; and when [mx - mn] reaches the threshold, the intensity
    of [mx] is NaN. *)
Theorem scale_monotone_in_range (values : list number) (mn mx : Q) :
  In (Fin mn) values -> In (Fin mx) values ->
  (forall q, In (Fin q) values -> (mn <= q <= mx)%Q) ->
  (forall q, In (Fin q) values -> binary64 q) ->
  let scale := intensity (buildScale values) in
  (exists a b, thresholds (buildScale values) = [Fin a; Fin b]
               /\ (a == mn)%Q /\ (b == mx)%Q)
  /\ ((mx - mn < overflow64)%Q ->
      (forall x y, num_leb x y = true ->
         num_leb (scale (Some x)) (scale (Some y)) = true)
      /\ ((mn < mx)%Q ->
          scale (Some (Fin mn)) = ofZ 0 /\ scale (Some (Fin mx)) = ofZ 1))
  /\ ((mn == mx)%Q -> forall v, In v values -> scale (Some v) = ofZ 1)
  /\ ((overflow64 <= mx - mn)%Q -> scale (Some (Fin mx)) = NaN).
Proof.
  intros Imn Imx Hall Hbin scale. subst scale.
  destruct (buildScale_bounds values) as (a & b & Hab & Ht & Hi & _ & Hfin).
  destruct (Hfin (ex_intro _ mn Imn)) as (Ia & Ib & Hbnd).
  assert (Ea : (a == mn)%Q).
  { pose proof (Hall a Ia). pose proof (Hbnd mn Imn). lra. }
  assert (Eb : (b == mx)%Q).
  { pose proof (Hall b Ib). pose proof (Hbnd mx Imx). lra. }
  pose proof (Hbin a Ia) as Ba. pose proof (Hbin b Ib) as Bb.
  split; [| split; [| split]].
  - exists a, b. now repeat split.
  - intros Ho. split.
    + intros x y L. rewrite !Hi. apply scale_of_bounds_monotone; [lra | lra |].
      exact L.
    + intros Lt. rewrite !Hi. split.
      * apply scale_of_bounds_low; [assumption | assumption | lra | lra].
      * apply scale_of_bounds_high; [assumption | assumption | lra | lra | lra].
  - intros E v _. rewrite Hi. apply scale_of_bounds_flat. lra.
  - intros Ho. rewrite Hi. apply scale_of_bounds_overflow; lra.
Qed.

(** A run: the values 1, 5 and 3. *)
Lemma scale_monotone_in_range_witness :
  let scale := intensity (buildScale [ofZ 1; ofZ 5; ofZ 3]) in
  (exists a b, thresholds (buildScale [ofZ 1; ofZ 5; ofZ 3]) = [Fin a; Fin b]
               /\ (a == 1)%Q /\ (b == 5)%Q)
  /\ ((5 - 1 < overflow64)%Q ->
      (forall x y, num_leb x y = true ->
         num_leb (scale (Some x)) (scale (Some y)) = true)
      /\ ((1 < 5)%Q ->
          scale (Some (Fin 1)) = ofZ 0 /\ scale (Some (Fin 5)) = ofZ 1))
  /\ ((1 == 5)%Q ->
      forall v, In v [ofZ 1; ofZ 5; ofZ 3] -> scale (Some v) = ofZ 1)
  /\ ((overflow64 <= 5 - 1)%Q -> scale (Some (Fin 5)) = NaN).
Proof.
  apply (scale_monotone_in_range [ofZ 1; ofZ 5; ofZ 3] 1 5).
  - simpl. left. reflexivity.
  - simpl. right. left. reflexivity.
  - intros q H. simpl in H.
    destruct H as [H | [H | [H | []]]]; injection H as <-;
      split; vm_compute; discriminate.
  - intros q H. simpl in H.
    destruct H as [H | [H | [H | []]]]; injection H as <-;
      vm_compute; reflexivity.
Defined.

(** ** C1: a scale built from no finite value *)

Lemma scaleValues_none data :
  (forall d, In d data -> isFiniteNumber (dv_value d) = false) ->
  scaleValues data = [].
Proof.
  intros H. unfold scaleValues.
  induction data as [| d data IH]; [reflexivity |].
  cbn [map List.filter].
  assert (Hd := H d (or_introl eq_refl)).
  destruct (dv_value d) as [[q | | |] |]; cbn in Hd |- *; try discriminate;
    apply IH; intros d' Hd'; apply H; now right.
Qed.

(** C1, as the code has it.  When the input has no finite value, the
    bounds of the scale are both 0, the intensity of an absent value is 0
    and the intensity of every number is 1. *)
Theorem no_finite_value_scale (data : list DayValue) :
  (forall d, In d data -> isFiniteNumber (dv_value d) = false) ->
  let scale := buildScale (scaleValues data) in
  thresholds scale = [ofZ 0; ofZ 0]
  /\ intensity scale None = ofZ 0
  /\ forall v : number, intensity scale (Some v) = ofZ 1.
Proof.
  intros H. rewrite (scaleValues_none data H). cbv zeta.
  split; [reflexivity |]. split; [reflexivity |]. intros v. reflexivity.
Qed.

(** A run: one day without a value and one whose value is NaN. *)
Lemma no_finite_value_scale_witness :
  let scale :=
    buildScale (scaleValues [mkDayValue "2025-02-10" None;
                             mkDayValue "2025-02-11" (Some NaN)]) in
  thresholds scale = [ofZ 0; ofZ 0]
  /\ intensity scale None = ofZ 0
  /\ forall v : number, intensity scale (Some v) = ofZ 1.
Proof.
  apply (no_finite_value_scale [mkDayValue "2025-02-10" None;
                                mkDayValue "2025-02-11" (Some NaN)]).
  intros d H. simpl in H. destruct H as [<- | [<- | []]]; reflexivity.
Defined.

(** C1 as stated fails: with no finite value in the input the scale does
    not return 0 for the number 5. *)
Lemma no_finite_value_scale_not_zero :
  forallb (fun d => negb (isFiniteNumber (dv_value d)))
    [mkDayValue "2025-02-10" None; mkDayValue "2025-02-11" (Some NaN)] = true
  /\ intensity
       (buildScale (scaleValues [mkDayValue "2025-02-10" None;
                                 mkDayValue "2025-02-11" (Some NaN)]))
       (Some (ofZ 5)) <> ofZ 0.
Proof. split; [reflexivity | vm_compute; discriminate]. Qed.

(** ** The color mixer *)

Lemma hex_char_facts c v :
  hex_value c = Some v ->
  is_space c = false /\ Ascii.eqb c "-" = false /\ Ascii.eqb c "+" = false
  /\ Ascii.eqb c "x" = false /\ Ascii.eqb c "X" = false
  /\ Ascii.eqb c "#" = false /\ 0 <= v <= 15.
Proof.
  destruct c as [[] [] [] [] [] [] [] []]; vm_compute; intros H;
    try discriminate H; injection H as <-;
    repeat split; discriminate.
Qed.

Lemma hex_digits_cons c rest ds :
  hex_digits (String c rest) = Some ds ->
  exists v vs, ds = v :: vs /\ hex_value c = Some v /\ hex_digits rest = Some vs.
Proof.
  cbn [hex_digits]. destruct (hex_value c) as [v |]; [| discriminate].
  destruct (hex_digits rest) as [vs |]; [| discriminate].
  intros [= <-]. now exists v, vs.
Qed.

Lemma hex_digits_nil s : hex_digits s = Some [] -> s = "".
Proof.
  destruct s as [| c rest]; [reflexivity |]. intros H.
  apply hex_digits_cons in H. destruct H as (v & vs & E & _). discriminate.
Qed.

Lemma remove_first_hex s ds : hex_digits s = Some ds -> remove_first "#" s = s.
Proof.
  revert ds. induction s as [| c rest IH]; intros ds H; [reflexivity |].
  apply hex_digits_cons in H. destruct H as (v & vs & _ & Hv & Hr).
  cbn [remove_first].
  destruct (hex_char_facts c v Hv) as (_ & _ & _ & _ & _ & -> & _).
  f_equal. exact (IH vs Hr).
Qed.

(** The value [parseInt] reads from six hexadecimal digits. *)
Lemma parseInt16_six c1 c2 c3 c4 c5 c6 v1 v2 v3 v4 v5 v6 :
  hex_value c1 = Some v1 -> hex_value c2 = Some v2 -> hex_value c3 = Some v3 ->
  hex_value c4 = Some v4 -> hex_value c5 = Some v5 -> hex_value c6 = Some v6 ->
  parseInt16 (String c1 (String c2 (String c3 (String c4 (String c5
                (String c6 ""))))))
  = ofZ (16 * (16 * (16 * (16 * (16 * (16 * 0 + v1) + v2) + v3) + v4) + v5) + v6).
Proof.
  intros H1 H2 H3 H4 H5 H6. unfold parseInt16.
  destruct (hex_char_facts c1 v1 H1) as (S1 & M1 & P1 & _).
  destruct (hex_char_facts c2 v2 H2) as (_ & _ & _ & X2 & XX2 & _).
  cbn [skip_spaces]. rewrite S1. cbn [strip_sign]. rewrite M1, P1.
  cbn [strip_0x]. rewrite X2, XX2. cbn [orb]. rewrite andb_false_r.
  cbn [hex_prefix]. rewrite H1. cbn [hex_prefix default].
  rewrite H2. cbn [hex_prefix default]. rewrite H3. cbn [hex_prefix default].
  rewrite H4. cbn [hex_prefix default]. rewrite H5. cbn [hex_prefix default].
  rewrite H6. reflexivity.
Qed.

Lemma ToInt32_small n : 0 <= n < 2 ^ 31 -> ToInt32 (ofZ n) = n.
Proof.
  intros H. unfold ToInt32. rewrite toInteger_ofZ.
  rewrite Z.mod_small by lia.
  destruct (Z.leb_spec (2 ^ 31) n); [lia | reflexivity].
Qed.

Lemma channels_of_six v1 v2 v3 v4 v5 v6 :
  0 <= v1 <= 15 -> 0 <= v2 <= 15 -> 0 <= v3 <= 15 ->
  0 <= v4 <= 15 -> 0 <= v5 <= 15 -> 0 <= v6 <= 15 ->
  let n := 16 * (16 * (16 * (16 * (16 * (16 * 0 + v1) + v2) + v3) + v4) + v5) + v6 in
  Z.land (Z.shiftr (ToInt32 (ofZ n)) 16) 255 = 16 * v1 + v2
  /\ Z.land (Z.shiftr (ToInt32 (ofZ n)) 8) 255 = 16 * v3 + v4
  /\ Z.land (ToInt32 (ofZ n)) 255 = 16 * v5 + v6.
Proof.
  intros B1 B2 B3 B4 B5 B6 n.
  assert (Hn : 0 <= n < 2 ^ 31) by (subst n; lia).
  rewrite (ToInt32_small n Hn).
  change 255 with (Z.ones 8). rewrite !Z.land_ones by lia.
  rewrite !Z.shiftr_div_pow2 by lia.
  change (2 ^ 16) with 65536. change (2 ^ 8) with 256.
  subst n. repeat split; divmod.
Qed.

Lemma hexToRgb_valid hex r g b :
  color_channels hex = Some (r, g, b) ->
  hexToRgb hex = (ofZ r, ofZ g, ofZ b)
  /\ 0 <= r <= 255 /\ 0 <= g <= 255 /\ 0 <= b <= 255.
Proof.
  unfold color_channels. intros H.
  set (body := match hex with
               | String c rest => if Ascii.eqb c "#" then rest else hex
               | EmptyString => hex
               end) in *.
  destruct (hex_digits body) as [ds |] eqn:D; [| discriminate].
  assert (R : remove_first "#" hex = body).
  { subst body. destruct hex as [| c rest]; [reflexivity |].
    destruct (Ascii.eqb c "#") eqn:E.
    - cbn [remove_first]. now rewrite E.
    - exact (remove_first_hex _ _ D). }
  unfold hexToRgb. rewrite R. clearbody body. clear R hex.
  destruct body as [| c1 [| c2 [| c3 body]]];
    repeat match goal with
      | X : hex_digits (String _ _) = Some _ |- _ =>
          apply hex_digits_cons in X; destruct X as (? & ? & -> & ? & ?)
      | X : hex_digits "" = Some _ |- _ => injection X as <-
      end; try discriminate.
  destruct body as [| c4 [| c5 [| c6 body]]];
    repeat match goal with
      | X : hex_digits (String _ _) = Some _ |- _ =>
          apply hex_digits_cons in X; destruct X as (? & ? & -> & ? & ?)
      | X : hex_digits "" = Some _ |- _ => injection X as <-
      end; try discriminate.
  - (* three digits *)
    cbn [String.length Nat.eqb double_chars].
    injection H as <- <- <-.
    repeat match goal with
      | X : hex_value _ = Some _ |- _ =>
          pose proof (hex_char_facts _ _ X) as (_ & _ & _ & _ & _ & _ & ?);
          revert X
      end. intros.
    erewrite parseInt16_six by eassumption.
    edestruct channels_of_six as (-> & -> & ->); [eassumption .. |].
    repeat split; lia.
  - (* six digits *)
    destruct body as [| c7 body];
      repeat match goal with
        | X : hex_digits (String _ _) = Some _ |- _ =>
            apply hex_digits_cons in X; destruct X as (? & ? & -> & ? & ?)
        | X : hex_digits "" = Some _ |- _ => injection X as <-
        end; try discriminate.
    cbn [String.length Nat.eqb].
    injection H as <- <- <-.
    repeat match goal with
      | X : hex_value _ = Some _ |- _ =>
          pose proof (hex_char_facts _ _ X) as (_ & _ & _ & _ & _ & _ & ?);
          revert X
      end. intros.
    erewrite parseInt16_six by eassumption.
    edestruct channels_of_six as (-> & -> & ->); [eassumption .. |].
    repeat split; lia.
Qed.

Lemma nearest_integer_unique n k x :
  nearest_integer n x -> (x == inject_Z k)%Q -> n = k.
Proof.
  unfold nearest_integer. intros [Lo Hi] E. rewrite E in Lo, Hi.
  unfold Qle, Qlt, Qminus, Qplus, Qopp, inject_Z in Lo, Hi.
  cbn [Qnum Qden] in Lo, Hi. lia.
Qed.

Lemma Math_round_nearest x : nearest_integer (Qfloor (x + (1 # 2))) x.
Proof.
  unfold nearest_integer.
  pose proof (Qfloor_le (x + (1 # 2))) as Lo.
  pose proof (Qlt_floor (x + (1 # 2))) as Hi.
  rewrite inject_Z_plus in Hi. change (inject_Z 1) with 1%Q in Hi.
  split; lra.
Qed.

Lemma nearest_integer_compat n x y :
  (x == y)%Q -> nearest_integer n x -> nearest_integer n y.
Proof. unfold nearest_integer. intros E [Lo Hi]. rewrite <- E. now split. Qed.

(** *** The mixer in binary64 *)

Lemma round64_fin_le a b r s :
  round64 a = Fin r -> round64 b = Fin s -> (a <= b)%Q -> (r <= s)%Q.
Proof.
  intros Ea Eb L. pose proof (round64_mono a b L) as M.
  rewrite Ea, Eb in M. now apply Qle_bool_iff.
Qed.

Lemma round64_bounded a K :
  0 <= K <= 1000 -> (- inject_Z (2 ^ K) <= a <= inject_Z (2 ^ K))%Q ->
  exists r, round64 a = Fin r
            /\ (- inject_Z (2 ^ K) <= r <= inject_Z (2 ^ K))%Q.
Proof.
  intros HK [Lo Hi]. pose proof (Qpow2_pos K ltac:(lia)) as P.
  destruct (Qlt_le_dec a 0) as [N | N].
  - destruct (round64_near (- a) K HK) as (r & E & R & _); [lra |].
    assert (Ca : (a ?= 0)%Q = Lt) by now apply Qlt_alt.
    assert (Cn : (- a ?= 0)%Q = Gt) by (apply Qgt_alt; lra).
    unfold round64 in E |- *. rewrite Cn in E. rewrite Ca, E.
    cbn [num_opp]. eexists. split; [reflexivity |].
    rewrite Qred_correct. lra.
  - destruct (round64_near a K HK) as (r & E & R & _); [lra |].
    exists r. split; [exact E | lra].
Qed.

Lemma pow2_901 : (inject_Z (2 ^ 900) + 1 <= inject_Z (2 ^ 901))%Q.
Proof. vm_compute. discriminate. Qed.

Lemma pow2_909 : (255 * inject_Z (2 ^ 901) <= inject_Z (2 ^ 909))%Q.
Proof. vm_compute. discriminate. Qed.

Lemma pow2_910 : (255 + inject_Z (2 ^ 909) <= inject_Z (2 ^ 910))%Q.
Proof. vm_compute. discriminate. Qed.

Lemma channel_Q c :
  0 <= c <= 255 ->
  (0 <= inject_Z c <= 255)%Q /\ (0 <= inject_Z (255 - c) <= 255)%Q
  /\ (inject_Z (255 - c) == 255 - inject_Z c)%Q.
Proof.
  intros H. change 0%Q with (inject_Z 0). change 255%Q with (inject_Z 255).
  rewrite <- !Zle_Qle. repeat split; try lia.
  unfold Z.sub. rewrite inject_Z_plus, inject_Z_opp. reflexivity.
Qed.

(** The three rounded steps of one channel, for an intensity of
    magnitude at most 2^900: each gives a finite number. *)
Lemma mix_channel_run c t :
  0 <= c <= 255 -> (- inject_Z (2 ^ 900) <= t <= inject_Z (2 ^ 900))%Q ->
  exists w p s : Q,
    round64 (1 - t) = Fin w
    /\ round64 (inject_Z (255 - c) * w) = Fin p
    /\ round64 (inject_Z c + p) = Fin s
    /\ mix_channel (ofZ c) (Fin t) = ofZ (Qfloor (s + (1 # 2))).
Proof.
  intros Hc Ht. destruct (channel_Q c Hc) as (C1 & C2 & _).
  pose proof pow2_901 as P1. pose proof pow2_909 as P2.
  pose proof pow2_910 as P3.
  destruct (round64_bounded (1 - t) 901 ltac:(lia)) as (w & Ew & Rw);
    [lra |].
  destruct (round64_bounded (inject_Z (255 - c) * w) 909 ltac:(lia))
    as (p & Ep & Rp).
  { set (k := inject_Z (255 - c)) in *. set (B := inject_Z (2 ^ 901)) in *.
    clearbody k B. split; nra. }
  destruct (round64_bounded (inject_Z c + p) 910 ltac:(lia)) as (s & Es & Rs);
    [lra |].
  exists w, p, s. repeat (split; [assumption |]).
  unfold mix_channel. rewrite num_sub_ofZ, double_ofZ by lia.
  cbn [ofZ num_sub double].
  rewrite (round64_compat _ (1 - t)) by (rewrite Qred_correct; reflexivity).
  rewrite Ew. cbn [ofZ num_mul double].
  rewrite (round64_compat _ (inject_Z (255 - c) * w))
    by (rewrite Qred_correct; reflexivity).
  rewrite Ep. cbn [ofZ num_add double].
  rewrite (round64_compat _ (inject_Z c + p))
    by (rewrite Qred_correct; reflexivity).
  rewrite Es. reflexivity.
Qed.


Lemma Qfloor_half_bounds s lo hi :
  (inject_Z lo <= s <= inject_Z hi)%Q -> lo <= Qfloor (s + (1 # 2)) <= hi.
Proof.
  intros [Lo Hi].
  pose proof (Math_round_nearest s) as [A B].
  assert (Q1 : (inject_Z lo < inject_Z (Qfloor (s + (1 # 2))) + 1)%Q) by lra.
  assert (Q2 : (inject_Z (Qfloor (s + (1 # 2))) < inject_Z hi + 1)%Q) by lra.
  change 1%Q with (inject_Z 1) in Q1, Q2.
  rewrite <- inject_Z_plus, <- Zlt_Qlt in Q1, Q2. lia.
Qed.

Lemma pow2_fuzz :
  (inject_Z (2 ^ 0) / inject_Z (2 ^ 54) == 1 # 18014398509481984)%Q
  /\ (inject_Z (2 ^ 8) / inject_Z (2 ^ 54) == 1 # 70368744177664)%Q
  /\ (inject_Z (2 ^ 0) == 1)%Q /\ (inject_Z (2 ^ 8) == 256)%Q.
Proof. repeat split. Qed.

(** One channel of the mix for an intensity from 0 to 1. *)
Lemma mix_channel_near c t :
  0 <= c <= 255 -> (0 <= t <= 1)%Q ->
  exists n, mix_channel (ofZ c) (Fin t) = ofZ n /\ mixed_channel c t n.
Proof.
  intros Hc Ht. destruct (channel_Q c Hc) as (C1 & C2 & C3).
  assert (T9 : (- inject_Z (2 ^ 900) <= t <= inject_Z (2 ^ 900))%Q).
  { pose proof pow2_901. pose proof (Qpow2_pos 900 ltac:(lia)).
    assert ((1 <= inject_Z (2 ^ 900))%Q) by (vm_compute; discriminate).
    lra. }
  destruct (mix_channel_run c t Hc T9) as (w & p & s & Ew & Ep & Es & M).
  destruct pow2_fuzz as (F0 & F8 & O0 & O8).
  (* first rounding *)
  destruct (round64_near (1 - t) 0 ltac:(lia)) as (w' & Ew' & Rw & Aw & Bw);
    [rewrite O0; lra |].
  rewrite Ew in Ew'. injection Ew' as <-. rewrite O0 in Rw.
  rewrite F0 in Aw, Bw.
  (* second rounding *)
  assert (Xp : (0 <= inject_Z (255 - c) * w <= inject_Z (255 - c))%Q).
  { set (k := inject_Z (255 - c)) in *. clearbody k. split; nra. }
  destruct (round64_near (inject_Z (255 - c) * w) 8 ltac:(lia))
    as (p' & Ep' & Rp & Ap & Bp); [rewrite O8; lra |].
  rewrite Ep in Ep'. injection Ep' as <-. rewrite F8 in Ap, Bp.
  assert (Pk : (p <= inject_Z (255 - c))%Q).
  { apply (round64_fin_le (inject_Z (255 - c) * w) (inject_Z (255 - c)) p
             (inject_Z (255 - c)) Ep); [| lra].
    now rewrite round64_ofZ by lia. }
  (* third rounding *)
  destruct (round64_near (inject_Z c + p) 8 ltac:(lia))
    as (s' & Es' & Rs & As & Bs); [rewrite O8; lra |].
  rewrite Es in Es'. injection Es' as <-. rewrite F8 in As, Bs.
  assert (Sc : (inject_Z c <= s)%Q).
  { apply (round64_fin_le (inject_Z c) (inject_Z c + p) (inject_Z c) s);
      [now rewrite round64_ofZ by lia | exact Es | lra]. }
  assert (S255 : (s <= inject_Z 255)%Q).
  { apply (round64_fin_le (inject_Z c + p) (inject_Z 255) s (inject_Z 255) Es);
      [now rewrite round64_ofZ by lia |].
    change (inject_Z 255) with 255%Q. lra. }
  set (n := Qfloor (s + (1 # 2))) in *.
  pose proof (Math_round_nearest s) as [N1 N2]. fold n in N1, N2.
  assert (D1 : (s - mix_exact c t <= 3 # 70368744177664)%Q
               /\ (mix_exact c t - s <= 3 # 70368744177664)%Q).
  { unfold mix_exact. rewrite <- C3.
    set (k := inject_Z (255 - c)) in *. clearbody k.
    assert (E1 : (k * (w - (1 - t)) <= 255 * (1 # 18014398509481984))%Q)
      by nra.
    assert (E2 : (k * ((1 - t) - w) <= 255 * (1 # 18014398509481984))%Q)
      by nra.
    split; lra. }
  destruct D1 as [D1 D2].
  exists n. split; [exact M |]. unfold mixed_channel, mix_fuzz.
  split; [apply Qfloor_half_bounds; now split |].
  split; [lra |]. split; [lra |].
  intros Far. unfold nearest_integer. unfold mix_fuzz in Far. split.
  - destruct (Far (n - 1)) as [F | F];
      unfold Z.sub in F; rewrite inject_Z_plus, inject_Z_opp in F;
      change (inject_Z 1) with 1%Q in F; lra.
  - destruct (Far n) as [F | F]; lra.
Qed.

Lemma mixed_channel_white c n : mixed_channel c 0 n -> n = 255.
Proof.
  unfold mixed_channel, mix_exact, mix_fuzz. intros ([_ Hi] & A & B & _).
  assert (Q : (inject_Z 255 < inject_Z n + 1)%Q)
    by (change (inject_Z 255) with 255%Q; lra).
  change 1%Q with (inject_Z 1) in Q.
  rewrite <- inject_Z_plus, <- Zlt_Qlt in Q. lia.
Qed.

Lemma mixed_channel_base c n : mixed_channel c 1 n -> n = c.
Proof.
  unfold mixed_channel, mix_exact, mix_fuzz. intros ([Lo _] & A & B & _).
  assert (Q : (inject_Z n < inject_Z c + 1)%Q) by lra.
  change 1%Q with (inject_Z 1) in Q.
  rewrite <- inject_Z_plus, <- Zlt_Qlt in Q. lia.
Qed.

Lemma mixed_channel_compat c t t' n :
  (t == t')%Q -> mixed_channel c t n -> mixed_channel c t' n.
Proof.
  unfold mixed_channel, nearest_integer, mix_exact.
  intros E (R & A & B & N). rewrite <- E.
  repeat (split; [assumption |]).
  intros Far. apply N. intros k. specialize (Far k). now rewrite E.
Qed.

(** C9.  The claim holds in the amended form: for a valid base color with
    channels [r], [g], [b] (an optional ["#"], then six hexadecimal
    digits, or three digits each doubled) and an intensity [t] from 0 to
    1, [mixToWhite] prints three integers, each from the base channel [c]
    to 255, within 1/2 + 2^-44 of [c + (255 - c) * (1 - t)], and the
    nearest integer to it when that value is farther than 2^-44 from
    every half-integer; at intensity 0 the result is white and at
    intensity 1 it is the base color. *)
Theorem mixToWhite_interpolates (hex : string) (r g b : Z) (t : Q) :
  color_channels hex = Some (r, g, b) -> (0 <= t <= 1)%Q ->
  exists rr gg bb : Z,
    mixToWhite hex (Fin t) = rgb_string rr gg bb
    /\ mixed_channel r t rr /\ mixed_channel g t gg /\ mixed_channel b t bb
    /\ ((t == 0)%Q -> mixToWhite hex (Fin t) = "rgb(255, 255, 255)")
    /\ ((t == 1)%Q -> mixToWhite hex (Fin t) = rgb_string r g b).
Proof.
  intros H Ht. destruct (hexToRgb_valid hex r g b H) as (E & Rr & Rg & Rb).
  destruct (mix_channel_near r t Rr Ht) as (rr & Er & Nr).
  destruct (mix_channel_near g t Rg Ht) as (gg & Eg & Ng).
  destruct (mix_channel_near b t Rb Ht) as (bb & Eb & Nb).
  assert (M : mixToWhite hex (Fin t) = rgb_string rr gg bb).
  { unfold mixToWhite. rewrite E, Er, Eg, Eb.
    now rewrite !numToString_ofZ. }
  exists rr, gg, bb. split; [exact M |].
  split; [exact Nr |]. split; [exact Ng |]. split; [exact Nb |]. split.
  - intros T. rewrite M.
    rewrite (mixed_channel_white r rr (mixed_channel_compat _ _ _ _ T Nr)).
    rewrite (mixed_channel_white g gg (mixed_channel_compat _ _ _ _ T Ng)).
    rewrite (mixed_channel_white b bb (mixed_channel_compat _ _ _ _ T Nb)).
    reflexivity.
  - intros T. rewrite M.
    rewrite (mixed_channel_base r rr (mixed_channel_compat _ _ _ _ T Nr)).
    rewrite (mixed_channel_base g gg (mixed_channel_compat _ _ _ _ T Ng)).
    rewrite (mixed_channel_base b bb (mixed_channel_compat _ _ _ _ T Nb)).
    reflexivity.
Qed.

(** A run: the default base color at intensity one half. *)
Lemma mixToWhite_interpolates_witness :
  exists rr gg bb : Z,
    mixToWhite "#3b82f6" (Fin (1 # 2)) = rgb_string rr gg bb
    /\ mixed_channel 59 (1 # 2) rr /\ mixed_channel 130 (1 # 2) gg
    /\ mixed_channel 246 (1 # 2) bb
    /\ (((1 # 2) == 0)%Q ->
        mixToWhite "#3b82f6" (Fin (1 # 2)) = "rgb(255, 255, 255)")
    /\ (((1 # 2) == 1)%Q ->
        mixToWhite "#3b82f6" (Fin (1 # 2)) = rgb_string 59 130 246).
Proof.
  apply (mixToWhite_interpolates "#3b82f6" 59 130 246 (1 # 2)).
  - reflexivity.
  - split; discriminate.
Defined.

(** The claim as stated fails: at the intensity 0.1 (the binary64 number
    this literal denotes, a little above one tenth) the exact value of a
    channel of black is a little below 229.5, whose nearest integer is
    229; the product [255 * (1 - t)] rounds to 229.5 and the mixer prints
    230. *)
Lemma mixToWhite_tenth_not_nearest :
  binary64 (3602879701896397 # 36028797018963968)
  /\ (0 <= 3602879701896397 # 36028797018963968 <= 1)%Q
  /\ color_channels "#000000" = Some (0, 0, 0)
  /\ mixToWhite "#000000" (Fin (3602879701896397 # 36028797018963968))
     = "rgb(230, 230, 230)"
  /\ nearest_integer 229
       (inject_Z 0
        + (255 - inject_Z 0) * (1 - (3602879701896397 # 36028797018963968)))
  /\ ~ nearest_integer 230
       (inject_Z 0
        + (255 - inject_Z 0) * (1 - (3602879701896397 # 36028797018963968))).
Proof.
  split; [vm_compute; reflexivity |].
  split; [split; discriminate |].
  split; [reflexivity |].
  split; [vm_compute; reflexivity |].
  unfold nearest_integer. split.
  - split; [vm_compute; discriminate | reflexivity].
  - intros [A _]. vm_compute in A. apply A. reflexivity.
Qed.

Example mixToWhite_white : mixToWhite "#3b82f6" (ofZ 0) = "rgb(255, 255, 255)".
Proof. vm_compute. reflexivity. Qed.

Example mixToWhite_base_short : mixToWhite "#abc" (ofZ 1) = "rgb(170, 187, 204)".
Proof. vm_compute. reflexivity. Qed.

(** ** C3: cell dimensions *)

(** When the dimensions that are given are finite and not zero,
    [resolveCellDimensions] follows the rule of the specification. *)
Lemma resolveCellDimensions_rule (size : option CalendarHeatmapCellSize)
    (fallback : number) :
  resolveCellDimensions size fallback
  = match size with
    | Some (SizeNumber n) =>
        if Number_isFinite n then mkDimensions n n
        else mkDimensions fallback fallback
    | Some (SizeObject w h) =>
        let present (d : option number) :=
          isFiniteNumber d && truthyOpt d in
        match present w, present h with
        | true, true => mkDimensions (default NaN w) (default NaN h)
        | true, false => mkDimensions (default NaN w) (default NaN w)
        | false, true => mkDimensions (default NaN h) (default NaN h)
        | false, false => mkDimensions fallback fallback
        end
    | None => mkDimensions fallback fallback
    end.
Proof.
  destruct size as [[n | [w |] [h |]] |]; cbn; try reflexivity.
  - destruct (Number_isFinite w), (Number_isFinite h), (truthy w), (truthy h);
      reflexivity.
  - destruct (Number_isFinite w), (truthy w); reflexivity.
  - destruct (Number_isFinite h), (truthy h); reflexivity.
Qed.

(** C3 at a zero width: the object [{ width: 0, height: 5 }] has both
    dimensions, yet the result is the square of side 5, not 0 by 5. *)
Theorem resolveCellDimensions_zero_width :
  resolveCellDimensions (Some (SizeObject (Some (ofZ 0)) (Some (ofZ 5)))) (ofZ 44)
  = mkDimensions (ofZ 5) (ofZ 5).
Proof. reflexivity. Qed.

Example resolveCellDimensions_zero_only :
  resolveCellDimensions (Some (SizeObject (Some (ofZ 0)) None)) (ofZ 44)
  = mkDimensions (ofZ 44) (ofZ 44).
Proof. reflexivity. Qed.

Example resolveCellDimensions_zero_number :
  resolveCellDimensions (Some (SizeNumber (ofZ 0))) (ofZ 44)
  = mkDimensions (ofZ 0) (ofZ 0).
Proof. reflexivity. Qed.

(** ** C5: the legend *)



(** ** C10: the value index *)

Lemma dateValueMap_fold (l : list DayValue) : forall (m : gmap string (option number)) d,
  (forall dv, In dv l -> dv_date dv <> d) ->
  fold_left
    (fun m dv =>
       <[dv_date dv := if isFiniteNumber (dv_value dv) then dv_value dv
                       else None]> m) l m !! d
  = m !! d.
Proof.
  induction l as [| dv l IH]; intros m d H; [reflexivity |].
  cbn [fold_left]. rewrite IH by (intros dv' I; apply H; now right).
  apply lookup_insert_ne. apply H. now left.
Qed.

(** C10.  The value index maps a date to the normalized value of the
    last entry of the input with that date: that entry's value when it
    is a finite number, absent when the entry has no value or its value
    is NaN or an infinity. *)
Theorem dateValueMap_last_wins (before after : list DayValue)
    (d : string) (v : option number) :
  (forall dv, In dv after -> dv_date dv <> d) ->
  dateValueMap (before ++ mkDayValue d v :: after)%list !! d
  = Some (normalized v).
Proof.
  intros H. unfold dateValueMap.
  rewrite fold_left_app. cbn [fold_left].
  rewrite dateValueMap_fold by exact H.
  cbn [dv_date dv_value]. rewrite lookup_insert_eq.
  now destruct v as [[q | | |] |].
Qed.

(** A run: two entries for one date, the last one not finite, then
    another date. *)
Lemma dateValueMap_last_wins_witness :
  dateValueMap ([mkDayValue "2025-02-10" (Some (ofZ 1))]
                ++ mkDayValue "2025-02-10" (Some PosInf)
                   :: [mkDayValue "2025-02-11" (Some (ofZ 7))])%list
    !! "2025-02-10"
  = Some (normalized (Some PosInf)).
Proof.
  apply (dateValueMap_last_wins [mkDayValue "2025-02-10" (Some (ofZ 1))]
           [mkDayValue "2025-02-11" (Some (ofZ 7))] "2025-02-10"
           (Some PosInf)).
  intros dv H. simpl in H. destruct H as [<- | []]. simpl. discriminate.
Defined.

Lemma dateValueMap_absent (data : list DayValue) (d : string) :
  (forall dv, In dv data -> dv_date dv <> d) -> dateValueMap data !! d = None.
Proof.
  intros H. unfold dateValueMap. rewrite dateValueMap_fold by exact H.
  apply lookup_empty.
Qed.

(** ** C2: the cells of an empty input *)

Lemma renderCell_no_data scale baseColor emptyColor onDayClick day :
  let c := renderCell ∅ scale baseColor emptyColor onDayClick day in
  fill c = emptyColor /\ valueForCell c = None /\ hasValue c = false
  /\ cell_intensity c = ofZ 0
  /\ interactive c = onDayClick && inMonth day
  /\ has_onClick c = onDayClick && inMonth day
  /\ cell_inMonth c = inMonth day.
Proof.
  unfold renderCell. rewrite lookup_empty.
  destruct (inMonth day), onDayClick; repeat split; reflexivity.
Qed.

(** C2, as the code has it.  When the input data is empty, every cell of
    the displayed month is filled with the empty color (the configured
    one, or the default [#FFECEC]) and has no value; a cell is
    interactive, and carries the click handler, exactly when a handler is
    passed and the cell is in the month. *)
Theorem empty_data_cells (now : Date) (activeMonthIndex : nat) (p : Props) :
  data p = [] ->
  Forall (fun c =>
            fill c = default "#FFECEC" (cell_emptyColor p)
            /\ valueForCell c = None
            /\ interactive c = onDayClick p && cell_inMonth c
            /\ has_onClick c = onDayClick p && cell_inMonth c)
         (CalendarHeatmap_cells now activeMonthIndex p).
Proof.
  intros H. unfold CalendarHeatmap_cells. rewrite H.
  change (dateValueMap []) with (∅ : gmap string (option number)).
  apply List.Forall_forall. intros c Hc.
  apply in_map_iff in Hc. destruct Hc as (day & <- & _).
  match goal with
  | |- context [renderCell ∅ ?s ?b ?e ?o day] =>
      destruct (renderCell_no_data s b e o day) as (F & V & _ & _ & I & O & M)
  end.
  rewrite F, V, I, O, M. now repeat split.
Qed.

(** A run: February 2025, no data, a click handler. *)
Lemma empty_data_cells_witness :
  Forall (fun c =>
            fill c = "#FFECEC"
            /\ valueForCell c = None
            /\ interactive c = true && cell_inMonth c
            /\ has_onClick c = true && cell_inMonth c)
         (CalendarHeatmap_cells InvalidDate 0
            (mkProps "2025-02" [] (Some "2025-02") None None None None None
               None true)).
Proof.
  apply (empty_data_cells InvalidDate 0
           (mkProps "2025-02" [] (Some "2025-02") None None None None None
              None true)).
  reflexivity.
Defined.

(** C2 as stated fails: with no data and a click handler, the cells of
    the month are interactive. *)
Lemma empty_data_cell_interactive :
  existsb (fun c => String.eqb (cell_key c) "2025-02-10"
                    && interactive c && has_onClick c)
    (CalendarHeatmap_cells InvalidDate 0
       (mkProps "2025-02" [] (Some "2025-02") None None None None None
          None true))
  = true.
Proof. vm_compute. reflexivity. Qed.

(** ** Scenarios of the specification *)

(** One value on 2025-02-10, weeks starting on Monday: the grid of
    February 2025 begins on Monday 2025-01-27, and the cell of the 10th
    has intensity 1 and the base color. *)
Example scenario_single_value :
  let p := mkProps "2025-02" [mkDayValue "2025-02-10" (Some (ofZ 100))]
             (Some "2025-02") (Some mon) None None None None None false in
  let cells := CalendarHeatmap_cells InvalidDate 0 p in
  option_map cell_key (head cells) = Some "2025-01-27"
  /\ map (fun c => (cell_intensity c, fill c))
       (List.filter (fun c => String.eqb (cell_key c) "2025-02-10") cells)
     = [(ofZ 1, "rgb(59, 130, 246)")].
Proof. split; vm_compute; reflexivity. Qed.

(** Twelve months from 2025-01 to 2025-12, each grid made of whole weeks. *)
Example scenario_year_2025 :
  map (fun g => (year g, month g, length (days g)))
    (buildMonths InvalidDate "2025-01" (Some "2025-12") sun)
  = map (fun '(m, n) => (ofZ 2025, ofZ m, n))
      [(0, 35%nat); (1, 35%nat); (2, 42%nat); (3, 35%nat); (4, 35%nat);
       (5, 35%nat); (6, 35%nat); (7, 42%nat); (8, 35%nat); (9, 35%nat);
       (10, 42%nat); (11, 35%nat)].
Proof. vm_compute. reflexivity. Qed.

(** Without an end month the sequence runs to the month of the clock. *)
Example scenario_default_end :
  map (fun g => (year g, month g))
    (buildMonths (ValidDate 20200) "2025-02" None sun)
  = [(ofZ 2025, ofZ 1); (ofZ 2025, ofZ 2); (ofZ 2025, ofZ 3)].
Proof. vm_compute. reflexivity. Qed.

(** The legend of the component is shown unless [legend.show] is false. *)
Example scenario_legend_default :
  map label
    (CalendarHeatmap_legend
       (mkProps "2025-02" [] None None None None None None (Some ["A"]) false))
  = [Some "A"; Some "Medium"; Some "High"; Some "Very High"].
Proof. reflexivity. Qed.

(** ** The limits of the year

    The bounds on the year in the theorems on the grids come from [Date]
    itself.  [addDays] rebuilds a date from its fields, and the
    constructor reads a year from 0 to 99 as 1900 + year: the grid of
    January 100 starts in December 99, whose next day is computed in
    1999, past the end of the grid; and a month of the year 50 is built
    in 1950. *)
Example year_100_grid :
  buildMonthDays (ofZ 100) (ofZ 0) sun
  = [ {| iso := "99-12-27"; inMonth := false |} ].
Proof. vm_compute. reflexivity. Qed.

Example year_50_grid_head :
  head (buildMonthDays (ofZ 50) (ofZ 0) sun)
  = Some {| iso := "1950-01-01"; inMonth := true |}.
Proof. vm_compute. reflexivity. Qed.

(** Past the last day a [Date] can hold there is no grid. *)
Example year_300000_grid : buildMonthDays (ofZ 300000) (ofZ 0) sun = [].
Proof. vm_compute. reflexivity. Qed.

(** * Further properties of the code *)

(** ** The intensity scale stays in the unit interval *)

Lemma clamp01_unit u :
  u <> NaN ->
  num_leb (ofZ 0) (clamp01 u) = true /\ num_leb (clamp01 u) (ofZ 1) = true.
Proof.
  destruct u as [x | | |]; intros H; try contradiction;
    [| split; reflexivity | split; reflexivity].
  rewrite clamp01_fin.
  destruct (Qle_bool 1 x) eqn:X1; [split; reflexivity |].
  destruct (Qle_bool 0 x) eqn:X0; [| split; reflexivity].
  apply Qle_bool_false in X1. cbn [num_leb ofZ].
  change (inject_Z 0) with 0%Q. change (inject_Z 1) with 1%Q.
  split; [exact X0 | apply Qle_bool_iff; lra].
Qed.

Lemma shift_scale_not_NaN a r v :
  (0 < r)%Q -> v <> NaN ->
  double (num_div (double (num_sub v (Fin a))) (Fin r)) <> NaN.
Proof.
  intros Hr Hv. apply double_not_NaN.
  assert (S : double (num_sub v (Fin a)) <> NaN).
  { apply double_not_NaN. destruct v; try contradiction; discriminate. }
  destruct (double (num_sub v (Fin a))) as [x | | |]; try contradiction;
    cbn [num_div]; rewrite ?Qeq_bool_pos, ?Qsign_pos by exact Hr;
    discriminate.
Qed.

Lemma scale_of_bounds_unit a b v :
  (a <= b)%Q -> (b - a < overflow64)%Q -> v <> NaN ->
  num_leb (ofZ 0) (scale_of_bounds a b (Some v)) = true
  /\ num_leb (scale_of_bounds a b (Some v)) (ofZ 1) = true.
Proof.
  intros Hab Ho Hv. unfold scale_of_bounds. cbv zeta.
  destruct (round64_finite (b - a) ltac:(lra) Ho) as (r & Er & Hr).
  rewrite (round64_compat _ (b - a)) by apply Qred_correct.
  rewrite Er, num_eqb_zero.
  destruct (Qeq_bool r 0) eqn:E; [split; reflexivity |].
  apply clamp01_unit, shift_scale_not_NaN; [| exact Hv].
  apply Qeq_bool_neq in E. lra.
Qed.

(** For an input list whose finite values are close enough for their
    range not to overflow, the intensity of an absent value is 0 and the
    intensity of a number other than NaN lies between 0 and 1. *)
Theorem intensity_unit_interval (values : list number) (v : number) :
  range_fits values -> v <> NaN ->
  intensity (buildScale values) None = ofZ 0
  /\ num_leb (ofZ 0) (intensity (buildScale values) (Some v)) = true
  /\ num_leb (intensity (buildScale values) (Some v)) (ofZ 1) = true.
Proof.
  intros Hf Hv.
  destruct (buildScale_bounds values) as (a & b & Hab & _ & Hi & Hn & Hs).
  assert (Ho : (b - a < overflow64)%Q).
  { apply (range_fits_bounds values a b Hf Hab Hn).
    intros E. destruct (Hs E) as (Ia & Ib & _). now split. }
  rewrite !Hi. split; [reflexivity |].
  now apply scale_of_bounds_unit.
Qed.

Lemma intensity_unit_interval_witness :
  intensity (buildScale [ofZ 2; ofZ 10]) None = ofZ 0
  /\ num_leb (ofZ 0) (intensity (buildScale [ofZ 2; ofZ 10]) (Some PosInf)) = true
  /\ num_leb (intensity (buildScale [ofZ 2; ofZ 10]) (Some PosInf)) (ofZ 1) = true.
Proof.
  apply (intensity_unit_interval [ofZ 2; ofZ 10] PosInf).
  - intros p q Hp Hq. simpl in Hp, Hq.
    destruct Hp as [Hp | [Hp | []]], Hq as [Hq | [Hq | []]];
      injection Hp as <-; injection Hq as <-; reflexivity.
  - discriminate.
Defined.

(** ** Colors *)

Lemma land_255_range x : 0 <= Z.land x 255 <= 255.
Proof.
  change 255 with (Z.ones 8) at 1 2. rewrite Z.land_ones by lia.
  change (2 ^ 8) with 256. divmod.
Qed.

Lemma hexToRgb_any hex :
  exists r g b : Z,
    hexToRgb hex = (ofZ r, ofZ g, ofZ b)
    /\ 0 <= r <= 255 /\ 0 <= g <= 255 /\ 0 <= b <= 255.
Proof.
  unfold hexToRgb. cbv zeta.
  eexists _, _, _. split; [reflexivity |].
  repeat split; apply land_255_range.
Qed.

(** Whatever the string, [hexToRgb] returns three integers from 0 to
    255. *)
Theorem hexToRgb_channels_in_range (hex : string) :
  exists r g b : Z,
    hexToRgb hex = (ofZ r, ofZ g, ofZ b)
    /\ 0 <= r <= 255 /\ 0 <= g <= 255 /\ 0 <= b <= 255.
Proof.
  unfold hexToRgb. cbv zeta.
  eexists _, _, _. split; [reflexivity |].
  repeat split; apply land_255_range.
Qed.

(** The three channels [mixToWhite] prints for an intensity from 0 to
    1. *)
Lemma mixToWhite_channels hex t :
  (0 <= t <= 1)%Q ->
  exists r g b rr gg bb : Z,
    hexToRgb hex = (ofZ r, ofZ g, ofZ b)
    /\ 0 <= r <= 255 /\ 0 <= g <= 255 /\ 0 <= b <= 255
    /\ mixToWhite hex (Fin t) = rgb_string rr gg bb
    /\ mixed_channel r t rr /\ mixed_channel g t gg /\ mixed_channel b t bb.
Proof.
  intros Ht.
  destruct (hexToRgb_any hex) as (r & g & b & E & Rr & Rg & Rb).
  destruct (mix_channel_near r t Rr Ht) as (rr & Er & Nr).
  destruct (mix_channel_near g t Rg Ht) as (gg & Eg & Ng).
  destruct (mix_channel_near b t Rb Ht) as (bb & Eb & Nb).
  exists r, g, b, rr, gg, bb.
  repeat (split; [assumption |]).
  split; [| split; [exact Nr | split; [exact Ng | exact Nb]]].
  unfold mixToWhite. rewrite E, Er, Eg, Eb. now rewrite !numToString_ofZ.
Qed.

Lemma ofZ_inj a b : ofZ a = ofZ b -> a = b.
Proof. unfold ofZ, inject_Z. congruence. Qed.

Lemma mixed_channel_range c t n :
  0 <= c <= 255 -> mixed_channel c t n -> 0 <= n <= 255.
Proof. intros Hc (R & _). lia. Qed.

(** Whatever the string given as base color, for an intensity from 0 to 1
    [mixToWhite] prints [rgb(r, g, b)] with three integers from 0 to
    255. *)
Theorem mixToWhite_in_gamut (hex : string) (t : Q) :
  (0 <= t <= 1)%Q ->
  exists r g b : Z,
    mixToWhite hex (Fin t) = rgb_string r g b
    /\ 0 <= r <= 255 /\ 0 <= g <= 255 /\ 0 <= b <= 255.
Proof.
  intros Ht.
  destruct (mixToWhite_channels hex t Ht)
    as (r & g & b & rr & gg & bb & _ & Rr & Rg & Rb & M & Nr & Ng & Nb).
  exists rr, gg, bb. split; [exact M |].
  split; [| split].
  - exact (mixed_channel_range r t rr Rr Nr).
  - exact (mixed_channel_range g t gg Rg Ng).
  - exact (mixed_channel_range b t bb Rb Nb).
Qed.

Lemma mixToWhite_in_gamut_witness :
  exists r g b : Z,
    mixToWhite "not a color" (Fin (1 # 3)) = rgb_string r g b
    /\ 0 <= r <= 255 /\ 0 <= g <= 255 /\ 0 <= b <= 255.
Proof.
  apply (mixToWhite_in_gamut "not a color" (1 # 3)). split; discriminate.
Defined.



(** ** The value index and the cells *)

Lemma dateValueMap_snoc (l : list DayValue) (dv : DayValue) :
  dateValueMap (l ++ [dv])%list
  = <[dv_date dv := if isFiniteNumber (dv_value dv) then dv_value dv
                    else None]> (dateValueMap l).
Proof. unfold dateValueMap. now rewrite fold_left_app. Qed.

Lemma dateValueMap_domain_index (data : list DayValue) (d : string) :
  (dateValueMap data !! d = None <-> ~ In d (map dv_date data))
  /\ (forall v, dateValueMap data !! d = Some (Some v) ->
        Number_isFinite v = true
        /\ In {| dv_date := d; dv_value := Some v |} data).
Proof.
  induction data as [| dv l [IHn IHv]] using rev_ind.
  - split.
    + split; [intros _ [] | intros _; apply lookup_empty].
    + intros v H. unfold dateValueMap in H. cbn [fold_left] in H.
      now rewrite lookup_empty in H.
  - rewrite dateValueMap_snoc, map_app.
    destruct (decide (dv_date dv = d)) as [E | N].
    + rewrite E, lookup_insert_eq. split.
      * split; [discriminate |]. intros H. exfalso. apply H.
        apply in_or_app. right. cbn. now left.
      * intros v H. destruct dv as [dd [w |]]; cbn in E, H; subst dd.
        -- destruct (Number_isFinite w) eqn:F; [| discriminate].
           injection H as ->. split; [exact F |].
           apply in_or_app. right. now left.
        -- discriminate.
    + rewrite lookup_insert_ne by exact N. split.
      * rewrite IHn. split; intros H I.
        -- apply in_app_or in I. destruct I as [I | [I | []]];
             [now apply H | now apply N].
        -- apply H. apply in_or_app. now left.
      * intros v H. destruct (IHv v H) as [F I]. split; [exact F |].
        apply in_or_app. now left.
Qed.

(** The value index holds a date exactly when an entry of the data has
    it, and a number it holds for a date is finite and is the value of an
    entry with that date: NaN and the infinities are stored as null. *)
Theorem dateValueMap_domain_finite (data : list DayValue) (d : string) :
  (dateValueMap data !! d = None <-> ~ In d (map dv_date data))
  /\ (forall v, dateValueMap data !! d = Some (Some v) ->
        Number_isFinite v = true
        /\ In {| dv_date := d; dv_value := Some v |} data).
Proof.
  split.
  - split.
    + intros H I. apply in_map_iff in I. destruct I as (dv & E & I).
      apply in_split in I. destruct I as (l1 & l2 & ->).
      revert H. clear - E. induction l2 as [| x l2 IH] using rev_ind.
      * rewrite dateValueMap_snoc, E, lookup_insert_eq. discriminate.
      * rewrite app_comm_cons, app_assoc, dateValueMap_snoc.
        destruct (decide (dv_date x = d)) as [-> | N].
        -- rewrite lookup_insert_eq. discriminate.
        -- rewrite lookup_insert_ne by exact N. exact IH.
    + intros H. apply dateValueMap_absent. intros dv I E. apply H.
      apply in_map_iff. now exists dv.
  - intros v. revert d v. induction data as [| dv l IH] using rev_ind; intros d v H.
    + unfold dateValueMap in H. cbn [fold_left] in H.
      now rewrite lookup_empty in H.
    + rewrite dateValueMap_snoc in H.
      destruct (decide (dv_date dv = d)) as [E | N].
      * rewrite E, lookup_insert_eq in H.
        destruct dv as [dd [w |]]; cbn in E, H; subst dd; [| discriminate].
        destruct (Number_isFinite w) eqn:F; [| discriminate].
        injection H as ->. split; [exact F |].
        apply in_or_app. right. now left.
      * rewrite lookup_insert_ne in H by exact N.
        destruct (IH d v H) as [F I]. split; [exact F |].
        apply in_or_app. now left.
Qed.

Lemma clamp01_fin_unit x :
  exists t, clamp01 (Fin x) = Fin t /\ (0 <= t <= 1)%Q.
Proof.
  rewrite clamp01_fin.
  destruct (Qle_bool 1 x) eqn:X1.
  - exists 1%Q. split; [reflexivity | lra].
  - destruct (Qle_bool 0 x) eqn:X0.
    + exists x. split; [reflexivity |]. apply Qle_bool_false in X1.
      apply Qle_bool_iff in X0. lra.
    + exists 0%Q. split; [reflexivity | lra].
Qed.

Lemma intensity_finite values q :
  range_fits values ->
  exists t, intensity (buildScale values) (Some (Fin q)) = Fin t
            /\ (0 <= t <= 1)%Q.
Proof.
  intros Hf.
  destruct (buildScale_bounds values) as (a & b & Hab & _ & Hi & Hn & Hs).
  assert (Ho : (b - a < overflow64)%Q).
  { apply (range_fits_bounds values a b Hf Hab Hn).
    intros E. destruct (Hs E) as (Ia & Ib & _). now split. }
  destruct (scale_of_bounds_unit a b (Fin q) Hab Ho ltac:(discriminate))
    as [L U].
  rewrite Hi.
  destruct (scale_of_bounds a b (Some (Fin q))) as [t | | |];
    try discriminate.
  exists t. split; [reflexivity |].
  cbn [num_leb ofZ] in L, U. apply Qle_bool_iff in L, U.
  change (inject_Z 0) with 0%Q in L. change (inject_Z 1) with 1%Q in U.
  now split.
Qed.

Lemma renderCell_cases values scale baseColor emptyColor onDayClick day :
  let c := renderCell values scale baseColor emptyColor onDayClick day in
  (valueForCell c = None /\ hasValue c = false /\ fill c = emptyColor
   /\ cell_intensity c = ofZ 0)
  \/ (exists q, inMonth day = true
        /\ values !! iso day = Some (Some (Fin q))
        /\ valueForCell c = Some (Fin q) /\ hasValue c = true
        /\ cell_intensity c = intensity scale (Some (Fin q))
        /\ fill c = mixToWhite baseColor (intensity scale (Some (Fin q)))).
Proof.
  unfold renderCell. cbv zeta. cbn [valueForCell hasValue fill cell_intensity].
  destruct (inMonth day); [| left; repeat split; reflexivity].
  destruct (values !! iso day) as [[[q | | |] |] |];
    try (left; repeat split; reflexivity).
  right. exists q. repeat split; reflexivity.
Qed.

(** When the finite values of the data are close enough for their range
    not to overflow, every cell of the displayed month is of one of two
    kinds.  Either it shows no value and is painted with the empty color;
    or it is a day of the month for which the data has an entry with a
    finite value, it shows that value, its intensity lies between 0 and
    1, and it is painted with an [rgb(r, g, b)] color of three integers
    from 0 to 255.  Padding days and days whose value is missing, NaN or
    infinite are of the first kind. *)
Theorem cells_value_or_empty (now : Date) (activeMonthIndex : nat) (p : Props) :
  range_fits (scaleValues (data p)) ->
  Forall
    (fun c =>
       (valueForCell c = None /\ hasValue c = false
        /\ fill c = default "#FFECEC" (cell_emptyColor p))
       \/ (exists (q t : Q) (r g b : Z),
             cell_inMonth c = true
             /\ valueForCell c = Some (Fin q)
             /\ In {| dv_date := cell_key c; dv_value := Some (Fin q) |} (data p)
             /\ cell_intensity c = Fin t /\ (0 <= t <= 1)%Q
             /\ fill c = rgb_string r g b
             /\ 0 <= r <= 255 /\ 0 <= g <= 255 /\ 0 <= b <= 255))
    (CalendarHeatmap_cells now activeMonthIndex p).
Proof.
  intros Hf. unfold CalendarHeatmap_cells. cbv zeta.
  apply List.Forall_forall. intros c Hc. apply in_map_iff in Hc.
  destruct Hc as (day & <- & _).
  destruct (renderCell_cases (dateValueMap (data p))
              (buildScale (scaleValues (data p)))
              (default "#3b82f6" (cell_baseColor p))
              (default "#FFECEC" (cell_emptyColor p)) (onDayClick p) day)
    as [(V & H & F & _) | (q & M & L & V & H & I & F)].
  - left. now repeat split.
  - right.
    destruct (intensity_finite (scaleValues (data p)) q Hf) as (t & Et & Rt).
    destruct (mixToWhite_channels (default "#3b82f6" (cell_baseColor p)) t Rt)
      as (r & g & b & rr & gg & bb & _ & Rr & Rg & Rb & Mx & Nr & Ng & Nb).
    exists q, t, rr, gg, bb.
    split; [exact M |]. split; [exact V |].
    split; [exact (proj2 (proj2 (dateValueMap_domain_index _ _) _ L)) |].
    split; [now rewrite I |]. split; [exact Rt |].
    split; [now rewrite F, Et |].
    split; [| split].
    + exact (mixed_channel_range r t rr Rr Nr).
    + exact (mixed_channel_range g t gg Rg Ng).
    + exact (mixed_channel_range b t bb Rb Nb).
Qed.

(** A run: February 2025 with two values. *)
Lemma cells_value_or_empty_witness :
  let p := mkProps "2025-02"
             [mkDayValue "2025-02-10" (Some (ofZ 100));
              mkDayValue "2025-02-11" (Some (ofZ 40))]
             (Some "2025-02") (Some mon) None None None None None false in
  Forall
    (fun c =>
       (valueForCell c = None /\ hasValue c = false
        /\ fill c = default "#FFECEC" (cell_emptyColor p))
       \/ (exists (q t : Q) (r g b : Z),
             cell_inMonth c = true
             /\ valueForCell c = Some (Fin q)
             /\ In {| dv_date := cell_key c; dv_value := Some (Fin q) |} (data p)
             /\ cell_intensity c = Fin t /\ (0 <= t <= 1)%Q
             /\ fill c = rgb_string r g b
             /\ 0 <= r <= 255 /\ 0 <= g <= 255 /\ 0 <= b <= 255))
    (CalendarHeatmap_cells InvalidDate 0 p).
Proof.
  intros p. apply (cells_value_or_empty InvalidDate 0 p).
  intros x y Hx Hy. vm_compute in Hx, Hy.
  destruct Hx as [Hx | [Hx | []]], Hy as [Hy | [Hy | []]];
    injection Hx as <-; injection Hy as <-; reflexivity.
Defined.

(** ** Shape of a month grid *)

Lemma NoDup_map_inj {A B : Type} (f : A -> B) (l : list A) :
  (forall a b, f a = f b -> a = b) -> NoDup l -> NoDup (map f l).
Proof.
  intros I N. induction N as [| a l Ha N IH]; cbn [map]; constructor;
    [| exact IH].
  intros H. apply list_elem_of_In, in_map_iff in H.
  destruct H as (b & E & Hb). apply I in E. subst b.
  now apply Ha, list_elem_of_In.
Qed.

Lemma NoDup_day_range from len : NoDup (day_range from len).
Proof.
  unfold day_range. apply NoDup_map_inj; [| apply NoDup_seq].
  intros i j H. lia.
Qed.

Lemma iso_day_entries m l :
  map iso (map (day_entry m) l) = map (fun d => toISO (ValidDate d)) l.
Proof. now rewrite map_map. Qed.

Lemma grid_length y m ws :
  0 <= m <= 11 ->
  let n := gridLast y m ws - gridFirst y m ws + 1 in
  n = 28 \/ n = 35 \/ n = 42.
Proof.
  intros Hm n. subst n.
  pose proof (daysInMonth_range y m Hm) as R.
  unfold gridLast, gridFirst, monthLast, WeekDay.
  generalize dependent (daysInMonth y m). intros dm R.
  change (MakeDay y m 1) with (monthFirst y m).
  generalize (monthFirst y m). intros mf.
  destruct ws; cbn [week_first week_last]; divmod.
Qed.

Lemma filter_entries_out m l :
  (forall d, In d l -> MonthFromDay d <> m) ->
  List.filter inMonth (map (day_entry m) l) = [].
Proof.
  induction l as [| d l IH]; intros H; [reflexivity |].
  cbn [map List.filter day_entry inMonth].
  destruct (Z.eqb_spec (MonthFromDay d) m) as [E | _].
  - exfalso. apply (H d); [now left | exact E].
  - apply IH. intros d' I. apply H. now right.
Qed.

Lemma filter_entries_in m l :
  (forall d, In d l -> MonthFromDay d = m) ->
  List.filter inMonth (map (day_entry m) l) = map (day_entry m) l.
Proof.
  induction l as [| d l IH]; intros H; [reflexivity |].
  cbn [map List.filter day_entry inMonth].
  rewrite (H d) by now left. rewrite Z.eqb_refl. f_equal.
  apply IH. intros d' I. apply H. now right.
Qed.

(** The [iso] strings of a month grid, which the render loop uses as the
    keys of its cells, are pairwise distinct. *)
Theorem buildMonthDays_keys_distinct (y m : Z) (ws : WeekStart) :
  100 < y < 275760 -> 0 <= m <= 11 ->
  NoDup (map iso (buildMonthDays (ofZ y) (ofZ m) ws)).
Proof.
  intros Hy Hm. rewrite buildMonthDays_run by assumption.
  rewrite iso_day_entries.
  apply NoDup_map_inj; [| apply NoDup_day_range].
  intros a b. apply toISO_inj.
Qed.

Lemma buildMonthDays_keys_distinct_witness :
  NoDup (map iso (buildMonthDays (ofZ 2024) (ofZ 1) mon)).
Proof.
  apply (buildMonthDays_keys_distinct 2024 1 mon); lia.
Defined.

(** A month grid has four, five or six rows of seven cells, and the
    cells tagged [inMonth] are as many as the month has days. *)
Theorem buildMonthDays_rows (y m : Z) (ws : WeekStart) :
  100 < y < 275760 -> 0 <= m <= 11 ->
  let grid := buildMonthDays (ofZ y) (ofZ m) ws in
  (length grid = 28 \/ length grid = 35 \/ length grid = 42)%nat
  /\ Z.of_nat (length (List.filter inMonth grid)) = daysInMonth y m.
Proof.
  intros Hy Hm grid. subst grid.
  rewrite buildMonthDays_run by assumption.
  pose proof (grid_length y m ws Hm) as L. cbv zeta in L.
  destruct (grid_bounds y m ws) as [Gf Gl].
  pose proof (daysInMonth_range y m Hm) as R.
  assert (Fl : monthLast y m = monthFirst y m + daysInMonth y m - 1)
    by reflexivity.
  split.
  - rewrite length_map, length_day_range. lia.
  - set (a := Z.to_nat (monthFirst y m - gridFirst y m ws)).
    set (k := Z.to_nat (daysInMonth y m)).
    set (b := Z.to_nat (gridLast y m ws - monthLast y m)).
    replace (Z.to_nat (gridLast y m ws - gridFirst y m ws + 1))
      with (a + (k + b))%nat by lia.
    rewrite !day_range_app, !List.map_app, !List.filter_app.
    replace (gridFirst y m ws + Z.of_nat a) with (monthFirst y m) by lia.
    rewrite (filter_entries_out m (day_range (gridFirst y m ws) a)),
            (filter_entries_in m (day_range (monthFirst y m) k)),
            (filter_entries_out m (day_range (monthFirst y m + Z.of_nat k) b)).
    + rewrite app_nil_r. cbn [app]. rewrite length_map, length_day_range. lia.
    + intros d I. apply in_day_range in I.
      destruct (near_month_days y m d Hm) as [(A & _) | [(A & B) | (A & B)]];
        lia.
    + intros d I. apply in_day_range in I.
      destruct (near_month_days y m d Hm) as [(_ & _ & A & _) | [(A & _) | (A & _)]];
        lia.
    + intros d I. apply in_day_range in I.
      destruct (near_month_days y m d Hm) as [(A & _) | [(A & B) | (A & B)]];
        lia.
Qed.

Lemma buildMonthDays_rows_witness :
  let grid := buildMonthDays (ofZ 2026) (ofZ 1) sun in
  (length grid = 28 \/ length grid = 35 \/ length grid = 42)%nat
  /\ Z.of_nat (length (List.filter inMonth grid)) = daysInMonth 2026 1.
Proof.
  apply (buildMonthDays_rows 2026 1 sun); lia.
Defined.

(** ** Weekday labels *)

Lemma lookup_day_range from len i :
  (i < len)%nat -> day_range from len !! i = Some (from + Z.of_nat i).
Proof.
  intros H. unfold day_range.
  change (map ?f ?l) with (f <$> l). rewrite list_lookup_fmap.
  rewrite lookup_seq_lt by exact H. reflexivity.
Qed.

Lemma ordered_label language ws j :
  (j < 7)%nat ->
  getOrderedWeekdayLabels language ws !! j
  = WEEKDAY_LABELS language !! ((Z.to_nat (week_first ws) + j) mod 7)%nat.
Proof.
  intros H.
  do 7 (destruct j as [| j]; [destruct language, ws; reflexivity |]). lia.
Qed.

(** The header of the grid names the week day of every cell below it:
    in a grid of seven columns the cell of index [i] stands in column
    [i mod 7], and the label of that column is the label of the week day
    of the cell's date, for both languages and both week starts. *)
Theorem weekday_labels_aligned (language : WeekdayLanguage) (y m : Z)
    (ws : WeekStart) (i : nat) :
  100 < y < 275760 -> 0 <= m <= 11 ->
  (i < length (buildMonthDays (ofZ y) (ofZ m) ws))%nat ->
  exists d : Z,
    buildMonthDays (ofZ y) (ofZ m) ws !! i = Some (day_entry m d)
    /\ getOrderedWeekdayLabels language ws !! (i mod 7)%nat
       = WEEKDAY_LABELS language !! Z.to_nat (WeekDay d).
Proof.
  intros Hy Hm. rewrite buildMonthDays_run by assumption.
  rewrite List.length_map, length_day_range. intros Hi.
  exists (gridFirst y m ws + Z.of_nat i). split.
  - change (map ?f ?l) with (f <$> l). rewrite list_lookup_fmap.
    now rewrite lookup_day_range by exact Hi.
  - rewrite ordered_label by (apply Nat.mod_upper_bound; lia).
    f_equal.
    assert (W : WeekDay (gridFirst y m ws + Z.of_nat i)
                = (week_first ws + Z.of_nat (i mod 7)) mod 7).
    { rewrite Nat2Z.inj_mod. unfold gridFirst, WeekDay.
      generalize (monthFirst y m). intros mf.
      destruct ws; cbn [week_first]; divmod. }
    rewrite W. apply Nat2Z.inj.
    rewrite Nat2Z.inj_mod, Nat2Z.inj_add, !Z2Nat.id;
      [reflexivity | |];
      first [apply Z.mod_pos_bound; lia | destruct ws; cbn [week_first]; lia].
Qed.

Lemma weekday_labels_aligned_witness :
  exists d : Z,
    buildMonthDays (ofZ 2025) (ofZ 0) mon !! 9%nat = Some (day_entry 0 d)
    /\ getOrderedWeekdayLabels en mon !! (9 mod 7)%nat
       = WEEKDAY_LABELS en !! Z.to_nat (WeekDay d).
Proof.
  apply (weekday_labels_aligned en 2025 0 mon 9); [lia | lia |].
  vm_compute. lia.
Defined.

(** ** Date utilities *)

Lemma string_of_Z_head z t rest : string_of_Z z +:+ "-" +:+ t <> String "N" rest.
Proof.
  unfold string_of_Z, NilZero.string_of_int.
  destruct (Z.to_int z) as [u | u]; [| discriminate].
  destruct u; discriminate.
Qed.

(** [toISO] never gives one string to two dates, the invalid date
    included: it is printed [NaN-NaN-NaN], which no day is. *)
Theorem toISO_injective (a b : Date) : a <> b -> toISO a <> toISO b.
Proof.
  intros N E. apply N. clear N.
  destruct a as [x |], b as [y |].
  - f_equal. now apply toISO_inj.
  - exfalso. rewrite toISO_valid in E. unfold isoDate in E.
    exact (string_of_Z_head _ _ _ E).
  - exfalso. rewrite toISO_valid in E. unfold isoDate in E. symmetry in E.
    exact (string_of_Z_head _ _ _ E).
  - reflexivity.
Qed.

Lemma toISO_injective_witness :
  toISO (ValidDate 20000) <> toISO InvalidDate.
Proof.
  apply (toISO_injective (ValidDate 20000) InvalidDate). discriminate.
Defined.

(** *** Reading a printed month back *)

Lemma digits_uint u : forall acc,
  0 <= acc ->
  digits_value acc (NilEmpty.string_of_uint u) = Some (uint_value u acc).
Proof.
  induction u as [| u IH | u IH | u IH | u IH | u IH | u IH | u IH | u IH
                  | u IH | u IH]; intros acc Ha;
    cbn [NilEmpty.string_of_uint digits_value].
  1: { destruct acc as [| p | p]; [reflexivity | reflexivity | lia]. }
  all: match goal with
       | |- context [digit_value ?c] =>
           let v := eval vm_compute in (digit_value c) in
           change (digit_value c) with v
       end; cbv iota; rewrite IH by lia;
       f_equal; destruct acc as [| p | p]; [reflexivity | | lia];
       match goal with
       | |- context [10 * Z.pos p + ?k] =>
           match k with
           | 0 => replace (10 * Z.pos p + k) with (Z.pos (10 * p)) by lia
           | Z.pos ?q =>
               replace (10 * Z.pos p + k) with (Z.pos (q + 10 * p)) by lia
           end
       end; reflexivity.
Qed.

Lemma digits_string_of_Z n : 0 <= n -> digits_value 0 (string_of_Z n) = Some n.
Proof.
  intros H. unfold string_of_Z.
  destruct n as [| p | p]; [reflexivity | | lia].
  cbn [Z.to_int NilZero.string_of_int]. unfold NilZero.string_of_uint.
  pose proof (DecimalPos.Unsigned.to_uint_nonnil p) as N.
  pose proof (DecimalPos.Unsigned.of_to p) as E.
  destruct (Pos.to_uint p) eqn:U; [contradiction | ..];
    rewrite digits_uint by lia; unfold uint_value; now rewrite E.
Qed.

Lemma digit_not_dash c v : digit_value c = Some v -> Ascii.eqb c "-" = false.
Proof.
  intros H. destruct (Ascii.eqb_spec c "-") as [-> | _]; [| reflexivity].
  vm_compute in H. discriminate.
Qed.

Lemma split_on_digits s : forall acc v,
  digits_value acc s = Some v -> split_on "-" s = [s].
Proof.
  induction s as [| c s IH]; intros acc v H; [reflexivity |].
  cbn [digits_value] in H. destruct (digit_value c) as [w |] eqn:D;
    [| discriminate].
  cbn [split_on]. rewrite (digit_not_dash c w D). now rewrite (IH _ _ H).
Qed.

Lemma split_on_digits_dash s t : forall acc v,
  digits_value acc s = Some v ->
  split_on "-" (s +:+ String "-" t) = s :: split_on "-" t.
Proof.
  induction s as [| c s IH]; intros acc v H.
  - rewrite append_nil. cbn [split_on]. now rewrite Ascii.eqb_refl.
  - cbn [digits_value] in H. destruct (digit_value c) as [w |] eqn:D;
      [| discriminate].
    rewrite append_cons. cbn [split_on]. rewrite (digit_not_dash c w D).
    now rewrite (IH _ _ H).
Qed.

Lemma parseYM_pieces sy sm y m pieces s :
  digits_value 0 sy = Some y -> digits_value 0 sm = Some (m + 1) ->
  split_on "-" s = sy :: sm :: pieces ->
  parseYM s = TimeClip (MakeDay (MakeFullYear y) m 1).
Proof.
  intros Hy Hm E. unfold parseYM. rewrite E. cbn [map nth].
  unfold Number_ofString. rewrite Hy, Hm.
  rewrite num_sub_ofZ. replace (m + 1 - 1) with m by lia.
  apply newDate_ofZ.
Qed.

Lemma monthString_parts y m :
  0 <= y -> 0 <= m <= 11 ->
  map Number_ofString (split_on "-" (monthString y m)) = [ofZ y; ofZ (m + 1)].
Proof.
  intros Hy Hm. unfold monthString.
  destruct (pad_two_digits (m + 1) ltac:(lia)) as [_ Pm].
  rewrite append_cons, append_nil.
  rewrite (split_on_digits_dash _ _ 0 y) by (apply digits_string_of_Z; lia).
  rewrite (split_on_digits _ 0 (m + 1)) by exact Pm.
  cbn [map]. unfold Number_ofString.
  now rewrite digits_string_of_Z, Pm by lia.
Qed.

Lemma monthFirst_in_range y m :
  100 <= y < 275760 -> 0 <= m <= 11 -> in_range (monthFirst y m).
Proof.
  intros Hy Hm. destruct (Z.eq_dec y 100) as [-> | N].
  - month_cases m; vm_compute; discriminate.
  - destruct (month_days_bounds y m ltac:(lia) Hm) as (A & B & _).
    pose proof (daysInMonth_range y m Hm). unfold monthLast in B.
    unfold in_range, monthFirst in *. lia.
Qed.

(** [parseYM] reads a month string: for a year printed in decimal and a
    month number padded to two digits it is the first day of that month,
    for the years from 101 on; a year from 0 to 99 is read as 1900 +
    year, as the [Date] constructor does. *)
Theorem parseYM_month_string (y m : Z) :
  0 <= y < 275760 -> 0 <= m <= 11 ->
  parseYM (monthString y m)
  = ValidDate (monthFirst (if y <=? 99 then 1900 + y else y) m).
Proof.
  intros Hy Hm. unfold monthString.
  destruct (pad_two_digits (m + 1) ltac:(lia)) as [_ Pm].
  rewrite append_cons, append_nil.
  rewrite (parseYM_pieces (string_of_Z y) (pad (ofZ (m + 1))) y m []).
  - unfold MakeFullYear.
    destruct (Z.leb_spec y 99) as [L | L].
    + replace ((0 <=? y) && true) with true
        by (symmetry; apply andb_true_iff; split; [lia | reflexivity]).
      apply TimeClip_in_range, monthFirst_in_range; lia.
    + rewrite andb_false_r.
      apply TimeClip_in_range, monthFirst_in_range; lia.
  - apply digits_string_of_Z. lia.
  - exact Pm.
  - rewrite (split_on_digits_dash _ _ 0 y) by (apply digits_string_of_Z; lia).
    now rewrite (split_on_digits _ 0 (m + 1)).
Qed.

Lemma parseYM_month_string_witness :
  parseYM (monthString 2025 2)
  = ValidDate (monthFirst (if 2025 <=? 99 then 1900 + 2025 else 2025) 2).
Proof.
  apply (parseYM_month_string 2025 2); lia.
Defined.

(** [parseYM] applied to the ISO string of a day gives the first day of
    that day's month: the day part of the string is ignored. *)
Theorem parseYM_toISO (d : Z) :
  100 <= YearFromDay d < 275760 ->
  parseYM (toISO (ValidDate d))
  = ValidDate (monthFirst (YearFromDay d) (MonthFromDay d)).
Proof.
  intros Hy. rewrite toISO_valid. unfold isoDate.
  pose proof (MonthFromDay_range d) as Rm.
  pose proof (DateFromDay_range d) as Rd.
  pose proof (daysInMonth_range (YearFromDay d) _ Rm) as Rn.
  destruct (pad_two_digits (MonthFromDay d + 1) ltac:(lia)) as [_ Pm].
  destruct (pad_two_digits (DateFromDay d) ltac:(lia)) as [_ Pd].
  rewrite !append_cons, !append_nil.
  rewrite (parseYM_pieces (string_of_Z (YearFromDay d))
             (pad (ofZ (MonthFromDay d + 1))) (YearFromDay d) (MonthFromDay d)
             [pad (ofZ (DateFromDay d))]).
  - rewrite MakeFullYear_id by lia.
    apply TimeClip_in_range, monthFirst_in_range; [lia | exact Rm].
  - apply digits_string_of_Z. lia.
  - exact Pm.
  - rewrite (split_on_digits_dash _ _ 0 (YearFromDay d))
      by (apply digits_string_of_Z; lia).
    rewrite (split_on_digits_dash _ _ 0 (MonthFromDay d + 1)) by exact Pm.
    now rewrite (split_on_digits _ 0 (DateFromDay d)).
Qed.

Lemma parseYM_toISO_witness :
  parseYM (toISO (ValidDate 20162))
  = ValidDate (monthFirst (YearFromDay 20162) (MonthFromDay 20162)).
Proof.
  apply (parseYM_toISO 20162). vm_compute. split; [discriminate | reflexivity].
Defined.

(** *** Weeks and month ends *)

(** For a day of a year that a [Date] keeps as given, [startOfWeek] and
    [endOfWeek] return the two ends of the week of seven days that holds
    the day: the first falls on the week-start day, the second six days
    later.  The ends of the time range are left out, where the week
    would leave it. *)
Theorem week_of_day (d : Z) (ws : WeekStart) :
  ~ 0 <= YearFromDay d <= 99 -> Z.abs d <= 100000000 - 6 ->
  exists s e : Z,
    startOfWeek (ValidDate d) ws = ValidDate s
    /\ endOfWeek (ValidDate d) ws = ValidDate e
    /\ s <= d <= e /\ e = s + 6
    /\ WeekDay s = week_first ws /\ WeekDay e = week_last ws.
Proof.
  intros Hy Hr.
  rewrite startOfWeek_valid, endOfWeek_valid by exact Hy.
  pose proof (WeekDay_range d) as W.
  assert (B : 0 <= (WeekDay d - week_first ws + 7) mod 7 < 7)
    by (apply Z.mod_pos_bound; lia).
  assert (F : 0 <= (week_last ws - WeekDay d + 7) mod 7 < 7)
    by (apply Z.mod_pos_bound; lia).
  rewrite !TimeClip_in_range by (unfold in_range; lia).
  eexists _, _. split; [reflexivity |]. split; [reflexivity |].
  unfold WeekDay in *. destruct ws; cbn [week_first week_last] in *;
    repeat split; divmod.
Qed.

Lemma week_of_day_witness :
  exists s e : Z,
    startOfWeek (ValidDate 20162) mon = ValidDate s
    /\ endOfWeek (ValidDate 20162) mon = ValidDate e
    /\ s <= 20162 <= e /\ e = s + 6
    /\ WeekDay s = week_first mon /\ WeekDay e = week_last mon.
Proof.
  apply (week_of_day 20162 mon); vm_compute; intuition discriminate.
Defined.

(** [endOfMonth] of any day of a month is the last day of that month:
    it has the same year and month as the day, it is not before the day,
    and the day after it is of another month. *)
Theorem endOfMonth_last_day (d : Z) :
  100 < YearFromDay d < 275760 ->
  exists e : Z,
    endOfMonth (ValidDate d) = ValidDate e
    /\ d <= e
    /\ YearFromDay e = YearFromDay d /\ MonthFromDay e = MonthFromDay d
    /\ DateFromDay e = daysInMonth (YearFromDay d) (MonthFromDay d)
    /\ MonthFromDay (e + 1) <> MonthFromDay d.
Proof.
  intros Hy.
  pose proof (MonthFromDay_range d) as Rm.
  pose proof (DateFromDay_range d) as Rd.
  set (y := YearFromDay d) in *. set (m := MonthFromDay d) in *.
  pose proof (daysInMonth_range y m Rm) as Rn.
  destruct (month_days_bounds y m Hy Rm) as (A & B & _ & _ & L).
  assert (Fd : monthFirst y m + (DateFromDay d - 1) = d).
  { pose proof (MakeDay_fields d 0) as F. fold y m in F.
    pose proof (MakeDay_date y m 1 (DateFromDay d - 1)) as G.
    replace (1 + (DateFromDay d - 1)) with (DateFromDay d + 0) in G by lia.
    unfold monthFirst. lia. }
  exists (monthLast y m).
  assert (E : endOfMonth (ValidDate d) = ValidDate (monthLast y m)).
  { unfold endOfMonth. cbn [getFullYear getMonth]. fold y m.
    rewrite num_add_ofZ, newDate_ofZ, MakeFullYear_id by lia.
    pose proof (MakeDay_date y (m + 1) 1 (-1)) as G.
    replace (1 + -1) with 0 in G by lia. rewrite G.
    rewrite MakeDay_next_month by exact Rm.
    apply TimeClip_in_range. clear - A B Rn.
    unfold in_range, monthLast, monthFirst in *. lia. }
  split; [exact E |].
  assert (Lm : monthLast y m = monthFirst y m + daysInMonth y m - 1)
    by reflexivity.
  split; [lia |].
  destruct (fields_MakeDay y m (daysInMonth y m) Rm ltac:(lia))
    as (FY & FM & FD).
  rewrite L. split; [exact FY |]. split; [exact FM |]. split; [exact FD |].
  rewrite <- L.
  destruct (near_month_days y m (monthLast y m + 1) Rm ltac:(lia))
    as [(C & _) | [(C & _) | (_ & C)]]; [lia | lia |].
  pose proof (MonthFromDay_range (monthLast y m + 1)). lia.
Qed.

Lemma endOfMonth_last_day_witness :
  exists e : Z,
    endOfMonth (ValidDate 19782) = ValidDate e
    /\ 19782 <= e
    /\ YearFromDay e = YearFromDay 19782
    /\ MonthFromDay e = MonthFromDay 19782
    /\ DateFromDay e = daysInMonth (YearFromDay 19782) (MonthFromDay 19782)
    /\ MonthFromDay (e + 1) <> MonthFromDay 19782.
Proof.
  apply (endOfMonth_last_day 19782). vm_compute. split; reflexivity.
Defined.

(** ** The legend as displayed *)

Lemma mixToWhite_zero hex : mixToWhite hex (ofZ 0) = "rgb(255, 255, 255)".
Proof.
  destruct (mixToWhite_channels hex (inject_Z 0) ltac:(split; discriminate))
    as (r & g & b & rr & gg & bb & _ & _ & _ & _ & M & Nr & Ng & Nb).
  unfold ofZ. rewrite M.
  apply mixed_channel_white in Nr, Ng, Nb. now subst rr gg bb.
Qed.

Lemma mixToWhite_one hex r g b :
  hexToRgb hex = (ofZ r, ofZ g, ofZ b) ->
  mixToWhite hex (ofZ 1) = rgb_string r g b.
Proof.
  intros E.
  destruct (mixToWhite_channels hex (inject_Z 1) ltac:(split; discriminate))
    as (r' & g' & b' & rr & gg & bb & E' & _ & _ & _ & M & Nr & Ng & Nb).
  rewrite E in E'. injection E' as Hr Hg Hb. subst r' g' b'.
  unfold ofZ. rewrite M.
  apply mixed_channel_base in Nr, Ng, Nb. now subst rr gg bb.
Qed.

Lemma legendLevels_shown (legendLabels : option (list string)) :
  exists a b c d : string,
    legendLabelsResolved legendLabels = [a; b; c; d]
    /\ legendLevels true (legendLabelsResolved legendLabels)
       = [ {| label := Some a; level_intensity := ofZ 0 |};
           {| label := Some b; level_intensity := Fin (1 # 3) |};
           {| label := Some c; level_intensity := Fin (2 # 3) |};
           {| label := Some d; level_intensity := ofZ 1 |} ].
Proof.
  destruct legendLabels as [[| a [| b [| c [| d rest]]]] |];
    eexists _, _, _, _; split; reflexivity.
Qed.

Lemma key_suffix_distinct (a b : string) (i j : ascii) :
  i <> j ->
  a +:+ "-" +:+ String i "" <> b +:+ "-" +:+ String j "".
Proof.
  intros N E. apply append_inj_suffix in E; [| reflexivity].
  destruct E as [_ E]. rewrite !append_cons, !append_nil in E. congruence.
Qed.

(** The legend the component displays.  With [legend.show] false there is
    none.  Otherwise it has four items, labelled with the four resolved
    labels, whose keys are pairwise distinct even when labels repeat; the
    first swatch is white and the last one is the base color as
    [hexToRgb] reads it, whatever string the base color is. *)
Theorem legend_view (p : Props) :
  match CalendarHeatmap_legendView p with
  | None => legend_show p = Some false
  | Some items =>
      legend_show p <> Some false
      /\ length items = 4%nat
      /\ NoDup (map item_key items)
      /\ map item_label items
         = map Some (legendLabelsResolved (legend_labels p))
      /\ item_background <$> head items = Some "rgb(255, 255, 255)"
      /\ exists r g b : Z,
           hexToRgb (default "#3b82f6" (cell_baseColor p))
           = (ofZ r, ofZ g, ofZ b)
           /\ item_background <$> last items = Some (rgb_string r g b)
  end.
Proof.
  unfold CalendarHeatmap_legendView, CalendarHeatmap_legend. cbv zeta.
  destruct (legend_show p) as [[|] |]; cbn [from_option id];
    [| reflexivity |].
  all: destruct (legendLevels_shown (legend_labels p))
         as (a & b & c & d & R & L);
       rewrite L, R; unfold Legend; cbn [length Nat.eqb imap map label
         level_intensity from_option id item_key item_label item_background
         head last fmap option_fmap option_map compose];
       (split; [discriminate |]); (split; [reflexivity |]);
       (split; [| split; [reflexivity | split]]).
  all: try (rewrite mixToWhite_zero; reflexivity).
  all: try (destruct (hexToRgb_any (default "#3b82f6" (cell_baseColor p)))
              as (r & g & b' & E & _); exists r, g, b';
            split; [exact E |]; now rewrite (mixToWhite_one _ _ _ _ E)).
  all: rewrite !numToString_ofZ;
       change (string_of_Z (Z.of_nat 0)) with "0";
       change (string_of_Z (Z.of_nat 1)) with "1";
       change (string_of_Z (Z.of_nat 2)) with "2";
       change (string_of_Z (Z.of_nat 3)) with "3";
       repeat (constructor;
               [rewrite ?list_elem_of_In; cbn [In];
                intros H; repeat destruct H as [H | H];
                try contradiction;
                revert H; apply key_suffix_distinct; discriminate |]);
       constructor.
Qed.

(** ** The displayed month *)

(** After the index of the displayed month is clamped to the list of
    months, it selects a month: whatever the props and whatever index
    from 0 on the state holds, [activeMonth] is defined, so the grid is
    never the empty fallback.  An index that selects a month is kept; a
    larger one is replaced by the index of the last month. *)
Theorem clamped_month_exists (months : list MonthInfo) (start : string)
    (ws : WeekStart) (prev : Z) :
  0 <= prev ->
  let safe := safeMonths months start ws in
  let idx := clampActiveMonthIndex (length safe) prev in
  (exists m, activeMonth safe idx = Some m)
  /\ (prev < Z.of_nat (length safe) -> idx = prev)
  /\ (Z.of_nat (length safe) <= prev ->
      activeMonth safe idx = last safe)
  /\ clampActiveMonthIndex (length safe) idx = idx.
Proof.
  intros Hp safe idx. subst idx.
  pose proof (safeMonths_nonempty months start ws) as N. fold safe in N.
  assert (L : (0 < length safe)%nat) by (destruct safe; [contradiction | cbn; lia]).
  unfold clampActiveMonthIndex, activeMonth. cbv zeta.
  destruct (Z.ltb_spec (Z.of_nat (length safe) - 1) prev) as [H | H].
  - destruct (Z.ltb_spec (Z.of_nat (length safe) - 1) 0) as [H0 | H0]; [lia |].
    replace (Z.to_nat (Z.of_nat (length safe) - 1)) with (pred (length safe))
      by lia.
    rewrite <- last_lookup.
    split; [| split; [lia | split; [reflexivity |]]].
    + destruct (last safe) as [m |] eqn:E; [now exists m |].
      apply last_None in E. contradiction.
    + destruct (Z.ltb_spec (Z.of_nat (length safe) - 1)
                  (Z.of_nat (length safe) - 1)); [lia | reflexivity].
  - destruct (Z.ltb_spec prev 0) as [H0 | H0]; [lia |].
    split; [| split; [reflexivity | split; [lia |]]].
    + apply lookup_lt_is_Some. lia.
    + destruct (Z.ltb_spec (Z.of_nat (length safe) - 1) prev); [lia | reflexivity].
Qed.

Lemma clamped_month_exists_witness :
  let safe := safeMonths [] "2025-03" sun in
  let idx := clampActiveMonthIndex (length safe) 7 in
  (exists m, activeMonth safe idx = Some m)
  /\ (7 < Z.of_nat (length safe) -> idx = 7)
  /\ (Z.of_nat (length safe) <= 7 ->
      activeMonth safe idx = last safe)
  /\ clampActiveMonthIndex (length safe) idx = idx.
Proof.
  apply (clamped_month_exists [] "2025-03" sun 7). lia.
Defined.

(** ** The month sequence in order *)

(** The months built by [buildMonths] come in calendar order without a
    gap: when the start month is not after the end month (both valid,
    years as for the grids), the sequence has one entry for each month
    from the start month to the end month, the entry of index [k] is the
    [k]-th month after the start month, and its grid is the one
    [buildMonthDays] builds for its year and month. *)
Theorem buildMonths_in_order (now : Date) (startYM : string)
    (endYM : option string) (ws : WeekStart) (s e : Z) :
  parseYM startYM = ValidDate s -> resolved_end now endYM = ValidDate e ->
  100 < YearFromDay s -> YearFromDay e < 275760 ->
  monthIndex s <= monthIndex e ->
  let months := buildMonths now startYM endYM ws in
  Z.of_nat (length months) = monthIndex e - monthIndex s + 1
  /\ forall k : nat, (k < length months)%nat ->
       exists g,
         months !! k = Some g
         /\ year g = ofZ ((monthIndex s + Z.of_nat k) / 12)
         /\ month g = ofZ ((monthIndex s + Z.of_nat k) mod 12)
         /\ days g = buildMonthDays (year g) (month g) ws.
Proof.
  intros Hs He Ys Ye Hle months. subst months.
  rewrite (buildMonths_run now startYM endYM ws s e Hs He Ys Ye).
  rewrite List.length_map, length_day_range. split; [lia |].
  intros k Hk. exists (month_info ws (monthIndex s + Z.of_nat k)).
  split; [| repeat split].
  change (map ?f ?l) with (f <$> l). rewrite list_lookup_fmap.
  now rewrite lookup_day_range by exact Hk.
Qed.

Lemma buildMonths_in_order_witness :
  let months := buildMonths InvalidDate "2024-11" (Some "2025-02") mon in
  Z.of_nat (length months) = monthIndex 20120 - monthIndex 20028 + 1
  /\ forall k : nat, (k < length months)%nat ->
       exists g,
         months !! k = Some g
         /\ year g = ofZ ((monthIndex 20028 + Z.of_nat k) / 12)
         /\ month g = ofZ ((monthIndex 20028 + Z.of_nat k) mod 12)
         /\ days g = buildMonthDays (year g) (month g) mon.
Proof.
  apply (buildMonths_in_order InvalidDate "2024-11" (Some "2025-02") mon
           20028 20120); vm_compute; congruence.
Defined.

(** ** Cell dimensions *)



(** ** A start month that cannot be read *)

Lemma buildMonthDays_NaN ws : buildMonthDays NaN NaN ws = [].
Proof. destruct ws; reflexivity. Qed.

Lemma split_on_absent sep s : occurs sep s = false -> split_on sep s = [s].
Proof.
  induction s as [| c rest IH]; [reflexivity |].
  cbn [occurs split_on]. intros H. apply orb_false_iff in H.
  destruct H as [-> H]. now rewrite (IH H).
Qed.

(** A string without ["-"] has no month: [parseYM] gives an invalid
    date, whatever the string says of the year. *)
Lemma parseYM_no_dash s : occurs "-" s = false -> parseYM s = InvalidDate.
Proof.
  intros H. unfold parseYM. rewrite (split_on_absent _ _ H).
  cbn [map nth num_sub]. unfold newDate.
  now destruct (toInteger (Number_ofString s)).
Qed.

(** When the start string has no ["-"] (as ["2025"], which has no
    month), nothing fails: [buildMonths] returns no month, the fallback
    of [safeMonths] is a single month with NaN for year and month and an
    empty grid, and no cell is displayed, whatever the other props and
    the clock. *)
Theorem unreadable_start_empty_grid (now : Date) (activeMonthIndex : nat)
    (p : Props) :
  occurs "-" (start p) = false ->
  let ws := default sun (range_weekStart p) in
  buildMonths now (start p) (range_end p) ws = []
  /\ safeMonths (buildMonths now (start p) (range_end p) ws) (start p) ws
     = [ {| year := NaN; month := NaN; days := [] |} ]
  /\ CalendarHeatmap_cells now activeMonthIndex p = [].
Proof.
  intros H ws. apply parseYM_no_dash in H.
  assert (B : buildMonths now (start p) (range_end p) ws = []).
  { unfold buildMonths. rewrite H. reflexivity. }
  assert (S : safeMonths [] (start p) ws
              = [ {| year := NaN; month := NaN; days := [] |} ]).
  { unfold safeMonths. rewrite H. cbn [length Nat.ltb Nat.leb getFullYear getMonth].
    now rewrite buildMonthDays_NaN. }
  split; [exact B |]. rewrite B. split; [exact S |].
  unfold CalendarHeatmap_cells. cbv zeta. fold ws. rewrite B, S.
  destruct activeMonthIndex as [| n]; reflexivity.
Qed.

Lemma unreadable_start_empty_grid_witness :
  let p := {| start := "2025"; data := []; range_end := Some "2025-03";
              range_weekStart := None; cell_size := None;
              cell_baseColor := None; cell_emptyColor := None;
              legend_show := None; legend_labels := None;
              onDayClick := false |} in
  let ws := default sun (range_weekStart p) in
  buildMonths (ValidDate 20000) (start p) (range_end p) ws = []
  /\ safeMonths (buildMonths (ValidDate 20000) (start p) (range_end p) ws)
       (start p) ws
     = [ {| year := NaN; month := NaN; days := [] |} ]
  /\ CalendarHeatmap_cells (ValidDate 20000) 0 p = [].
Proof.
  apply (unreadable_start_empty_grid (ValidDate 20000) 0
           {| start := "2025"; data := []; range_end := Some "2025-03";
              range_weekStart := None; cell_size := None;
              cell_baseColor := None; cell_emptyColor := None;
              legend_show := None; legend_labels := None;
              onDayClick := false |}).
  reflexivity.
Defined.

Lemma months_cond_NaN cursor : months_cond cursor NaN NaN = false.
Proof.
  unfold months_cond.
  destruct (getFullYear cursor), (getMonth cursor); reflexivity.
Qed.

(** When an end string is given that is not empty and has no ["-"] (as
    ["2025/03"]), and the start month is valid, the loop of
    [buildMonths] does not run, and the component displays the start
    month alone. *)
Theorem unreadable_end_start_month (now : Date) (startYM endYM : string)
    (ws : WeekStart) (s : Z) :
  endYM <> "" -> occurs "-" endYM = false ->
  parseYM startYM = ValidDate s ->
  buildMonths now startYM (Some endYM) ws = []
  /\ safeMonths (buildMonths now startYM (Some endYM) ws) startYM ws
     = [ {| year := ofZ (YearFromDay s);
            month := ofZ (MonthFromDay s);
            days := buildMonthDays (ofZ (YearFromDay s))
                      (ofZ (MonthFromDay s)) ws |} ].
Proof.
  intros Hne H Hs. apply parseYM_no_dash in H.
  assert (B : buildMonths now startYM (Some endYM) ws = []).
  { unfold buildMonths.
    assert (T : truthy_string (Some endYM) = true)
      by (destruct endYM; [contradiction | reflexivity]).
    rewrite T. cbn [from_option id]. rewrite H. cbn [getFullYear getMonth].
    apply months_loop_stop, months_cond_NaN. }
  split; [exact B |]. rewrite B. unfold safeMonths.
  cbn [length Nat.ltb Nat.leb]. now rewrite Hs.
Qed.

Lemma unreadable_end_start_month_witness :
  buildMonths (ValidDate 20000) "2025-01" (Some "2025/03") sun = []
  /\ safeMonths (buildMonths (ValidDate 20000) "2025-01" (Some "2025/03") sun)
       "2025-01" sun
     = [ {| year := ofZ (YearFromDay 20089);
            month := ofZ (MonthFromDay 20089);
            days := buildMonthDays (ofZ (YearFromDay 20089))
                      (ofZ (MonthFromDay 20089)) sun |} ].
Proof.
  apply (unreadable_end_start_month (ValidDate 20000) "2025-01" "2025/03" sun
           20089).
  - discriminate.
  - reflexivity.
  - reflexivity.
Defined.

(** ** The cells of the largest and of the smallest value *)

Lemma in_scaleValues data q :
  In (Fin q) (scaleValues data)
  <-> exists dv, In dv data /\ dv_value dv = Some (Fin q).
Proof.
  unfold scaleValues. rewrite filter_In, in_map_iff. split.
  - intros [(dv & E & I) _]. exists dv. split; [exact I |].
    destruct (dv_value dv) as [v |]; cbn in E; [now subst v | discriminate].
  - intros (dv & I & E). split; [| reflexivity].
    exists dv. now rewrite E.
Qed.

Lemma cell_value_in_data now activeMonthIndex p c q :
  In c (CalendarHeatmap_cells now activeMonthIndex p) ->
  valueForCell c = Some (Fin q) ->
  In (Fin q) (scaleValues (data p))
  /\ cell_intensity c
     = intensity (buildScale (scaleValues (data p))) (Some (Fin q))
  /\ fill c = mixToWhite (default "#3b82f6" (cell_baseColor p))
                (cell_intensity c).
Proof.
  unfold CalendarHeatmap_cells. cbv zeta. intros Hc V.
  apply in_map_iff in Hc. destruct Hc as (day & <- & _).
  destruct (renderCell_cases (dateValueMap (data p))
              (buildScale (scaleValues (data p)))
              (default "#3b82f6" (cell_baseColor p))
              (default "#FFECEC" (cell_emptyColor p)) (onDayClick p) day)
    as [(V' & _) | (q' & _ & L & V' & _ & I & F)];
    rewrite V in V'; [discriminate |].
  injection V' as <-.
  split; [| split; [exact I | now rewrite I]].
  apply in_scaleValues.
  exists {| dv_date := iso day; dv_value := Some (Fin q) |}.
  split; [| reflexivity].
  exact (proj2 (proj2 (dateValueMap_domain_index _ _) _ L)).
Qed.

(** When the finite values of the data are binary64 numbers whose range
    does not overflow: a displayed cell whose value is the largest finite
    value of the data has intensity 1 and is painted with the base color
    as [hexToRgb] reads it; a displayed cell whose value is the smallest
    finite value, when the data has a larger one, has intensity 0 and is
    painted white, whatever the base color. *)
Theorem extreme_value_cells (now : Date) (activeMonthIndex : nat) (p : Props)
    (c : Cell) (q : Q) :
  (forall q', In (Fin q') (scaleValues (data p)) -> binary64 q') ->
  range_fits (scaleValues (data p)) ->
  In c (CalendarHeatmap_cells now activeMonthIndex p) ->
  valueForCell c = Some (Fin q) ->
  ((forall q', In (Fin q') (scaleValues (data p)) -> (q' <= q)%Q) ->
     cell_intensity c = ofZ 1
     /\ exists r g b : Z,
          hexToRgb (default "#3b82f6" (cell_baseColor p))
          = (ofZ r, ofZ g, ofZ b)
          /\ fill c = rgb_string r g b)
  /\ ((forall q', In (Fin q') (scaleValues (data p)) -> (q <= q')%Q) ->
      (exists q', In (Fin q') (scaleValues (data p)) /\ (q < q')%Q) ->
      cell_intensity c = ofZ 0 /\ fill c = "rgb(255, 255, 255)").
Proof.
  intros Hbin Hfit Hc V.
  destruct (cell_value_in_data now activeMonthIndex p c q Hc V) as (I & Ei & Ef).
  destruct (buildScale_bounds (scaleValues (data p)))
    as (a & b & Hab & _ & Hi & _ & Hin).
  destruct (Hin (ex_intro _ q I)) as (Ia & Ib & Hq).
  pose proof (Hbin a Ia) as Ba. pose proof (Hbin b Ib) as Bb.
  pose proof (Hfit a b Ia Ib) as Ho.
  rewrite Hi in Ei. split.
  - intros Hmax.
    assert (Eq : (q == b)%Q).
    { apply Qle_antisym; [apply (Hq q I) | apply (Hmax b Ib)]. }
    assert (E1 : cell_intensity c = ofZ 1).
    { rewrite Ei. destruct (Qlt_le_dec a b) as [Lt | Ge].
      - now apply scale_of_bounds_high.
      - apply scale_of_bounds_flat. now apply Qle_antisym. }
    split; [exact E1 |].
    destruct (hexToRgb_any (default "#3b82f6" (cell_baseColor p)))
      as (r & g & b' & E & _).
    exists r, g, b'. split; [exact E |].
    rewrite Ef, E1. now apply mixToWhite_one.
  - intros Hmin (q' & I' & Lt).
    assert (Eq : (q == a)%Q).
    { apply Qle_antisym; [apply (Hmin a Ia) | apply (Hq q I)]. }
    assert (Lab : (a < b)%Q).
    { pose proof (Hq q' I') as [_ U]. lra. }
    assert (E0 : cell_intensity c = ofZ 0).
    { rewrite Ei. now apply scale_of_bounds_low. }
    split; [exact E0 |]. rewrite Ef, E0. apply mixToWhite_zero.
Qed.

Lemma extreme_value_cells_witness :
  let p := mkProps "2025-02"
             [mkDayValue "2025-02-10" (Some (ofZ 100));
              mkDayValue "2025-02-11" (Some (ofZ 40))]
             (Some "2025-02") (Some mon) None None None None None false in
  let c := renderCell (dateValueMap (data p))
             (buildScale (scaleValues (data p))) "#3b82f6" "#FFECEC" false
             {| iso := "2025-02-11"; inMonth := true |} in
  ((forall q', In (Fin q') (scaleValues (data p)) -> (q' <= 40)%Q) ->
     cell_intensity c = ofZ 1
     /\ exists r g b : Z,
          hexToRgb (default "#3b82f6" (cell_baseColor p))
          = (ofZ r, ofZ g, ofZ b)
          /\ fill c = rgb_string r g b)
  /\ ((forall q', In (Fin q') (scaleValues (data p)) -> (40 <= q')%Q) ->
      (exists q', In (Fin q') (scaleValues (data p)) /\ (40 < q')%Q) ->
      cell_intensity c = ofZ 0 /\ fill c = "rgb(255, 255, 255)").
Proof.
  intros p c.
  apply (extreme_value_cells InvalidDate 0 p c 40).
  - intros x Hx. vm_compute in Hx.
    destruct Hx as [Hx | [Hx | []]]; injection Hx as <-;
      vm_compute; reflexivity.
  - intros x y Hx Hy. vm_compute in Hx, Hy.
    destruct Hx as [Hx | [Hx | []]], Hy as [Hy | [Hy | []]];
      injection Hx as <-; injection Hy as <-; reflexivity.
  - unfold CalendarHeatmap_cells. cbv zeta. apply in_map.
    vm_compute. repeat (first [left; reflexivity | right]).
  - vm_compute. reflexivity.
Defined.

(** ** The demo data *)

Lemma setDate_next d :
  setDate (ValidDate d) (num_add (getDate (ValidDate d)) (ofZ 1))
  = TimeClip (d + 1).
Proof.
  unfold setDate. cbn [getDate]. rewrite num_add_ofZ, toInteger_ofZ.
  now rewrite MakeDay_fields.
Qed.

Lemma demo_loop_run random ge k : forall d i extra,
  -100000000 <= d -> ge < 100000000 ->
  ge - d + 1 = Z.of_nat k ->
  demo_loop (k + extra) random i (ValidDate d) (ValidDate ge)
  = map (fun j =>
           {| dv_date := toISO (ValidDate (d + Z.of_nat j));
              dv_value :=
                Some (Math_round
                        (double (num_mul (random (i + j)%nat) (ofZ 5000)))) |})
      (seq 0 k).
Proof.
  induction k as [| k IH]; intros d i extra Hd Hge Hk.
  - cbn [seq map]. destruct extra as [| extra]; [reflexivity |].
    cbn [Nat.add demo_loop date_leb].
    destruct (Z.leb_spec d ge); [lia | reflexivity].
  - cbn [Nat.add demo_loop date_leb].
    destruct (Z.leb_spec d ge); [| lia].
    rewrite setDate_next, TimeClip_in_range by (unfold in_range; lia).
    rewrite IH by lia.
    cbn [seq map]. rewrite Z.add_0_r, Nat.add_0_r. f_equal.
    rewrite <- seq_shift, map_map. apply map_ext. intros j.
    replace (d + 1 + Z.of_nat j) with (d + Z.of_nat (S j)) by lia.
    replace (S i + j)%nat with (i + S j)%nat by lia. reflexivity.
Qed.

Lemma demo_loop_stop fuel random i d ge :
  ge < d -> demo_loop fuel random i (ValidDate d) (ValidDate ge) = [].
Proof.
  intros H. destruct fuel as [| fuel]; [reflexivity |].
  cbn [demo_loop date_leb]. destruct (Z.leb_spec d ge); [lia | reflexivity].
Qed.

Lemma monthLast_newDate y m :
  100 < y < 275760 -> 0 <= m <= 11 ->
  newDate (ofZ y) (ofZ (m + 1)) (ofZ 0) = ValidDate (monthLast y m).
Proof.
  intros Hy Hm. rewrite newDate_ofZ, MakeFullYear_id by lia.
  pose proof (MakeDay_date y (m + 1) 1 (-1)) as G.
  replace (1 + -1) with 0 in G by lia. rewrite G.
  rewrite MakeDay_next_month by exact Hm.
  destruct (month_days_bounds y m Hy Hm) as (A & B & _).
  pose proof (daysInMonth_range y m Hm) as Rn.
  replace (MakeDay y m 1 + daysInMonth y m + -1) with (monthLast y m)
    by (unfold monthLast; lia).
  apply TimeClip_in_range. unfold in_range, monthLast, monthFirst in *. lia.
Qed.

Lemma random_value_range q :
  (0 <= q < 1)%Q ->
  exists v, Math_round (double (num_mul (Fin q) (ofZ 5000))) = ofZ v
            /\ 0 <= v <= 5000.
Proof.
  intros [Lo Hi]. cbn [num_mul ofZ double].
  rewrite (round64_compat _ (q * inject_Z 5000)) by apply Qred_correct.
  assert (X : (0 <= q * inject_Z 5000 <= inject_Z 5000)%Q)
    by (change (inject_Z 5000) with 5000%Q; lra).
  destruct (round64_near (q * inject_Z 5000) 13 ltac:(lia))
    as (r & E & [R0 _] & _).
  { change (inject_Z (2 ^ 13)) with 8192%Q.
    change (inject_Z 5000) with 5000%Q in *. lra. }
  assert (R1 : (r <= inject_Z 5000)%Q).
  { apply (round64_fin_le _ (inject_Z 5000) r (inject_Z 5000) E); [| lra].
    now rewrite round64_ofZ by lia. }
  rewrite E. cbn [Math_round]. eexists. split; [reflexivity |].
  apply Qfloor_half_bounds. change (inject_Z 0) with 0%Q. now split.
Qed.

Lemma generateDemoData_run (random : nat -> number) (sy sm ey em : Z) :
  100 < sy < 275760 -> 100 < ey < 275760 ->
  0 <= sm <= 11 -> 0 <= em <= 11 ->
  generateDemoData random (monthString sy sm) (monthString ey em)
  = map (fun j =>
           {| dv_date := toISO (ValidDate (monthFirst sy sm + Z.of_nat j));
              dv_value :=
                Some (Math_round (double (num_mul (random j) (ofZ 5000)))) |})
      (seq 0 (Z.to_nat (monthLast ey em - monthFirst sy sm + 1))).
Proof.
  intros Hsy Hey Hsm Hem.
  unfold generateDemoData.
  rewrite !monthString_parts by lia. cbn [nth]. cbv zeta.
  rewrite num_sub_ofZ. replace (sm + 1 - 1) with sm by lia.
  rewrite newDate_ofZ, MakeFullYear_id by lia.
  change (MakeDay sy sm 1) with (monthFirst sy sm).
  rewrite TimeClip_in_range by (apply monthFirst_in_range; lia).
  rewrite monthLast_newDate by assumption.
  destruct (month_days_bounds sy sm Hsy Hsm) as (A & _).
  destruct (month_days_bounds ey em Hey Hem) as (_ & B & _).
  cbn [days_span].
  set (d := monthFirst sy sm) in *. set (ge := monthLast ey em) in *.
  destruct (Z.lt_ge_cases ge d) as [Lt | Ge].
  - rewrite demo_loop_stop by exact Lt.
    now replace (Z.to_nat (ge - d + 1)) with 0%nat by lia.
  - pose proof (demo_loop_run random ge (Z.to_nat (ge - d + 1)) d 0 0
                  ltac:(lia) ltac:(lia) ltac:(lia)) as R.
    rewrite Nat.add_0_r in R. exact R.
Qed.

(** The demo data: for a start month and an end month written [YYYY-MM]
    (years from 101 to 275759), [generateDemoData] returns one entry for
    each day from the first day of the start month to the last day of the
    end month, in order and without a gap, and none when the end month is
    before the start month; when every draw of [Math.random] is in
    [0, 1), every value is an integer from 0 to 5000. *)
Theorem generateDemoData_days (random : nat -> number) (sy sm ey em : Z) :
  100 < sy < 275760 -> 100 < ey < 275760 ->
  0 <= sm <= 11 -> 0 <= em <= 11 ->
  let result := generateDemoData random (monthString sy sm) (monthString ey em) in
  map dv_date result
  = map (fun d => toISO (ValidDate d))
      (day_range (monthFirst sy sm)
         (Z.to_nat (monthLast ey em - monthFirst sy sm + 1)))
  /\ ((forall i, exists q, random i = Fin q /\ (0 <= q < 1)%Q) ->
      Forall (fun dv => exists v, dv_value dv = Some (ofZ v) /\ 0 <= v <= 5000)
        result).
Proof.
  intros Hsy Hey Hsm Hem result. subst result.
  rewrite generateDemoData_run by assumption. split.
  - unfold day_range. rewrite !map_map. reflexivity.
  - intros Hr. apply List.Forall_forall. intros dv I.
    apply in_map_iff in I. destruct I as (j & <- & _).
    cbn [dv_value].
    destruct (Hr j) as (q & -> & Hq).
    destruct (random_value_range q Hq) as (v & E & Hv).
    exists v. now rewrite E.
Qed.

Lemma generateDemoData_days_witness :
  let result := generateDemoData (fun _ => Fin (1 # 2)) (monthString 2025 0)
                  (monthString 2025 11) in
  map dv_date result
  = map (fun d => toISO (ValidDate d))
      (day_range (monthFirst 2025 0)
         (Z.to_nat (monthLast 2025 11 - monthFirst 2025 0 + 1)))
  /\ ((forall i, exists q,
         (fun _ : nat => Fin (1 # 2)) i = Fin q /\ (0 <= q < 1)%Q) ->
      Forall (fun dv => exists v, dv_value dv = Some (ofZ v) /\ 0 <= v <= 5000)
        result).
Proof.
  apply (generateDemoData_days (fun _ => Fin (1 # 2)) 2025 0 2025 11); lia.
Defined.

(** *** The demo data in the component *)

Lemma MonthFromDay_mono d d' :
  YearFromDay d = YearFromDay d' -> d <= d' -> MonthFromDay d <= MonthFromDay d'.
Proof.
  intros EY Hd. unfold MonthFromDay, DayWithinYear. cbv zeta. rewrite <- EY.
  generalize (DayFromYear (YearFromDay d)). intros o.
  destruct (InLeapYear (YearFromDay d)); table;
    repeat match goal with
      | |- context [?a <? ?b] => destruct (Z.ltb_spec a b)
      end; lia.
Qed.

Lemma monthIndex_mono d d' : d <= d' -> monthIndex d <= monthIndex d'.
Proof.
  intros Hd. unfold monthIndex.
  pose proof (YearFromDay_spec d) as S.
  pose proof (YearFromDay_ge (YearFromDay d) d' ltac:(lia)) as Y.
  pose proof (MonthFromDay_range d). pose proof (MonthFromDay_range d').
  destruct (Z.eq_dec (YearFromDay d) (YearFromDay d')) as [E | N].
  - pose proof (MonthFromDay_mono d d' E Hd). lia.
  - lia.
Qed.

Lemma monthIndex_MakeDay y m k :
  0 <= m <= 11 -> 1 <= k <= daysInMonth y m ->
  monthIndex (MakeDay y m k) = 12 * y + m.
Proof.
  intros Hm Hk. unfold monthIndex.
  destruct (fields_MakeDay y m k Hm Hk) as (-> & -> & _). reflexivity.
Qed.

Lemma monthLast_MakeDay y m :
  monthLast y m = MakeDay y m (daysInMonth y m).
Proof.
  unfold monthLast. pose proof (MakeDay_date y m 1 (daysInMonth y m - 1)) as G.
  replace (1 + (daysInMonth y m - 1)) with (daysInMonth y m) in G by lia. lia.
Qed.

Lemma months_between_days sy sm ey em i :
  0 <= sm <= 11 -> 0 <= em <= 11 ->
  12 * sy + sm <= i <= 12 * ey + em ->
  monthFirst sy sm <= monthFirst (i / 12) (i mod 12)
  /\ monthLast (i / 12) (i mod 12) <= monthLast ey em.
Proof.
  intros Hsm Hem Hi.
  assert (Hm : 0 <= i mod 12 <= 11) by (clear; divmod).
  pose proof (daysInMonth_range (i / 12) (i mod 12) Hm) as R.
  pose proof (daysInMonth_range sy sm Hsm) as Rs.
  pose proof (daysInMonth_range ey em Hem) as Re.
  assert (Ii : 12 * (i / 12) + i mod 12 = i) by (clear; divmod).
  split.
  - destruct (Z.lt_ge_cases (monthFirst (i / 12) (i mod 12)) (monthFirst sy sm))
      as [Lt | Ge]; [| lia].
    pose proof (monthIndex_mono _ _ (Z.lt_le_incl _ _ Lt)) as M.
    unfold monthFirst in M.
    rewrite !monthIndex_MakeDay in M by lia.
    assert (E : i / 12 = sy /\ i mod 12 = sm) by (clear - M Hi Hsm Hm Ii; lia).
    destruct E as [E1 E2]. rewrite E1, E2 in Lt. lia.
  - destruct (Z.lt_ge_cases (monthLast ey em) (monthLast (i / 12) (i mod 12)))
      as [Lt | Ge]; [| lia].
    pose proof (monthIndex_mono _ _ (Z.lt_le_incl _ _ Lt)) as M.
    rewrite !monthLast_MakeDay in M.
    rewrite !monthIndex_MakeDay in M by lia.
    assert (E : i / 12 = ey /\ i mod 12 = em) by (clear - M Hi Hem Hm Ii; lia).
    destruct E as [E1 E2]. rewrite E1, E2 in Lt. lia.
Qed.

Lemma dateValueMap_all_finite (data : list DayValue) (d : string) :
  (forall dv, In dv data -> isFiniteNumber (dv_value dv) = true) ->
  In d (map dv_date data) ->
  exists q, dateValueMap data !! d = Some (Some (Fin q)).
Proof.
  induction data as [| dv l IH] using rev_ind; intros F I; [destruct I |].
  rewrite dateValueMap_snoc.
  destruct (decide (dv_date dv = d)) as [E | N].
  - rewrite E, lookup_insert_eq.
    pose proof (F dv ltac:(apply in_or_app; right; now left)) as Fd.
    rewrite Fd. destruct (dv_value dv) as [[q | | |] |]; try discriminate.
    now exists q.
  - rewrite lookup_insert_ne by exact N. apply IH.
    + intros dv' I'. apply F, in_or_app. now left.
    + rewrite map_app in I. apply in_app_or in I.
      destruct I as [I | [I | []]]; [exact I | contradiction].
Qed.

Lemma monthString_truthy y m : truthy_string (Some (monthString y m)) = true.
Proof.
  unfold monthString. destruct (string_of_Z y); reflexivity.
Qed.

Lemma parseYM_monthString y m :
  100 < y < 275760 -> 0 <= m <= 11 ->
  parseYM (monthString y m) = ValidDate (monthFirst y m).
Proof.
  intros Hy Hm. unfold parseYM.
  rewrite monthString_parts by lia. cbn [nth]. cbv zeta.
  rewrite num_sub_ofZ. replace (m + 1 - 1) with m by lia.
  rewrite newDate_ofZ, MakeFullYear_id by lia.
  apply TimeClip_in_range, monthFirst_in_range; lia.
Qed.

(** The demo application gives the component the data generated for its
    own start and end months, with draws of [Math.random] in [0, 1).
    Then, in every month the selector offers,
    a cell shows a value exactly when it is a day of the month: no day of
    a displayed month is left without a color, and the padding days show
    none. *)
Theorem demo_fills_months (random : nat -> number) (sy sm ey em : Z)
    (now : Date) (activeMonthIndex : nat) (p : Props) :
  100 < sy < 275760 -> 100 < ey < 275760 ->
  0 <= sm <= 11 -> 0 <= em <= 11 ->
  12 * sy + sm <= 12 * ey + em ->
  (forall i, exists q, random i = Fin q /\ (0 <= q < 1)%Q) ->
  start p = monthString sy sm ->
  range_end p = Some (monthString ey em) ->
  data p = generateDemoData random (monthString sy sm) (monthString ey em) ->
  Forall (fun c => hasValue c = cell_inMonth c)
    (CalendarHeatmap_cells now activeMonthIndex p).
Proof.
  intros Hsy Hey Hsm Hem Hle Hr Es Ee Ed.
  set (ws := default sun (range_weekStart p)).
  pose proof (daysInMonth_range sy sm Hsm) as Rs.
  pose proof (daysInMonth_range ey em Hem) as Re.
  assert (Is : monthIndex (monthFirst sy sm) = 12 * sy + sm)
    by (apply monthIndex_MakeDay; lia).
  assert (Ie : monthIndex (monthFirst ey em) = 12 * ey + em)
    by (apply monthIndex_MakeDay; lia).
  assert (Ys : YearFromDay (monthFirst sy sm) = sy)
    by (apply monthFirst_fields; lia).
  assert (Ye : YearFromDay (monthFirst ey em) = ey)
    by (apply monthFirst_fields; lia).
  assert (B : buildMonths now (start p) (range_end p) ws
              = map (month_info ws)
                  (day_range (12 * sy + sm)
                     (Z.to_nat (12 * ey + em - (12 * sy + sm) + 1)))).
  { rewrite <- Is, <- Ie.
    apply buildMonths_run.
    - rewrite Es. now apply parseYM_monthString.
    - unfold resolved_end. rewrite Ee, monthString_truthy. cbn [from_option id].
      now apply parseYM_monthString.
    - lia.
    - lia. }
  unfold CalendarHeatmap_cells. cbv zeta. fold ws. rewrite B.
  set (n := Z.to_nat (12 * ey + em - (12 * sy + sm) + 1)).
  assert (S : safeMonths (map (month_info ws) (day_range (12 * sy + sm) n))
                (start p) ws
              = map (month_info ws) (day_range (12 * sy + sm) n)).
  { unfold safeMonths. rewrite List.length_map, length_day_range.
    destruct (Nat.ltb_spec 0 n); [reflexivity | lia]. }
  rewrite S. change (map ?f ?l) with (f <$> l) at 2.
  rewrite list_lookup_fmap.
  destruct (Nat.lt_ge_cases activeMonthIndex n) as [Lt | Ge];
    [| rewrite lookup_ge_None_2 by (now rewrite length_day_range);
       constructor].
  rewrite lookup_day_range by exact Lt. cbn [fmap option_fmap option_map].
  set (i := 12 * sy + sm + Z.of_nat activeMonthIndex).
  assert (Hi : 12 * sy + sm <= i <= 12 * ey + em) by lia.
  assert (Hm : 0 <= i mod 12 <= 11) by (clear; divmod).
  assert (Hy : 100 < i / 12 < 275760) by (clear - Hi Hsy Hey Hsm Hem; divmod).
  rewrite days_month_info.
  apply List.Forall_forall. intros c Hc. apply in_map_iff in Hc.
  destruct Hc as (day & <- & Hday).
  destruct (proj1 (in_buildMonthDays (i / 12) (i mod 12) ws day Hy Hm) Hday)
    as (d & -> & Hd).
  unfold renderCell. cbv zeta. cbn [hasValue cell_inMonth inMonth iso day_entry].
  destruct (Z.eqb_spec (MonthFromDay d) (i mod 12)) as [E | N]; [| reflexivity].
  destruct (grid_bounds (i / 12) (i mod 12) ws) as [Gf Gl].
  destruct (near_month_days (i / 12) (i mod 12) d Hm ltac:(lia))
    as [(In_m & _) | [(_ & X) | (_ & X)]]; [| lia | lia].
  destruct (months_between_days sy sm ey em i Hsm Hem Hi) as [Lo Hi'].
  assert (Din : In (toISO (ValidDate d)) (map dv_date (data p))).
  { rewrite Ed, generateDemoData_run by assumption.
    rewrite map_map. cbn [dv_date]. apply in_map_iff.
    exists (Z.to_nat (d - monthFirst sy sm)). split.
    - do 2 f_equal. lia.
    - apply in_seq. lia. }
  assert (Fin_all : forall dv, In dv (data p) ->
                               isFiniteNumber (dv_value dv) = true).
  { rewrite Ed, generateDemoData_run by assumption.
    intros dv I. apply in_map_iff in I. destruct I as (j & <- & _).
    cbn [dv_value isFiniteNumber].
    destruct (Hr j) as (q & -> & Hq).
    destruct (random_value_range q Hq) as (v & -> & _). reflexivity. }
  destruct (dateValueMap_all_finite (data p) _ Fin_all Din) as (q & ->).
  reflexivity.
Qed.

Lemma demo_fills_months_witness :
  let p := mkProps "2025-01"
             (generateDemoData (fun _ => Fin (1 # 3)) (monthString 2025 0)
                (monthString 2025 11))
             (Some "2025-12") None None None None None None false in
  Forall (fun c => hasValue c = cell_inMonth c)
    (CalendarHeatmap_cells InvalidDate 4 p).
Proof.
  intros p.
  apply (demo_fills_months (fun _ => Fin (1 # 3)) 2025 0 2025 11
           InvalidDate 4 p); try lia; try reflexivity.
  intros _. exists (1 # 3). split; [reflexivity | split; reflexivity || discriminate].
Defined.

(** ** [addDays] and the years read as two digits *)

Lemma two_digit_year_day y m k :
  0 <= y <= 99 -> 0 <= m <= 11 -> 1 <= k <= daysInMonth y m ->
  YearFromDay (MakeDay (1900 + y) m k) = 1900 + y
  /\ in_range (MakeDay (1900 + y) m k).
Proof.
  intros Hy Hm Hk.
  assert (B : DayFromYear (1900 + y)
              <= MakeDay (1900 + y) m k < DayFromYear (1900 + y + 1)).
  { unfold MakeDay. cbv zeta.
    replace (1900 + y + m / 12) with (1900 + y) by (clear - Hm; divmod).
    replace (m mod 12) with m by (clear - Hm; divmod).
    pose proof (DayFromYear_succ (1900 + y)) as S. unfold DaysInYear in S.
    unfold daysInMonth in Hk.
    destruct (InLeapYear (1900 + y)), (InLeapYear y); month_cases m; table;
      table; lia. }
  split; [now apply YearFromDay_unique |].
  pose proof (DayFromYear_le 1900 (1900 + y) ltac:(lia)) as L.
  pose proof (DayFromYear_le (1900 + y + 1) 2000 ltac:(lia)) as U.
  change (DayFromYear 1900) with (-25567) in L.
  change (DayFromYear 2000) with 10957 in U.
  unfold in_range. lia.
Qed.

(** [addDays] moves a date by a whole number of days, across months and
    years, except from the years 0 to 99: it rebuilds the date from its
    fields, the [Date] constructor reads such a year as 1900 + year, and
    the result is counted from the day of the same fields 1900 years
    later.  A result outside the time range is the invalid date. *)
Theorem addDays_days (d n : Z) :
  let y := YearFromDay d in
  let from :=
    if (0 <=? y) && (y <=? 99)
    then MakeDay (1900 + y) (MonthFromDay d) (DateFromDay d)
    else d in
  addDays (ValidDate d) (ofZ n) = TimeClip (from + n)
  /\ YearFromDay from = (if (0 <=? y) && (y <=? 99) then 1900 + y else y).
Proof.
  cbv zeta.
  destruct (Z.leb_spec 0 (YearFromDay d)) as [L0 | L0];
    [destruct (Z.leb_spec (YearFromDay d) 99) as [L1 | L1] |];
    cbn [andb].
  - pose proof (MonthFromDay_range d) as Rm.
    pose proof (DateFromDay_range d) as Rd.
    destruct (two_digit_year_day (YearFromDay d) (MonthFromDay d)
                (DateFromDay d) ltac:(lia) Rm Rd) as [Y _].
    split; [| exact Y].
    unfold addDays. cbn [getFullYear getMonth getDate].
    rewrite num_add_ofZ, newDate_ofZ. unfold MakeFullYear.
    destruct (Z.leb_spec 0 (YearFromDay d)); [| lia].
    destruct (Z.leb_spec (YearFromDay d) 99); [| lia]. cbn [andb].
    now rewrite MakeDay_date.
  - split; [| reflexivity]. apply addDays_valid. lia.
  - split; [| reflexivity]. apply addDays_valid. lia.
Qed.

(** ** The scale and the whole data *)

(** The bounds of the scale bracket every finite value of the data,
    whatever its date: an entry superseded by a later one for the same
    date and an entry outside the displayed months count as well. *)
Theorem scale_brackets_all_values (data : list DayValue) (dv : DayValue) (q : Q) :
  In dv data -> dv_value dv = Some (Fin q) ->
  exists a b : Q,
    thresholds (buildScale (scaleValues data)) = [Fin a; Fin b]
    /\ (a <= q <= b)%Q
    /\ In (Fin a) (scaleValues data) /\ In (Fin b) (scaleValues data).
Proof.
  intros I E.
  assert (S : In (Fin q) (scaleValues data))
    by (apply in_scaleValues; now exists dv).
  destruct (buildScale_bounds (scaleValues data))
    as (a & b & _ & T & _ & _ & H).
  destruct (H (ex_intro _ q S)) as (Ia & Ib & R).
  exists a, b. split; [exact T |]. split; [exact (R q S) |]. now split.
Qed.

Lemma scale_brackets_all_values_witness :
  exists a b : Q,
    thresholds
      (buildScale
         (scaleValues [mkDayValue "2025-02-10" (Some (ofZ 9));
                       mkDayValue "2025-02-10" (Some (ofZ 2));
                       mkDayValue "1999-01-01" (Some (ofZ 1))]))
    = [Fin a; Fin b]
    /\ (a <= 9 <= b)%Q
    /\ In (Fin a)
         (scaleValues [mkDayValue "2025-02-10" (Some (ofZ 9));
                       mkDayValue "2025-02-10" (Some (ofZ 2));
                       mkDayValue "1999-01-01" (Some (ofZ 1))])
    /\ In (Fin b)
         (scaleValues [mkDayValue "2025-02-10" (Some (ofZ 9));
                       mkDayValue "2025-02-10" (Some (ofZ 2));
                       mkDayValue "1999-01-01" (Some (ofZ 1))]).
Proof.
  apply (scale_brackets_all_values
           [mkDayValue "2025-02-10" (Some (ofZ 9));
            mkDayValue "2025-02-10" (Some (ofZ 2));
            mkDayValue "1999-01-01" (Some (ofZ 1))]
           (mkDayValue "2025-02-10" (Some (ofZ 9))) 9).
  - simpl. now left.
  - reflexivity.
Defined.

(** ** The month selector *)









(** ** Padding days and clicks *)

(** Whatever the data and the handler, a padding day (a day of a
    neighbouring month) shows no value, is painted with the empty color,
    carries no click handler and sets no cursor, even when the data has a
    value for its date; and a cell that carries the click handler is a
    day of the month, with the pointer cursor, and a handler was given:
    the handler is never called with [inMonth] false. *)
Theorem padding_cells_inert (now : Date) (activeMonthIndex : nat) (p : Props) :
  Forall
    (fun c =>
       (cell_inMonth c = false ->
          valueForCell c = None /\ hasValue c = false
          /\ fill c = default "#FFECEC" (cell_emptyColor p)
          /\ has_onClick c = false /\ cursor c = None)
       /\ (has_onClick c = true ->
             cell_inMonth c = true /\ onDayClick p = true
             /\ cursor c = Some "pointer"))
    (CalendarHeatmap_cells now activeMonthIndex p).
Proof.
  unfold CalendarHeatmap_cells. cbv zeta.
  apply List.Forall_forall. intros c Hc. apply in_map_iff in Hc.
  destruct Hc as (day & <- & _).
  unfold renderCell. cbv zeta.
  cbn [cell_inMonth valueForCell hasValue fill has_onClick cursor].
  destruct (inMonth day), (onDayClick p); cbn [andb]; split; intros H;
    try discriminate; repeat split; reflexivity.
Qed.
